(** * Rock-fall video pipeline: confidence scaling, risk conclusion and
      frame sampling

    A shallow embedding of
    - [Master_LLM/ML_Models/Inside_cave/genai.py]
      ([scale_confidence], [summarize_with_gemini], [conclusion_analysis],
      [process_video_and_summarize]),
    - [Master_LLM/ML_Models/Outer_surface/model/outer_surface.py]
      ([process_video] with its nested [process_frame]),
    - [main.py] ([predict_video]) and
    - [Chatbot/Chatbot.py] ([trim_history], [extract_all_json],
      [process_user_query]).

    Python dictionaries whose iteration order is never observed are stdpp
    [gmap]s; the one dictionary whose order is observable ([all_predictions])
    is an insertion-ordered association list.  Python floats are IEEE 754
    binary64 numbers: a finite one is the rational it denotes, and every
    arithmetic operation rounds its exact result to the nearest double, a
    tie going to the even one ([B64]); a rendering of the same arithmetic on
    [SpecFloat] is kept to compare against.  Exceptions are modelled by an
    explicit [result] type with stdpp's monad notation. *)

From Stdlib Require Import QArith Qround Qabs Qpower Lqa SpecFloat.
From stdpp Require Import gmap strings list fin_maps pretty.

Set Warnings "-register-all".

Open Scope string_scope.
Open Scope list_scope.
Open Scope Z_scope.

(** ** Python values, exceptions and the few built-ins the code uses *)

Module Py.

(** JSON-shaped Python values.  A float is given by the number it denotes;
    the infinities and NaN, which JSON does not have, are left out. *)
Inductive value :=
  | VNone
  | VBool (b : bool)
  | VInt (z : Z)
  | VFloat (q : Q)
  | VStr (s : string)
  | VList (l : list value)
  | VDict (d : gmap string value).

Inductive exn_kind :=
  | ZeroDivisionError | TypeError | KeyError | IndexError | AttributeError
  | ValueError | OverflowError | RuntimeError | CollaboratorError.

(** An exception together with the text that [str(e)] yields. *)
Record exn := Exn { exn_kind_of : exn_kind; exn_str : string }.

Inductive result (A : Type) :=
  | Ok (a : A)
  | Raise (e : exn).
Arguments Ok {A} a.
Arguments Raise {A} e.

#[global] Instance result_ret : MRet result := @Ok.
#[global] Instance result_bind : MBind result := λ A B k r,
  match r with
  | Ok a => k a
  | Raise e => Raise e
  end.

Definition is_ok {A} (r : result A) : bool :=
  match r with Ok _ => true | Raise _ => false end.

(** [d.get(key, dflt)] *)
Definition get (d : gmap string value) (key : string) (dflt : value) : value :=
  default dflt (d !! key).

(** [v == "lit"] for a string literal. *)
Definition eq_str (v : value) (lit : string) : bool :=
  match v with
  | VStr s => bool_decide (s = lit)
  | _ => false
  end.

(** [v in [lit1, lit2, ...]] for a list of string literals. *)
Definition in_strs (v : value) (lits : list string) : bool :=
  existsb (eq_str v) lits.

(** The number behind a value that is usable in arithmetic and ordering
    ([bool] is a subtype of [int]); [None] where Python raises. *)
Definition as_num (v : value) : option Q :=
  match v with
  | VInt z => Some (inject_Z z)
  | VFloat q => Some q
  | VBool b => Some (if b then 1%Q else 0%Q)
  | _ => None
  end.

(** Truth value of [v] in a condition. *)
Definition truthy (v : value) : bool :=
  match v with
  | VNone => false
  | VBool b => b
  | VInt z => negb (z =? 0)
  | VFloat q => negb (Qeq_bool q 0)
  | VStr s => negb (bool_decide (s = ""))
  | VList l => negb (bool_decide (l = []))
  | VDict d => negb (bool_decide (size d = 0%nat))
  end.

Definition Qleb (x y : Q) : bool := Qle_bool x y.
Definition Qltb (x y : Q) : bool := negb (Qle_bool y x).

(** [round(x)]: the nearest integer, a tie going to the even one. *)
Definition round (x : Q) : Z :=
  let f := Qfloor x in
  match (x - inject_Z f ?= 1 # 2)%Q with
  | Lt => f
  | Gt => f + 1
  | Eq => if Z.even f then f else f + 1
  end.

(** [int(x)]: truncation toward zero. *)
Definition int (x : Q) : Z := Z.quot (Qnum x) (Z.pos (Qden x)).

(** [a % b] on integers: the sign follows the divisor. *)
Definition mod_ (a b : Z) : result Z :=
  if b =? 0 then Raise (Exn ZeroDivisionError "integer modulo by zero")
  else Ok (a mod b).

(** [list(dict.fromkeys(l))]: drop repeats, keep first occurrences. *)
Fixpoint fromkeys_aux (seen l : list string) : list string :=
  match l with
  | [] => []
  | x :: l' =>
      if bool_decide (x ∈ seen) then fromkeys_aux seen l'
      else x :: fromkeys_aux (x :: seen) l'
  end.

Definition list_fromkeys (l : list string) : list string := fromkeys_aux [] l.

(** [obj[i]] for an integer literal [i >= 0]. *)
Definition getitem_int (obj : value) (i : nat) : result value :=
  match obj with
  | VList l =>
      match l !! i with
      | Some v => Ok v
      | None => Raise (Exn IndexError "list index out of range")
      end
  | VStr s =>
      match String.get i s with
      | Some c => Ok (VStr (String c EmptyString))
      | None => Raise (Exn IndexError "string index out of range")
      end
  | VDict _ => Raise (Exn KeyError (pretty i))
  | _ => Raise (Exn TypeError "object is not subscriptable")
  end.

(** [obj[key]] for a string literal [key]. *)
Definition getitem_str (obj : value) (key : string) : result value :=
  match obj with
  | VDict d =>
      match d !! key with
      | Some v => Ok v
      | None => Raise (Exn KeyError ("'" +:+ key +:+ "'"))
      end
  | VList _ =>
      Raise (Exn TypeError "list indices must be integers or slices, not str")
  | VStr _ =>
      Raise (Exn TypeError "string indices must be integers, not 'str'")
  | _ => Raise (Exn TypeError "object is not subscriptable")
  end.

(** [obj[key] = v] for a string literal [key]; the updated object. *)
Definition setitem_str (obj : value) (key : string) (v : value)
  : result (gmap string value) :=
  match obj with
  | VDict d => Ok (<[key := v]> d)
  | VList _ =>
      Raise (Exn TypeError "list indices must be integers or slices, not str")
  | VNone =>
      Raise (Exn TypeError "'NoneType' object does not support item assignment")
  | VBool _ =>
      Raise (Exn TypeError "'bool' object does not support item assignment")
  | VInt _ =>
      Raise (Exn TypeError "'int' object does not support item assignment")
  | VFloat _ =>
      Raise (Exn TypeError "'float' object does not support item assignment")
  | VStr _ =>
      Raise (Exn TypeError "'str' object does not support item assignment")
  end.

(** The items that [for x in obj] visits. *)
Definition iter (obj : value) : result (list value) :=
  match obj with
  | VList l => Ok l
  | VDict d => Ok (VStr <$> (map_to_list d).*1)
  | VStr s => Ok ((λ c, VStr (String c EmptyString)) <$> String.list_ascii_of_string s)
  | _ => Raise (Exn TypeError "object is not iterable")
  end.

(** [obj.get(key, dflt)] and [obj.items()] exist on dictionaries only. *)
Definition as_dict (obj : value) : result (gmap string value) :=
  match obj with
  | VDict d => Ok d
  | _ => Raise (Exn AttributeError "object has no such attribute")
  end.

(** An insertion-ordered dictionary: [d[k] = v] keeps the position of a key
    that is present and appends a new one. *)
Fixpoint dict_set {V} (d : list (string * V)) (k : string) (v : V)
  : list (string * V) :=
  match d with
  | [] => [(k, v)]
  | (k', v') :: d' =>
      if bool_decide (k' = k) then (k', v) :: d' else (k', v') :: dict_set d' k v
  end.

End Py.

(** ** IEEE 754 binary64 numbers *)

Module B64.
Import Py.

(** [floor(log2 x)] for [x > 0]. *)
Definition ilog2 (x : Q) : Z :=
  let k := Z.log2 (Qnum x) - Z.log2 (Z.pos (Qden x)) in
  if Qle_bool (2 ^ k) x then k else k - 1.

(** The exponent of the last place of the doubles around [x]: 53
    significant bits, and no exponent below that of the subnormal numbers. *)
Definition exponent (x : Q) : Z :=
  if Qeq_bool x 0 then -1074 else Z.max (ilog2 (Qabs x) - 52) (-1074).

(** Rounding to the nearest multiple of the last place, a tie going to the
    even multiple: the double nearest to [x], as long as it is in range. *)
Definition rne (x : Q) : Q :=
  let e := exponent x in
  Qred (inject_Z (round (x / 2 ^ e)) * 2 ^ e).

(** A float: a finite number (the two zeros are not told apart), an
    infinity, or a NaN. *)
Inductive float :=
  | Finite (q : Q)
  | Infinite (negative : bool)
  | NaN.

(** The float that an operation with the exact result [x] returns: what
    rounds to [2 ^ 1024] or beyond overflows to an infinity. *)
Definition of_Q (x : Q) : float :=
  let r := rne x in
  if Qle_bool (2 ^ 1024) (Qabs r) then Infinite (Qltb r 0) else Finite r.

Definition is_zero (q : Q) : bool := Qeq_bool q 0.

(** [a * b] *)
Definition mul (a b : float) : float :=
  match a, b with
  | NaN, _ | _, NaN => NaN
  | Finite x, Finite y => of_Q (x * y)
  | Infinite s, Finite y | Finite y, Infinite s =>
      if is_zero y then NaN else Infinite (xorb s (Qltb y 0))
  | Infinite s, Infinite t => Infinite (xorb s t)
  end.

(** [a + b] *)
Definition add (a b : float) : float :=
  match a, b with
  | NaN, _ | _, NaN => NaN
  | Finite x, Finite y => of_Q (x + y)
  | Infinite s, Finite _ | Finite _, Infinite s => Infinite s
  | Infinite s, Infinite t => if Bool.eqb s t then Infinite s else NaN
  end.

(** [-a] *)
Definition opp (a : float) : float :=
  match a with
  | Finite x => Finite (- x)
  | Infinite s => Infinite (negb s)
  | NaN => NaN
  end.

(** [a - b] *)
Definition sub (a b : float) : float := add a (opp b).

(** [a / b]: a zero divisor raises whatever the dividend. *)
Definition div (a b : float) : result float :=
  match a, b with
  | _, Finite y =>
      if is_zero y then Raise (Exn ZeroDivisionError "float division by zero")
      else
        match a with
        | Finite x => Ok (of_Q (x / y))
        | Infinite s => Ok (Infinite (xorb s (Qltb y 0)))
        | NaN => Ok NaN
        end
  | NaN, _ | _, NaN => Ok NaN
  | Finite _, Infinite _ => Ok (Finite 0)
  | Infinite _, Infinite _ => Ok NaN
  end.

(** [a <= b] and [a < b]: false as soon as a NaN is compared. *)
Definition leb (a b : float) : bool :=
  match a, b with
  | NaN, _ | _, NaN => false
  | Finite x, Finite y => Qleb x y
  | Infinite s, Finite _ => s
  | Finite _, Infinite t => negb t
  | Infinite s, Infinite t => s || negb t
  end.

Definition ltb (a b : float) : bool :=
  match a, b with
  | NaN, _ | _, NaN => false
  | Finite x, Finite y => Qltb x y
  | Infinite s, Finite _ => s
  | Finite _, Infinite t => negb t
  | Infinite s, Infinite t => s && negb t
  end.

(** [round(a)] with one argument: an integer, ties to even. *)
Definition round_int (a : float) : result Z :=
  match a with
  | Finite x => Ok (round x)
  | Infinite _ =>
      Raise (Exn OverflowError "cannot convert float infinity to integer")
  | NaN => Raise (Exn ValueError "cannot convert float NaN to integer")
  end.

(** [int(a)]: truncation toward zero. *)
Definition int_of (a : float) : result Z :=
  match a with
  | Finite x => Ok (int x)
  | Infinite _ =>
      Raise (Exn OverflowError "cannot convert float infinity to integer")
  | NaN => Raise (Exn ValueError "cannot convert float NaN to integer")
  end.

(** The float that a decimal literal denotes. *)
Definition lit (x : Q) : float := of_Q x.

(** The rationals that are doubles. *)
Definition is_double (x : Q) : Prop := (rne x == x)%Q ∧ (Qabs x < 2 ^ 1024)%Q.

End B64.

(** ** genai.py *)

Module Genai.
Import Py B64.

(** [scale_confidence(conf)] for a float [conf]. *)
Definition scale_confidence (conf : float) : result Z :=
  let actual := mul conf (Finite 100) in
  scaled ←
    (if leb actual (Finite 40) then Ok actual
     else if ltb (Finite 40) actual && leb actual (Finite 55) then
       ratio ← div (mul (sub actual (Finite 40)) (Finite (90 - 40)))
                   (Finite (55 - 40));
       Ok (add (Finite 40) ratio)
     else if ltb (Finite 55) actual && leb actual (Finite 60) then
       ratio ← div (mul (sub actual (Finite 55)) (Finite (95 - 90)))
                   (Finite (60 - 55));
       Ok (add (Finite 90) ratio)
     else Ok (Finite 98));
  round_int scaled.

(** What the text-generation collaborator did inside the [try] block of
    [summarize_with_gemini]: either one of [start_chat], [send_message],
    [resp.text] raised (with [str(e) = msg]), or a text came back and
    [safe_json_loads] turned it into [parsed] ([VNone] when the text is not
    JSON).  The prompt built from the predictions only reaches the
    collaborator, so the reply is an input of the model. *)
Inductive gemini_reply :=
  | ReplyRaised (msg : string)
  | ReplyText (parsed : value).

(** One round of the inner loop of [summarize_with_gemini]: the f-string
    needs [p['class']] and a number to format; [highest_conf] is updated. *)
Definition scan_pred (highest_conf : Q) (p : gmap string value) : result Q :=
  let conf := get p "confidence" (VInt 0) in
  match p !! "class" with
  | None => Raise (Exn KeyError "'class'")
  | Some _ =>
      match as_num conf with
      | None =>
          match conf with
          | VStr _ =>
              Raise (Exn ValueError "Unknown format code 'f' for object of type 'str'")
          | _ => Raise (Exn TypeError "unsupported format string")
          end
      | Some c => Ok (if Qltb highest_conf c then c else highest_conf)
      end
  end.

Fixpoint scan_preds (highest_conf : Q) (preds : list (gmap string value))
  : result Q :=
  match preds with
  | [] => Ok highest_conf
  | p :: preds' => h ← scan_pred highest_conf p; scan_preds h preds'
  end.

(** The outer loop over [predictions.items()]. *)
Fixpoint scan_frames (highest_conf : Q)
    (items : list (string * list (gmap string value))) : result Q :=
  match items with
  | [] => Ok highest_conf
  | (frame, preds) :: items' =>
      h ← scan_preds highest_conf preds; scan_frames h items'
  end.

(** The body of the [try] block.  [highest_conf] is a float or an integer;
    it is never below 0, and from 0 on the integer arithmetic of
    [scale_confidence] gives what its float arithmetic gives. *)
Definition try_summarize (highest_conf : Q) (reply : gemini_reply)
  : result (gmap string value) :=
  match reply with
  | ReplyRaised msg => Raise (Exn CollaboratorError msg)
  | ReplyText summary =>
      if negb (truthy summary) then
        Raise (Exn ValueError "Gemini returned invalid JSON")
      else
        confidence ← scale_confidence (Finite highest_conf);
        setitem_str summary "confidence" (VInt confidence)
  end.

(** The dictionary returned by the [except] block, [confidence] being what
    [scale_confidence(highest_conf)] returned. *)
Definition fallback_summary (confidence : Z) (e : exn) : gmap string value :=
  {[ "riskLevel" := VStr "Unknown";
     "confidence" := VInt confidence;
     "rockSize" := VStr "Unknown";
     "trajectory" := VStr "Unknown";
     "recommendations" := VList [VStr ("❌ Gemini failed: " +:+ exn_str e)] ]}.

(** [summarize_with_gemini(predictions)] *)
Definition summarize_with_gemini
    (predictions : list (string * list (gmap string value)))
    (reply : gemini_reply) : result (gmap string value) :=
  highest_conf ← scan_frames 0%Q predictions;
  match try_summarize highest_conf reply with
  | Ok summary => Ok summary
  | Raise e =>
      confidence ← scale_confidence (Finite highest_conf);
      Ok (fallback_summary confidence e)
  end.

(** [conclusion_analysis(analysis)], block by block.

    "Adjust riskLevel based on confidence" *)
Definition adjust_risk (conf : Q) : string :=
  if Qleb conf 40 then "Low"
  else if Qleb conf 60 then "Medium"
  else if Qleb conf 75 then "High"
  else "Very High".

(** "Adjust trajectory if missing" *)
Definition adjust_trajectory (conf : Q) (trajectory : value) : value :=
  if eq_str trajectory "Unknown" then
    if Qltb 70 conf then VStr "Unstable"
    else if Qltb 50 conf then VStr "Moderate"
    else VStr "Stable"
  else trajectory.

(** "Adjust rockSize if missing" *)
Definition adjust_rock_size (conf : Q) (rock_size : value) : value :=
  if eq_str rock_size "Unknown" then
    if Qltb 75 conf then VStr "Large"
    else if Qltb 50 conf then VStr "Medium"
    else VStr "Small"
  else rock_size.

(** "Adjust recommendations based on riskLevel", then "Remove duplicates" *)
Definition adjust_recommendations (risk : string) (rock_size trajectory : value)
  : list string :=
  let recommendations :=
    if in_strs (VStr risk) ["Low"; "Medium"] then
      (["Continue monitoring"] ++
       (if in_strs rock_size ["Medium"; "Large"]
        then ["Schedule inspection"] else []))
    else if in_strs (VStr risk) ["High"; "Very High"] then
      (["Immediate inspection"; "Evacuate personnel if necessary"] ++
       (if eq_str trajectory "Unstable"
        then ["Reinforce support structures"] else []))
    else [] in
  list_fromkeys recommendations.

Definition conclusion_analysis (analysis : gmap string value)
  : result (gmap string value) :=
  let conf := get analysis "confidence" (VInt 0) in
  let rock_size := get analysis "rockSize" (VStr "Unknown") in
  let trajectory := get analysis "trajectory" (VStr "Unknown") in
  match as_num conf with
  | None => Raise (Exn TypeError "'<=' not supported between these instances")
  | Some c =>
      let risk := adjust_risk c in
      let trajectory := adjust_trajectory c trajectory in
      let rock_size := adjust_rock_size c rock_size in
      let recommendations := adjust_recommendations risk rock_size trajectory in
      Ok {[ "riskLevel" := VStr risk;
            "confidence" := conf;
            "trajectory" := trajectory;
            "rockSize" := rock_size;
            "recommendations" := VList (VStr <$> recommendations) ]}
  end.

(** The seed [analysis] dictionary that [process_video_and_summarize]
    builds from the summary. *)
Definition seed_analysis (summary : gmap string value) : gmap string value :=
  {[ "riskLevel" := get summary "riskLevel" (VStr "Unknown");
     "confidence" := get summary "confidence" (VInt 0);
     "trajectory" := get summary "trajectory" (VStr "Unknown");
     "rockSize" := get summary "rockSize" (VStr "Unknown");
     "recommendations" :=
       get summary "recommendations"
         (VList [VStr "Continue monitoring"; VStr "Schedule inspection"]) ]}.

(** [process_video_and_summarize(video_file)].  [process_video_file] lives in
    [Inside_cave/model/inside_cave.py]; what it returned or raised is the
    argument [video]. *)
Definition process_video_and_summarize
    (video : result (list (string * list (gmap string value))))
    (reply : gemini_reply) : result (gmap string value) :=
  match video with
  | Raise e =>
      Ok {[ "success" := VBool false;
            "error" := VStr ("❌ Video processing failed: " +:+ exn_str e) ]}
  | Ok all_predictions =>
      summary ← summarize_with_gemini all_predictions reply;
      final_analysis ← conclusion_analysis (seed_analysis summary);
      Ok {[ "success" := VBool true; "analysis" := VDict final_analysis ]}
  end.

(** The calibration table as the specification words it, on the percentage
    [actual = raw * 100]. *)
Definition normalize_table (actual : Q) : Q :=
  if Qleb actual 40 then actual
  else if Qleb actual 55 then (40 + (actual - 40) * 50 / 15)%Q
  else if Qleb actual 60 then (90 + (actual - 55))%Q
  else 98%Q.

(** The risk tiers of the specification and the label the code gives each. *)
Inductive RiskLevel := Low | Medium | High | VeryHigh.

Definition risk_label (r : RiskLevel) : string :=
  match r with
  | Low => "Low"
  | Medium => "Medium"
  | High => "High"
  | VeryHigh => "Very High"
  end.

(** The risk table as the specification words it. *)
Definition risk_table (c : Z) : RiskLevel :=
  if c <=? 40 then Low
  else if c <=? 60 then Medium
  else if c <=? 75 then High
  else VeryHigh.

(** The numbers that [p.get("confidence", 0)] yields over all detections of
    all frames, in the order in which [summarize_with_gemini] visits them. *)
Definition pred_confidences (preds : list (gmap string value)) : list Q :=
  omap (λ p, as_num (get p "confidence" (VInt 0))) preds.

Definition raw_confidences
    (predictions : list (string * list (gmap string value))) : list Q :=
  concat ((λ item, pred_confidences item.2) <$> predictions).

(** [h] is the highest raw confidence among [confs], and 0 when there is
    none. *)
Definition is_highest (h : Q) (confs : list Q) : Prop :=
  match confs with
  | [] => (h == 0)%Q
  | _ => Exists (λ c, (c == h)%Q) confs ∧ Forall (λ c, (c <= h)%Q) confs
  end.

(** A detection as the data model has it: a class and a confidence that is
    a number in [0,1]. *)
Definition detection (p : gmap string value) : Prop :=
  is_Some (p !! "class") ∧
  ∃ c, as_num (get p "confidence" (VInt 0)) = Some c ∧ (0 <= c)%Q ∧ (c <= 1)%Q.

(** Sample inputs: one detection of confidence 0.80 on [frame_3], an
    advisory reply that claims its own confidence, a reply that is not
    JSON. *)
Definition sample_predictions : list (string * list (gmap string value)) :=
  [("frame_3", [{[ "class" := VStr "rock"; "confidence" := VFloat (8 # 10) ]}])].

Definition sample_reply : gemini_reply :=
  ReplyText (VDict {[ "riskLevel" := VStr "Low"; "confidence" := VInt 3;
                      "rockSize" := VStr "Small" ]}).

Definition invalid_json : exn := Exn ValueError "Gemini returned invalid JSON".

End Genai.

(** ** The same arithmetic on [SpecFloat]

    [scale_confidence] once more, on the binary64 operations of the
    standard library's specification of floating-point numbers, to compare
    [B64] against on samples. *)

Module Binary64.
Import Py.

Definition double := spec_float.

(** An integer operand, converted exactly. *)
Definition of_int (z : Z) : double := binary_normalize 53 1024 z 0 false.

(** The decimal literal [n / 100] with [0 <= n]: the nearest double. *)
Definition percent (n : Z) : double := SFdiv 53 1024 (of_int n) (of_int 100).

Definition mul : double → double → double := SFmul 53 1024.
Definition add : double → double → double := SFadd 53 1024.
Definition sub : double → double → double := SFsub 53 1024.
Definition div : double → double → double := SFdiv 53 1024.
Definition leb : double → double → bool := SFleb.
Definition ltb : double → double → bool := SFltb.

(** The exact value of a finite double. *)
Definition to_Q (x : double) : option Q :=
  match x with
  | S754_zero _ => Some 0%Q
  | S754_finite s m e =>
      let n := if s then Z.neg m else Z.pos m in
      match e with
      | Z.neg p => Some (Qmake n (2 ^ p))
      | _ => Some (inject_Z (n * 2 ^ e))
      end
  | _ => None
  end.

(** [int(round(x))]; [None] where [round] raises (infinities, NaN). *)
Definition round_double (x : double) : option Z := round <$> to_Q x.

Definition scale_confidence_double (conf : double) : option Z :=
  let actual := mul conf (of_int 100) in
  let scaled :=
    if leb actual (of_int 40) then actual
    else if ltb (of_int 40) actual && leb actual (of_int 55) then
      add (of_int 40)
          (div (mul (sub actual (of_int 40)) (of_int (90 - 40)))
               (of_int (55 - 40)))
    else if ltb (of_int 55) actual && leb actual (of_int 60) then
      add (of_int 90)
          (div (mul (sub actual (of_int 55)) (of_int (95 - 90)))
               (of_int (60 - 55)))
    else of_int 98 in
  round_double scaled.

(** The float of [B64] that a double is. *)
Definition to_float (x : double) : B64.float :=
  match x with
  | S754_infinity s => B64.Infinite s
  | S754_nan => B64.NaN
  | _ => B64.Finite (default 0%Q (to_Q x))
  end.

Definition same_float (a b : B64.float) : bool :=
  match a, b with
  | B64.Finite x, B64.Finite y => Qeq_bool x y
  | B64.Infinite s, B64.Infinite t => Bool.eqb s t
  | B64.NaN, B64.NaN => true
  | _, _ => false
  end.

(** Whether the two renderings of the arithmetic agree on [x] and [y]. *)
Definition same_arithmetic (x y : double) : bool :=
  same_float (to_float (mul x y)) (B64.mul (to_float x) (to_float y)) &&
  same_float (to_float (add x y)) (B64.add (to_float x) (to_float y)) &&
  same_float (to_float (sub x y)) (B64.sub (to_float x) (to_float y)) &&
  match B64.div (to_float x) (to_float y) with
  | Ok q => same_float (to_float (div x y)) q
  | Raise _ => match y with S754_zero _ => true | _ => false end
  end &&
  Bool.eqb (leb x y) (B64.leb (to_float x) (to_float y)) &&
  Bool.eqb (ltb x y) (B64.ltb (to_float x) (to_float y)).

(** Whether the two renderings of [scale_confidence] agree on [x]. *)
Definition same_scale (x : double) : bool :=
  match scale_confidence_double x, Genai.scale_confidence (to_float x) with
  | Some z, Ok c => z =? c
  | None, Raise _ => true
  | _, _ => false
  end.

(** Sample doubles: zero, one and its two neighbours, small and large
    numbers of either sign, the largest double, the smallest normal and
    subnormal numbers, decimal fractions, the infinities and a NaN. *)
Definition samples : list double :=
  [S754_zero false; of_int 1; S754_finite false 4503599627370497 (-52);
   S754_finite false 9007199254740991 (-53); of_int 3; of_int (-7);
   of_int 100; percent 1; percent 15; percent 30; percent 45; percent 58;
   percent 60; percent 116; percent 2997;
   S754_finite true 7232781001557017 (-54);
   S754_finite false 9007199254740991 971;
   S754_finite true 9007199254740991 971;
   S754_finite false 4503599627370496 (-1074);
   S754_finite false 4503599627370495 (-1074);
   S754_finite false 1 (-1074); S754_finite true 3 (-1074);
   S754_finite false 4503599627370496 500;
   S754_finite true 6004799503160661 (-600);
   S754_infinity false; S754_infinity true; S754_nan].

End Binary64.

(** ** outer_surface.py *)

Module OuterSurface.
Import Py.

(** The video behind [cv2.VideoCapture(video_path)]: whether it opened, the
    rate that [cap.get(cv2.CAP_PROP_FPS)] reports (a finite float, 0 when
    the container does not tell), and the frames that successive
    [cap.read()] calls decode. *)
Record Video (Frame : Type) :=
  { opened : bool; fps : Q; frames : list Frame }.
Arguments opened {Frame} _.
Arguments fps {Frame} _.
Arguments frames {Frame} _.

Section process_video.
Context {Frame : Type}.

(** [client.run_workflow(...)] on the image written for frame [frame_id]:
    the collaborator's answer, or the exception the call raised.  The
    temporary image file that [process_frame] writes before the call and
    removes in its [finally] block is not part of the model. *)
Variable run_workflow : nat → Frame → result value.
Variable conf_threshold : Q.
Variable interval_sec : Q.

(** The filtering loop of [process_frame]. *)
Fixpoint clean_loop (preds : list value)
    (cleaned_predictions : list (gmap string value))
  : result (list (gmap string value)) :=
  match preds with
  | [] => Ok cleaned_predictions
  | pred :: preds' =>
      d ← as_dict pred;
      match as_num (get d "confidence" (VInt 0)) with
      | None =>
          Raise (Exn TypeError "'>=' not supported between these instances")
      | Some c =>
          if Qleb conf_threshold c then
            clean_loop preds' (cleaned_predictions ++ [delete "points" d])
          else clean_loop preds' cleaned_predictions
      end
  end.

(** [process_frame(frame_id, frame)]: there is no [except] clause, so
    whatever the call or the decoding of its answer raises leaves the
    function. *)
Definition process_frame (frame_id : nat) (frame : Frame)
  : result (nat * list (gmap string value)) :=
  result ← run_workflow frame_id frame;
  first ← getitem_int result 0;
  model_predictions ← getitem_str first "model_predictions";
  predictions ← getitem_str model_predictions "predictions";
  preds ← iter predictions;
  cleaned_predictions ← clean_loop preds [];
  Ok (frame_id, cleaned_predictions).

(** The [while True] loop: [rest] holds the frames that [cap.read()] has yet
    to return; the loop ends when it is empty.  [submit] stands for
    [executor.submit(process_frame, _, _)]. *)
Fixpoint read_loop {T} (submit : nat → Frame → T) (frame_interval : Z)
    (rest : list Frame) (frame_count : Z) (saved_frame_count : nat)
    (futures : list T) : result (list T) :=
  match rest with
  | [] => Ok futures
  | frame :: rest' =>
      m ← mod_ frame_count frame_interval;
      if m =? 0 then
        read_loop submit frame_interval rest' (frame_count + 1)
          (S saved_frame_count)
          (futures ++ [submit saved_frame_count frame])
      else
        read_loop submit frame_interval rest' (frame_count + 1)
          saved_frame_count futures
  end.

(** [f"frame_{frame_id}"] *)
Definition frame_key (frame_id : nat) : string := "frame_" +:+ pretty frame_id.

(** [as_completed(futures)] hands out every future once; [order] lists
    their positions in [futures] in the order in which they are handed out.
    That order is any order: the futures that have finished when the
    collecting loop starts come first, in the iteration order of a set, and
    the others follow as they finish. *)
Definition as_completed {T} (order : list nat) (futures : list T) : list T :=
  omap (λ i, futures !! i) order.

(** The collecting loop: [future.result()] returns the task's value or
    raises the exception the task ended with. *)
Fixpoint collect (completed : list (result (nat * list (gmap string value))))
    (all_predictions : list (string * list (gmap string value)))
  : result (list (string * list (gmap string value))) :=
  match completed with
  | [] => Ok all_predictions
  | future :: completed' =>
      '(frame_id, predictions) ← future;
      collect completed' (dict_set all_predictions (frame_key frame_id) predictions)
  end.

(** [frame_interval = int(fps * interval_sec)]: the product is a float,
    and [int] raises when it has overflowed. *)
Definition frame_interval (video : Video Frame) : result Z :=
  B64.int_of (B64.mul (B64.Finite (fps video)) (B64.Finite interval_sec)).

(** [process_video(...)].  A future is represented by the outcome of its
    task; writing [output_path] and the progress prints are left out. *)
Definition process_video (video : Video Frame) (order : list nat)
  : result (list (string * list (gmap string value))) :=
  if negb (opened video) then
    Raise (Exn RuntimeError "❌ Error: Cannot open video")
  else
    stride ← frame_interval video;
    futures ← read_loop process_frame stride (frames video) 0 0%nat [];
    collect (as_completed order futures) [].

(** The frames handed to the pool, in submission order: the stride and the
    reading loop, with the submission itself left out. *)
Definition sample_frames (video : Video Frame) : result (list Frame) :=
  stride ← frame_interval video;
  read_loop (λ _ frame, frame) stride (frames video) 0 0%nat [].

End process_video.

(** The entry that the result of a task leaves in [all_predictions]. *)
Definition entry (r : nat * list (gmap string value))
  : string * list (gmap string value) :=
  (frame_key r.1, r.2).

(** The stride as the specification words it. *)
Definition stride_spec (frameRate intervalSeconds : Q) : Z :=
  round (frameRate * intervalSeconds).

(** Sample inputs.  Frames are told apart by a number.  A gateway that
    finds nothing, and one whose call fails on the frame with index [bad]. *)
Definition no_detections (frame_id frame : nat) : result value :=
  Ok (VList [VDict {[ "model_predictions" :=
                        VDict {[ "predictions" := VList [] ]} ]}]).

Definition fails_on (bad frame_id frame : nat) : result value :=
  if (frame_id =? bad)%nat then
    Raise (Exn CollaboratorError "connection timed out")
  else no_detections frame_id frame.

(** Four decoded frames at 1 frame per second. *)
Definition four_frames : Video nat :=
  {| opened := true; fps := 1; frames := [10; 11; 12; 13]%nat |}.

(** A container that reports no frame rate. *)
Definition no_frame_rate : Video nat :=
  {| opened := true; fps := 0; frames := [10; 11; 12; 13]%nat |}.

(** 120 decoded frames at the NTSC rate of 29.97 frames per second, the
    rate being the double nearest to 29.97. *)
Definition ntsc : Video nat :=
  {| opened := true; fps := 1054475631502295 # 35184372088832;
     frames := seq 0 120 |}.

(** 100 decoded frames at 25 frames per second, and the doubles nearest to
    1.16 and to 0.12 as sampling intervals. *)
Definition pal : Video nat :=
  {| opened := true; fps := 25; frames := seq 0 100 |}.

Definition interval_116 : Q := 5224175567749775 # 4503599627370496.
Definition interval_012 : Q := 1080863910568919 # 9007199254740992.

End OuterSurface.

(** ** main.py *)

Module Main.
Import Py Genai.

(** [predict_video(file)]: the route has a handler of its own, which turns
    whatever [process_video_and_summarize] raises into the failure answer.
    What [process_video_file] did with the upload is the argument [video]. *)
Definition predict_video
    (video : result (list (string * list (gmap string value))))
    (reply : gemini_reply) : gmap string value :=
  match process_video_and_summarize video reply with
  | Ok predictions => predictions
  | Raise e =>
      {[ "success" := VBool false;
         "error" := VStr ("❌ Video processing failed: " +:+ exn_str e) ]}
  end.

End Main.

(** ** Tables read off the code, to state what it computes *)

Module Derived.
Import Py B64 Genai.

(** The confidence that the code reads from a prediction:
    [pred.get("confidence", 0)] as a number. *)
Definition confidence_of (pred : gmap string value) : option Q :=
  as_num (get pred "confidence" (VInt 0)).

(** A prediction that passes [pred.get("confidence", 0) >= conf_threshold]. *)
Definition passes (conf_threshold : Q) (pred : gmap string value) : Prop :=
  match confidence_of pred with
  | Some c => (conf_threshold <= c)%Q
  | None => False
  end.

#[global] Instance passes_dec conf_threshold pred :
  Decision (passes conf_threshold pred).
Proof.
  unfold passes. destruct (confidence_of pred) as [c |]; [| right; tauto].
  destruct (Qlt_le_dec c conf_threshold) as [Hlt | Hle];
    [right; by apply Qlt_not_le | by left].
Defined.

(** An analysis dictionary with string-valued hints. *)
Definition verdict (risk : string) (conf : Z) (trajectory rock_size : string)
    (recommendations : list string) : gmap string value :=
  {[ "riskLevel" := VStr risk;
     "confidence" := VInt conf;
     "trajectory" := VStr trajectory;
     "rockSize" := VStr rock_size;
     "recommendations" := VList (VStr <$> recommendations) ]}.

(** The verdict for an integer confidence when the seed gives no hint. *)
Definition default_verdict (c : Z) : gmap string value :=
  if c <=? 40 then
    verdict "Low" c "Stable" "Small" ["Continue monitoring"]
  else if c <=? 50 then
    verdict "Medium" c "Stable" "Small" ["Continue monitoring"]
  else if c <=? 60 then
    verdict "Medium" c "Moderate" "Medium"
      ["Continue monitoring"; "Schedule inspection"]
  else if c <=? 70 then
    verdict "High" c "Moderate" "Medium"
      ["Immediate inspection"; "Evacuate personnel if necessary"]
  else if c <=? 75 then
    verdict "High" c "Unstable" "Medium"
      ["Immediate inspection"; "Evacuate personnel if necessary";
       "Reinforce support structures"]
  else
    verdict "Very High" c "Unstable" "Large"
      ["Immediate inspection"; "Evacuate personnel if necessary";
       "Reinforce support structures"].

(** [scaled] in the second and in the third branch of [scale_confidence],
    for a finite [actual] and as long as no operation overflows. *)
Definition middle (actual : Q) : Q :=
  rne (40 + rne (rne (rne (actual - 40) * (90 - 40)) / (55 - 40))).

Definition upper (actual : Q) : Q :=
  rne (90 + rne (rne (rne (actual - 55) * (95 - 90)) / (60 - 55))).

(** [scaled] by the branch that a finite [actual] takes. *)
Definition scaled_of (actual : Q) : Q :=
  if Qleb actual 40 then actual
  else if Qleb actual 55 then middle actual
  else if Qleb actual 60 then upper actual
  else 98%Q.

(** How far the float arithmetic of [scale_confidence] can take [scaled]
    from the table value: [2 ^ -40]. *)
Definition table_slack : Q := 1 # 1099511627776.

(** A float as the interpreter has it: a finite one is a double. *)
Definition is_float (conf : float) : Prop :=
  match conf with
  | Finite q => is_double q
  | _ => True
  end.

(** [not (conf <= 0.6)] on the exact value: above 0.6, or a NaN. *)
Definition above_60 (conf : float) : Prop :=
  match conf with
  | Finite q => (6 # 10 < q)%Q
  | Infinite negative => negative = false
  | NaN => True
  end.

(** The double nearest to 0.015. *)
Definition near_tie_confidence : Q := rne (15 # 1000).

(** The largest doubles that [scale_confidence] sends to at most 40, 60 and
    75: 0.40149999999999997 (the double below the one nearest to 0.4015),
    0.46149999999999997 (the double below the one nearest to 0.4615) and
    the double nearest to 0.5065. *)
Definition low_max : Q := 7232781001557016 # 18014398509481984.
Definition medium_max : Q := 8313644912125935 # 18014398509481984.
Definition high_max : Q := 4562146422526312 # 9007199254740992.

(** The risk tier in terms of the raw confidence. *)
Definition risk_by_raw (raw : Q) : RiskLevel :=
  if Qleb raw low_max then Low
  else if Qleb raw medium_max then Medium
  else if Qleb raw high_max then High
  else VeryHigh.

(** The five keys of an analysis. *)
Definition analysis_keys : gset string :=
  {[ "riskLevel"; "confidence"; "trajectory"; "rockSize"; "recommendations" ]}.

(** Sample inputs: a detection with a contour, a gateway answer that holds
    the given predictions. *)
Definition rock_pred (conf : Q) : gmap string value :=
  {[ "class" := VStr "rock"; "confidence" := VFloat conf;
     "points" := VList [VInt 1; VInt 2] ]}.

Definition rock (conf : Q) : value := VDict (rock_pred conf).

Definition finds (preds : list value) (frame_id frame : nat) : result value :=
  Ok (VList [VDict {[ "model_predictions" :=
                        VDict {[ "predictions" := VList preds ]} ]}]).

End Derived.

(** ** Chatbot.py *)

From Stdlib Require Import Ascii.

Module Chatbot.
Import Py.

(** [l[start:]]: a negative [start] counts from the end, and both ends are
    clipped to the list. *)
Definition slice_from {A} (l : list A) (start : Z) : list A :=
  let n := Z.of_nat (length l) in
  let first := if start <? 0 then Z.max (start + n) 0 else Z.min start n in
  drop (Z.to_nat first) l.

(** [l[start:stop]] for [0 <= start <= stop]. *)
Definition slice {A} (l : list A) (start stop : nat) : list A :=
  take (stop - start) (drop start l).

Definition MAX_MESSAGES : Z := 10.

(** [trim_history(msgs, max_len)] *)
Definition trim_history {A} (msgs : list A) (max_len : Z) : result (list A) :=
  if Z.of_nat (length msgs) <=? max_len then Ok msgs
  else
    match msgs !! 0%nat with
    | Some first => Ok ([first] ++ slice_from msgs (- (max_len - 1)))
    | None => Raise (Exn IndexError "list index out of range")
    end.

Section extract_all_json.

(** [json.loads(candidate)], [None] where it raises. *)
Variable json_loads : list ascii → option value.

(** The loop of [extract_all_json] over the characters [rest] that follow
    position [i] of the text [s]. *)
Fixpoint extract_loop (s rest : list ascii) (i : nat) (start : option nat)
    (depth : Z) (results : list value) : list value :=
  match rest with
  | [] => results
  | ch :: rest' =>
      if Ascii.eqb ch "{"%char then
        let start := if depth =? 0 then Some i else start in
        extract_loop s rest' (S i) start (depth + 1) results
      else if Ascii.eqb ch "}"%char then
        let depth := depth - 1 in
        match start with
        | Some first =>
            if depth =? 0 then
              let candidate := slice s first (i + 1) in
              let results :=
                match json_loads candidate with
                | Some step => results ++ [step]
                | None => results
                end in
              extract_loop s rest' (S i) None depth results
            else extract_loop s rest' (S i) start depth results
        | None => extract_loop s rest' (S i) start depth results
        end
      else extract_loop s rest' (S i) start depth results
  end.

(** [extract_all_json(text)] *)
Definition extract_all_json (text : list ascii) : list value :=
  extract_loop text text 0 None 0 [].

(** The same loop with the text of the pending candidate in place of its
    start position, to reason about. *)
Fixpoint scan (rest : list ascii) (pending : option (list ascii)) (depth : Z)
  : list value :=
  match rest with
  | [] => []
  | ch :: rest' =>
      if Ascii.eqb ch "{"%char then
        scan rest'
          (if depth =? 0 then Some [ch] else (λ text, text ++ [ch]) <$> pending)
          (depth + 1)
      else if Ascii.eqb ch "}"%char then
        match pending with
        | Some text =>
            if depth - 1 =? 0 then
              option_list (json_loads (text ++ [ch])) ++ scan rest' None (depth - 1)
            else scan rest' (Some (text ++ [ch])) (depth - 1)
        | None => scan rest' None (depth - 1)
        end
      else scan rest' ((λ text, text ++ [ch]) <$> pending) depth
  end.

End extract_all_json.

(** A text without braces. *)
Definition brace_free (text : list ascii) : Prop :=
  Forall (λ ch, ch ≠ "{"%char ∧ ch ≠ "}"%char) text.

(** A text whose braces are balanced. *)
Inductive balanced : list ascii → Prop :=
  | balanced_nil : balanced []
  | balanced_char ch text :
      ch ≠ "{"%char → ch ≠ "}"%char → balanced text → balanced (ch :: text)
  | balanced_group body text :
      balanced body → balanced text →
      balanced ("{"%char :: body ++ "}"%char :: text).

(** One entry of the chat history,
    [{"role": role, "parts": [{"text": text}]}]. *)
Record message := Message { msg_role : string; msg_text : value }.

(** What the chat session answers to [chat.send_message(user_query)] and
    [resp.text.strip()]. *)
Inductive chat_reply :=
  | SendRaised (e : string)
  | TextRaised (e : exn)
  | SendText (raw : string).

Section process_user_query.

Variable json_loads : list ascii → option value.

(** [s.lower()] *)
Variable str_lower : string → string.

(** [(step.get("step") or "").lower()] *)
Definition step_type (step : value) : result string :=
  d ← as_dict step;
  let stype := get d "step" VNone in
  match (if truthy stype then stype else VStr "") with
  | VStr s => Ok (str_lower s)
  | _ => Raise (Exn AttributeError "object has no attribute 'lower'")
  end.

(** The loop over [steps], from the current [final_output]. *)
Fixpoint select_output (steps : list value) (final_output : value)
  : result value :=
  match steps with
  | [] => Ok final_output
  | step :: steps' =>
      stype ← step_type step;
      if bool_decide (stype = "output") then
        d ← as_dict step;
        let content := get d "content" VNone in
        select_output steps'
          (if truthy content then content else get d "output" VNone)
      else select_output steps' final_output
  end.

(** [process_user_query(user_query)] on the global [messages]: the history
    it leaves behind and what it returns.  The conversation log file is
    left out. *)
Definition process_user_query (messages : list message) (user_query : string)
    (answer : chat_reply) : list message * result value :=
  let appended := messages ++ [Message "user" (VStr user_query)] in
  match trim_history appended MAX_MESSAGES with
  | Raise e => (appended, Raise e)
  | Ok messages =>
      match answer with
      | SendRaised e =>
          (messages,
           Ok (VDict {[ "raw" := VStr "";
                        "steps" := VList [];
                        "final" := VStr ("❌ Gemini API error: " +:+ e) ]}))
      | TextRaised e => (messages, Raise e)
      | SendText raw =>
          let steps := extract_all_json json_loads (String.list_ascii_of_string raw) in
          match select_output steps VNone with
          | Raise e => (messages, Raise e)
          | Ok final_output =>
              let reply :=
                if truthy final_output then final_output else VStr raw in
              let appended := messages ++ [Message "model" reply] in
              match trim_history appended MAX_MESSAGES with
              | Raise e => (appended, Raise e)
              | Ok messages => (messages, Ok (VDict {[ "final" := reply ]}))
              end
          end
      end
  end.

(** The history after a run of queries, each with the chat session's
    answer to it. *)
Definition serve (messages : list message)
    (queries : list (string * chat_reply)) : list message :=
  foldl (λ messages query,
           (process_user_query messages query.1 query.2).1)
    messages queries.

End process_user_query.

(** The history the module starts with:
    [[{"role": "model", "parts": [{"text": system_prompt}]}]]. *)
Definition seed_messages (system_prompt : string) : list message :=
  [Message "model" (VStr system_prompt)].

(** A stand-in for [json.loads] that accepts every candidate and yields an
    object holding its text. *)
Definition loads_text (candidate : list ascii) : option value :=
  Some (VDict {[ "text" := VStr (String.string_of_list_ascii candidate) ]}).

(** A stand-in for [json.loads] whose objects carry a number as their
    step. *)
Definition loads_numbered (candidate : list ascii) : option value :=
  Some (VDict {[ "step" := VInt (Z.of_nat (length candidate)) ]}).

End Chatbot.

(** * Properties *)

(** ** Rationals, rounding *)

Module PyFacts.
Import Py.

Lemma Qleb_le x y : Qleb x y = true ↔ (x <= y)%Q.
Proof. apply Qle_bool_iff. Qed.

Lemma Qleb_gt x y : Qleb x y = false ↔ (y < x)%Q.
Proof.
  unfold Qleb. rewrite <- not_true_iff_false, Qle_bool_iff.
  split; [apply Qnot_le_lt | apply Qlt_not_le].
Qed.

Lemma Qltb_lt x y : Qltb x y = true ↔ (x < y)%Q.
Proof. unfold Qltb. rewrite negb_true_iff. apply Qleb_gt. Qed.

Lemma Qltb_ge x y : Qltb x y = false ↔ (y <= x)%Q.
Proof. unfold Qltb. rewrite negb_false_iff. apply Qleb_le. Qed.

(** Case analysis on a comparison, with the order fact in the context. *)
Ltac q_cases :=
  repeat match goal with
  | |- context [Qleb ?x ?y] =>
      let H := fresh "Hq" in
      destruct (Qleb x y) eqn:H;
      [apply Qleb_le in H | apply Qleb_gt in H]
  | |- context [Qltb ?x ?y] =>
      let H := fresh "Hq" in
      destruct (Qltb x y) eqn:H;
      [apply Qltb_lt in H | apply Qltb_ge in H]
  end.

(** Case analysis on a three-way comparison of rationals. *)
Ltac q_compare x y H :=
  destruct (x ?= y)%Q eqn:H;
  [apply Qeq_alt in H | apply Qlt_alt in H | apply Qgt_alt in H].

Lemma inject_Z_succ z : (inject_Z (z + 1) == inject_Z z + 1)%Q.
Proof. by rewrite inject_Z_plus. Qed.

Lemma floor_bounds x :
  (inject_Z (Qfloor x) <= x)%Q ∧ (x < inject_Z (Qfloor x) + 1)%Q.
Proof.
  split; [apply Qfloor_le |].
  pose proof (Qlt_floor x) as H. by rewrite inject_Z_succ in H.
Qed.

Lemma round_floor x : round x = Qfloor x ∨ round x = Qfloor x + 1.
Proof.
  unfold round. destruct (_ ?= _)%Q; [destruct (Z.even _) | |]; auto.
Qed.

(** [round] stays within one half of its argument. *)
Lemma round_near x :
  (x - (1 # 2) <= inject_Z (round x))%Q ∧ (inject_Z (round x) <= x + (1 # 2))%Q.
Proof.
  destruct (floor_bounds x) as [Hlo Hhi]. unfold round.
  q_compare (x - inject_Z (Qfloor x))%Q (1 # 2)%Q Hc.
  - destruct (Z.even _); rewrite ?inject_Z_succ; split; lra.
  - split; lra.
  - rewrite inject_Z_succ. split; lra.
Qed.

Lemma round_mono x y : (x <= y)%Q → round x <= round y.
Proof.
  intros Hxy. pose proof (Qfloor_resp_le _ _ Hxy) as Hf.
  destruct (Z.eq_dec (Qfloor x) (Qfloor y)) as [Heq | Hne].
  - unfold round. rewrite <- Heq.
    q_compare (x - inject_Z (Qfloor x))%Q (1 # 2)%Q Hx;
      q_compare (y - inject_Z (Qfloor x))%Q (1 # 2)%Q Hy;
      try destruct (Z.even _); try lia; exfalso; lra.
  - destruct (round_floor x), (round_floor y); lia.
Qed.

Lemma round_proper x y : (x == y)%Q → round x = round y.
Proof.
  intros H. apply Z.le_antisymm; apply round_mono; rewrite H; apply Qle_refl.
Qed.

Lemma round_inject_Z z : round (inject_Z z) = z.
Proof.
  unfold round. rewrite Qfloor_Z.
  q_compare (inject_Z z - inject_Z z)%Q (1 # 2)%Q Hc; try done; exfalso; lra.
Qed.

End PyFacts.

(** ** Binary64 rounding *)

Module B64Facts.
Import Py PyFacts B64.

Lemma pow2_pos k : (0 < 2 ^ k)%Q.
Proof. by apply Qpower_0_lt. Qed.

Lemma pow2_add a b : (2 ^ (a + b) == 2 ^ a * 2 ^ b)%Q.
Proof. by apply Qpower_plus. Qed.

Lemma pow2_le a b : a <= b → (2 ^ a <= 2 ^ b)%Q.
Proof. intros H. by apply Qpower_le_compat_l. Qed.

Lemma pow2_lt a b : a < b → (2 ^ a < 2 ^ b)%Q.
Proof. intros H. by apply Qpower_lt_compat_l. Qed.

Lemma pow2_lt_inv a b : (2 ^ a < 2 ^ b)%Q → a < b.
Proof. intros H. by apply (Qpower_lt_compat_l_inv 2). Qed.

Lemma pow2_Z n : 0 <= n → (2 ^ n == inject_Z (2 ^ n))%Q.
Proof. intros Hn. by rewrite Zpower_Qpower. Qed.

(** [ilog2] is the position of the leading bit. *)
Lemma ilog2_spec x :
  (0 < x)%Q → (2 ^ ilog2 x <= x)%Q ∧ (x < 2 ^ (ilog2 x + 1))%Q.
Proof.
  intros Hx. destruct x as [n d]. unfold ilog2. cbn [Qnum Qden].
  assert (0 < n) as Hn.
  { unfold Qlt in Hx. cbn in Hx. lia. }
  set (a := Z.log2 n). set (b := Z.log2 (Z.pos d)).
  destruct (Z.log2_spec n Hn) as [Ha1 Ha2]. fold a in Ha1, Ha2.
  destruct (Z.log2_spec (Z.pos d)) as [Hb1 Hb2]; [lia |]. fold b in Hb1, Hb2.
  assert (0 <= a) as Ha0 by apply Z.log2_nonneg.
  assert (0 <= b) as Hb0 by apply Z.log2_nonneg.
  assert (n # d == inject_Z n / inject_Z (Z.pos d))%Q as Hfrac
    by apply Qmake_Qdiv.
  assert (0 < inject_Z (Z.pos d))%Q as Hd.
  { change 0%Q with (inject_Z 0). by rewrite <- Zlt_Qlt. }
  assert (inject_Z (2 ^ a) <= inject_Z n)%Q as Qa1 by (by rewrite <- Zle_Qle).
  assert (inject_Z n < inject_Z (2 ^ Z.succ a))%Q as Qa2
    by (by rewrite <- Zlt_Qlt).
  assert (inject_Z (2 ^ b) <= inject_Z (Z.pos d))%Q as Qb1
    by (by rewrite <- Zle_Qle).
  assert (inject_Z (Z.pos d) < inject_Z (2 ^ Z.succ b))%Q as Qb2
    by (by rewrite <- Zlt_Qlt).
  rewrite <- pow2_Z in Qa1, Qa2, Qb1, Qb2 by lia.
  destruct (Qle_bool (2 ^ (a - b)) (n # d)) eqn:Hk.
  - apply Qle_bool_iff in Hk. split; [done |].
    rewrite Hfrac. apply Qlt_shift_div_r; [done |].
    eapply Qlt_le_trans; [exact Qa2 |].
    replace (Z.succ a) with ((a - b + 1) + b) by lia.
    rewrite pow2_add. apply Qmult_le_l; [apply pow2_pos | done].
  - apply not_true_iff_false in Hk. rewrite Qle_bool_iff in Hk.
    apply Qnot_le_lt in Hk.
    replace (a - b - 1 + 1) with (a - b) by lia. split; [| done].
    rewrite Hfrac. apply Qle_shift_div_l; [done |].
    eapply Qle_trans; [| exact Qa1].
    replace a with ((a - b - 1) + Z.succ b) at 2 by lia.
    rewrite pow2_add. apply Qmult_le_l; [apply pow2_pos |].
    by apply Qlt_le_weak.
Qed.

Lemma ilog2_unique x k :
  (2 ^ k <= x)%Q → (x < 2 ^ (k + 1))%Q → ilog2 x = k.
Proof.
  intros Hlo Hhi.
  assert (0 < x)%Q as Hx.
  { eapply Qlt_le_trans; [apply (pow2_pos k) | done]. }
  destruct (ilog2_spec x Hx) as [Hlo' Hhi'].
  assert (ilog2 x < k + 1).
  { apply pow2_lt_inv. eapply Qle_lt_trans; [exact Hlo' | exact Hhi]. }
  assert (k < ilog2 x + 1).
  { apply pow2_lt_inv. eapply Qle_lt_trans; [exact Hlo | exact Hhi']. }
  lia.
Qed.

Lemma ilog2_proper x y : (0 < x)%Q → (x == y)%Q → ilog2 x = ilog2 y.
Proof.
  intros Hx Hxy. symmetry. destruct (ilog2_spec x Hx) as [Hlo Hhi].
  apply ilog2_unique; by rewrite <- Hxy.
Qed.

Lemma ilog2_mono x y : (0 < x)%Q → (x <= y)%Q → ilog2 x <= ilog2 y.
Proof.
  intros Hx Hxy.
  destruct (ilog2_spec x Hx) as [Hlo _].
  destruct (ilog2_spec y) as [_ Hhi]; [lra |].
  assert (ilog2 x < ilog2 y + 1); [| lia].
  apply pow2_lt_inv. lra.
Qed.

Lemma Qabs_pos_lt x : ¬ (x == 0)%Q → (0 < Qabs x)%Q.
Proof.
  intros Hx. apply Qabs_case; intros H.
  - destruct (Qle_lt_or_eq _ _ H) as [|Heq]; [done |].
    destruct Hx. by symmetry.
  - destruct (Qle_lt_or_eq _ _ H) as [|Heq]; [lra | by destruct Hx].
Qed.

Lemma exponent_proper x y : (x == y)%Q → exponent x = exponent y.
Proof.
  intros Hxy. unfold exponent.
  destruct (Qeq_bool x 0) eqn:Hx.
  - apply Qeq_bool_iff in Hx.
    assert (Qeq_bool y 0 = true) as ->; [| done].
    apply Qeq_bool_iff. by rewrite <- Hxy.
  - assert (¬ (x == 0)%Q) as Hx'.
    { intros H. apply Qeq_bool_iff in H. congruence. }
    assert (Qeq_bool y 0 = false) as ->.
    { apply not_true_iff_false. rewrite Qeq_bool_iff. by rewrite <- Hxy. }
    f_equal. f_equal. apply ilog2_proper; [by apply Qabs_pos_lt |].
    by rewrite Hxy.
Qed.

Lemma exponent_min x : -1074 <= exponent x.
Proof. unfold exponent. destruct (Qeq_bool x 0); lia. Qed.

(** [x] has at most 53 bits above its last place ... *)
Lemma exponent_upper x : (Qabs x < 2 ^ (exponent x + 53))%Q.
Proof.
  unfold exponent. destruct (Qeq_bool x 0) eqn:Hx.
  - apply Qeq_bool_iff in Hx. rewrite Hx. apply pow2_pos.
  - assert (¬ (x == 0)%Q) as Hx'.
    { intros H. apply Qeq_bool_iff in H. congruence. }
    destruct (ilog2_spec (Qabs x)) as [_ Hhi]; [by apply Qabs_pos_lt |].
    eapply Qlt_le_trans; [exact Hhi |]. apply pow2_le. lia.
Qed.

(** ... and exactly 53 unless it is subnormal. *)
Lemma exponent_lower x :
  -1074 < exponent x → (2 ^ (exponent x + 52) <= Qabs x)%Q.
Proof.
  unfold exponent. destruct (Qeq_bool x 0) eqn:Hx; [lia |].
  assert (¬ (x == 0)%Q) as Hx'.
  { intros H. apply Qeq_bool_iff in H. congruence. }
  intros He.
  destruct (ilog2_spec (Qabs x)) as [Hlo _]; [by apply Qabs_pos_lt |].
  replace (Z.max (ilog2 (Qabs x) - 52) (-1074) + 52) with (ilog2 (Qabs x))
    by lia.
  done.
Qed.

Lemma exponent_binade x k :
  (2 ^ k <= Qabs x)%Q → (Qabs x < 2 ^ (k + 1))%Q →
  exponent x = Z.max (k - 52) (-1074).
Proof.
  intros Hlo Hhi. unfold exponent.
  destruct (Qeq_bool x 0) eqn:Hx.
  - apply Qeq_bool_iff in Hx. rewrite Hx in Hlo.
    pose proof (pow2_pos k). change (Qabs 0) with 0%Q in Hlo. lra.
  - by rewrite (ilog2_unique _ k).
Qed.

Lemma exponent_mono x y :
  (Qabs x <= Qabs y)%Q → exponent x <= exponent y.
Proof.
  intros Hxy. unfold exponent at 1.
  destruct (Qeq_bool x 0) eqn:Hx; [apply exponent_min |].
  assert (¬ (x == 0)%Q) as Hx'.
  { intros H. apply Qeq_bool_iff in H. congruence. }
  pose proof (Qabs_pos_lt x Hx') as Hpos.
  unfold exponent. destruct (Qeq_bool y 0) eqn:Hy.
  - apply Qeq_bool_iff in Hy. rewrite Hy in Hxy.
    change (Qabs 0) with 0%Q in Hxy. lra.
  - pose proof (ilog2_mono _ _ Hpos Hxy). lia.
Qed.

Lemma exponent_opp x : exponent (- x) = exponent x.
Proof.
  unfold exponent.
  assert (Qeq_bool (- x) 0 = Qeq_bool x 0) as ->.
  { destruct (Qeq_bool x 0) eqn:Hx.
    - apply Qeq_bool_iff in Hx. apply Qeq_bool_iff. rewrite Hx. reflexivity.
    - apply not_true_iff_false. rewrite Qeq_bool_iff. intros H.
      apply not_true_iff_false in Hx. apply Hx. apply Qeq_bool_iff. lra. }
  destruct (Qeq_bool x 0) eqn:Hx; [done |].
  f_equal. f_equal. apply ilog2_proper; [| apply Qabs_opp].
  apply Qabs_pos_lt. intros H.
  apply not_true_iff_false in Hx. apply Hx. apply Qeq_bool_iff. lra.
Qed.


(** Rounding to an integer is odd: [round(-x) = -round(x)]. *)
Lemma round_opp x : round (- x) = - round x.
Proof.
  destruct (floor_bounds x) as [Hf1 Hf2].
  destruct (floor_bounds (- x)) as [Hg1 Hg2].
  set (f := Qfloor x) in *. set (g := Qfloor (- x)) in *.
  assert (f <= - g) as H1.
  { rewrite Zle_Qle, inject_Z_opp. lra. }
  assert (- g < f + 2) as H2.
  { rewrite Zlt_Qlt, inject_Z_opp, inject_Z_plus.
    change (inject_Z 2) with 2%Q. lra. }
  unfold round. fold f g.
  destruct (Z.eq_dec (- g) f) as [Heq | Hne].
  - assert (inject_Z g == - inject_Z f)%Q as Hgf.
    { rewrite <- Heq, inject_Z_opp. lra. }
    q_compare (x - inject_Z f)%Q (1 # 2)%Q Hx;
      q_compare (- x - inject_Z g)%Q (1 # 2)%Q Hy;
      try (exfalso; lra); try lia.
  - assert (g = - f - 1) as Hg by lia.
    assert (inject_Z g == - inject_Z f - 1)%Q as Hgf.
    { rewrite Hg. replace (- f - 1) with (- (f + 1)) by lia.
      rewrite inject_Z_opp, inject_Z_plus. change (inject_Z 1) with 1%Q. lra. }
    assert (Z.even g = negb (Z.even f)) as Heven.
    { rewrite Hg. replace (- f - 1) with (- (f + 1)) by lia.
      rewrite Z.even_opp, Z.add_1_r, Z.even_succ, <- Z.negb_even. done. }
    q_compare (x - inject_Z f)%Q (1 # 2)%Q Hx;
      q_compare (- x - inject_Z g)%Q (1 # 2)%Q Hy;
      try (exfalso; lra); rewrite ?Heven; try destruct (Z.even f);
      cbn [negb]; lia.
Qed.

(** An integer within less than one half of [x] is [round x]. *)
Lemma round_unique x z :
  (inject_Z z - (1 # 2) < x)%Q → (x < inject_Z z + (1 # 2))%Q → round x = z.
Proof.
  intros Hlo Hhi. destruct (round_near x) as [Hr1 Hr2].
  assert (round x < z + 1).
  { rewrite Zlt_Qlt, inject_Z_plus. change (inject_Z 1) with 1%Q. lra. }
  assert (z < round x + 1).
  { rewrite Zlt_Qlt, inject_Z_plus. change (inject_Z 1) with 1%Q. lra. }
  lia.
Qed.

(** Rounding to a multiple of [2 ^ e]. *)
Lemma rne_eq x :
  (rne x == inject_Z (round (x / 2 ^ exponent x)) * 2 ^ exponent x)%Q.
Proof. unfold rne. apply Qred_correct. Qed.

Lemma rne_proper x y : (x == y)%Q → rne x = rne y.
Proof.
  intros Hxy. unfold rne. apply Qred_complete.
  rewrite (exponent_proper x y Hxy).
  by rewrite (round_proper (x / 2 ^ exponent y) (y / 2 ^ exponent y))
    by (by rewrite Hxy).
Qed.

Lemma rne_opp x : (rne (- x) == - rne x)%Q.
Proof.
  rewrite !rne_eq, exponent_opp.
  rewrite (round_proper (- x / 2 ^ exponent x) (- (x / 2 ^ exponent x))).
  - rewrite round_opp, inject_Z_opp. ring.
  - field. pose proof (pow2_pos (exponent x)). lra.
Qed.

Lemma scaled_le x y e : (x <= y)%Q → (x / 2 ^ e <= y / 2 ^ e)%Q.
Proof.
  intros Hxy. apply Qmult_le_compat_r; [done |].
  apply Qinv_le_0_compat, Qlt_le_weak, pow2_pos.
Qed.

Lemma rne_0 : rne 0 = 0%Q.
Proof. reflexivity. Qed.

Lemma rne_nonneg x : (0 <= x)%Q → (0 <= rne x)%Q.
Proof.
  intros Hx. rewrite rne_eq. apply Qmult_le_0_compat.
  - change 0%Q with (inject_Z 0). rewrite <- Zle_Qle.
    rewrite <- (round_inject_Z 0). apply round_mono.
    apply Qmult_le_0_compat; [done |].
    apply Qinv_le_0_compat, Qlt_le_weak, pow2_pos.
  - apply Qlt_le_weak, pow2_pos.
Qed.

(** Below a power of two that the last place divides, the rounded value
    stays below it; above it, above. *)
Lemma rne_le_pow2 x k :
  exponent x <= k → (x <= 2 ^ k)%Q → (rne x <= 2 ^ k)%Q.
Proof.
  intros He Hx. rewrite rne_eq. set (e := exponent x) in *.
  assert (2 ^ k == inject_Z (2 ^ (k - e)) * 2 ^ e)%Q as Hk.
  { rewrite <- pow2_Z by lia. rewrite <- pow2_add. by replace (k - e + e) with k by lia. }
  rewrite Hk. apply Qmult_le_compat_r; [| apply Qlt_le_weak, pow2_pos].
  rewrite <- Zle_Qle. rewrite <- (round_inject_Z (2 ^ (k - e))).
  apply round_mono. apply Qle_shift_div_r; [apply pow2_pos |]. by rewrite <- Hk.
Qed.

Lemma rne_ge_pow2 x k :
  exponent x <= k → (2 ^ k <= x)%Q → (2 ^ k <= rne x)%Q.
Proof.
  intros He Hx. rewrite rne_eq. set (e := exponent x) in *.
  assert (2 ^ k == inject_Z (2 ^ (k - e)) * 2 ^ e)%Q as Hk.
  { rewrite <- pow2_Z by lia. rewrite <- pow2_add. by replace (k - e + e) with k by lia. }
  rewrite Hk. apply Qmult_le_compat_r; [| apply Qlt_le_weak, pow2_pos].
  rewrite <- Zle_Qle. rewrite <- (round_inject_Z (2 ^ (k - e))) at 1.
  apply round_mono. apply Qle_shift_div_l; [apply pow2_pos |]. by rewrite <- Hk.
Qed.

Lemma rne_mono_nonneg x y : (0 <= x)%Q → (x <= y)%Q → (rne x <= rne y)%Q.
Proof.
  intros Hx Hxy.
  assert (exponent x <= exponent y) as He.
  { apply exponent_mono. rewrite !Qabs_pos by lra. done. }
  destruct (Z.eq_dec (exponent x) (exponent y)) as [Heq | Hne].
  - rewrite !rne_eq, Heq.
    apply Qmult_le_compat_r; [| apply Qlt_le_weak, pow2_pos].
    rewrite <- Zle_Qle. apply round_mono. by apply scaled_le.
  - pose proof (exponent_min x) as Hmin.
    pose proof (exponent_upper x) as Hup. rewrite Qabs_pos in Hup by done.
    pose proof (exponent_lower y) as Hlow. rewrite Qabs_pos in Hlow by lra.
    specialize (Hlow ltac:(lia)).
    apply (Qle_trans _ (2 ^ (exponent y + 52))).
    + apply rne_le_pow2; [lia |].
      apply Qlt_le_weak. eapply Qlt_le_trans; [exact Hup |].
      apply pow2_le. lia.
    + apply rne_ge_pow2; [lia | done].
Qed.

(** Rounding is monotonic. *)
Lemma rne_mono x y : (x <= y)%Q → (rne x <= rne y)%Q.
Proof.
  intros Hxy.
  destruct (Qlt_le_dec x 0) as [Hx | Hx]; [| by apply rne_mono_nonneg].
  destruct (Qlt_le_dec y 0) as [Hy | Hy].
  - assert (rne (- y) <= rne (- x))%Q as H
      by (apply rne_mono_nonneg; lra).
    rewrite !rne_opp in H. lra.
  - pose proof (rne_nonneg y Hy) as Hry.
    assert (0 <= rne (- x))%Q as H by (apply rne_nonneg; lra).
    rewrite rne_opp in H. lra.
Qed.

(** The rounded value is within half a last place of the exact one. *)
Lemma rne_near x :
  (x - 2 ^ exponent x * (1 # 2) <= rne x)%Q ∧
  (rne x <= x + 2 ^ exponent x * (1 # 2))%Q.
Proof.
  rewrite rne_eq. set (e := exponent x).
  pose proof (pow2_pos e) as He.
  destruct (round_near (x / 2 ^ e)) as [Hlo Hhi].
  assert (x == x / 2 ^ e * 2 ^ e)%Q as Hx by (field; lra).
  split.
  - rewrite Hx at 1.
    apply (Qmult_le_compat_r _ _ (2 ^ e)) in Hlo; [| lra]. lra.
  - rewrite Hx at 2.
    apply (Qmult_le_compat_r _ _ (2 ^ e)) in Hhi; [| lra]. lra.
Qed.

Lemma exponent_le x k :
  -1021 <= k → (Qabs x < 2 ^ k)%Q → exponent x <= k - 53.
Proof.
  intros Hk Hx. pose proof (exponent_min x).
  destruct (Z.eq_dec (exponent x) (-1074)) as [-> | Hne]; [lia |].
  pose proof (exponent_lower x ltac:(lia)) as Hlow.
  assert (exponent x + 52 < k); [| lia].
  apply pow2_lt_inv. lra.
Qed.

Lemma rne_near_below x k :
  -1021 <= k → (Qabs x < 2 ^ k)%Q →
  (x - 2 ^ (k - 54) <= rne x)%Q ∧ (rne x <= x + 2 ^ (k - 54))%Q.
Proof.
  intros Hk Hx. pose proof (exponent_le x k Hk Hx) as He.
  destruct (rne_near x) as [Hlo Hhi].
  assert (2 ^ exponent x * (1 # 2) <= 2 ^ (k - 54))%Q as Hulp.
  { replace (k - 54) with (k - 53 + -1) by lia. rewrite pow2_add.
    change (2 ^ (-1))%Q with (1 # 2)%Q.
    apply Qmult_le_compat_r; [by apply pow2_le | discriminate]. }
  split; lra.
Qed.

(** A multiple of the last place with at most 53 bits is a double. *)
Lemma rne_multiple x m :
  (x == inject_Z m * 2 ^ exponent x)%Q → (rne x == x)%Q.
Proof.
  intros Hx. rewrite rne_eq.
  rewrite (round_proper (x / 2 ^ exponent x) (inject_Z m)).
  - by rewrite round_inject_Z.
  - rewrite Hx at 1. field. pose proof (pow2_pos (exponent x)). lra.
Qed.

(** Integers of at most 53 bits are doubles. *)
Lemma rne_inject_Z n :
  Z.abs n <= 2 ^ 53 → (rne (inject_Z n) == inject_Z n)%Q.
Proof.
  intros Hn.
  destruct (Z.eq_dec (Z.abs n) (2 ^ 53)) as [Hmax | Hlt].
  - assert (∀ z : Z, z = 2 ^ 53 → (rne (inject_Z z) == inject_Z z)%Q) as Hpos.
    { intros z ->. vm_compute. reflexivity. }
    destruct (Z.abs_spec n) as [[_ Habs] | [_ Habs]].
    + apply Hpos. lia.
    + assert (inject_Z n == - inject_Z (- n))%Q as Hopp.
      { rewrite inject_Z_opp. ring. }
      rewrite (rne_proper _ _ Hopp), rne_opp, Hpos by lia. by rewrite Hopp.
  - assert (exponent (inject_Z n) <= 0) as He.
    { apply (exponent_le _ 53); [lia |].
      assert (Qabs (inject_Z n) == inject_Z (Z.abs n))%Q as ->.
      { unfold inject_Z. by rewrite Zabs_Qabs. }
      rewrite pow2_Z by lia. rewrite <- Zlt_Qlt. lia. }
    apply (rne_multiple _ (n * 2 ^ (- exponent (inject_Z n)))).
    rewrite inject_Z_mult, <- pow2_Z by lia.
    rewrite <- Qmult_assoc, <- pow2_add.
    replace (- exponent (inject_Z n) + exponent (inject_Z n)) with 0 by lia.
    change (2 ^ 0)%Q with 1%Q. ring.
Qed.

End B64Facts.

Module FloatFacts.
Import Py PyFacts B64 B64Facts Genai Derived.

Lemma rne_between x lo hi rlo rhi :
  rne lo = rlo → rne hi = rhi → (lo <= x)%Q → (x <= hi)%Q →
  (rlo <= rne x)%Q ∧ (rne x <= rhi)%Q.
Proof. intros <- <- Hlo Hhi. split; by apply rne_mono. Qed.

(** An exact result of moderate size gives a finite float. *)
Lemma of_Q_finite x :
  (- 2 ^ 1000 <= x)%Q → (x <= 2 ^ 1000)%Q → of_Q x = Finite (rne x).
Proof.
  intros Hlo Hhi.
  destruct (rne_between x (- 2 ^ 1000) (2 ^ 1000) (- 2 ^ 1000) (2 ^ 1000))
    as [Hrlo Hrhi]; [by vm_compute | by vm_compute | done | done |].
  unfold of_Q.
  assert (Qle_bool (2 ^ 1024) (Qabs (rne x)) = false) as ->; [| done].
  apply not_true_iff_false. rewrite Qle_bool_iff. intros Hbig.
  assert (Qabs (rne x) <= 2 ^ 1000)%Q as Hsmall.
  { apply Qabs_Qle_condition. split; done. }
  pose proof (pow2_lt 1000 1024 ltac:(lia)). lra.
Qed.


Lemma of_Q_small x : (- 1000 <= x)%Q → (x <= 1000)%Q → of_Q x = Finite (rne x).
Proof.
  intros Hlo Hhi.
  assert (1000 <= 2 ^ 1000)%Q by (by vm_compute).
  apply of_Q_finite; lra.
Qed.

Lemma table_middle_eq a :
  (40 + (a - 40) * 50 / 15 == 40 + (a - 40) * (10 # 3))%Q.
Proof. field. Qed.

Lemma div_15 x : (x / (55 - 40) == x * (1 # 15))%Q.
Proof. field. Qed.

Lemma div_5 x : (x / (60 - 55) == x * (1 # 5))%Q.
Proof. field. Qed.

(** The steps of the second branch, between their values at 40 and 55. *)
Lemma middle_steps a :
  (40 <= a)%Q → (a <= 55)%Q →
  let s1 := rne (a - 40) in
  let s2 := rne (s1 * (90 - 40)) in
  let s3 := rne (s2 / (55 - 40)) in
  ((0 <= s1)%Q ∧ (s1 <= 15)%Q) ∧ ((0 <= s2)%Q ∧ (s2 <= 750)%Q) ∧
  ((0 <= s3)%Q ∧ (s3 <= 50)%Q) ∧ ((40 <= middle a)%Q ∧ (middle a <= 90)%Q).
Proof.
  intros Hlo Hhi s1 s2 s3.
  assert ((0 <= s1)%Q ∧ (s1 <= 15)%Q) as H1.
  { apply (rne_between _ 0 15); [done | done | lra | lra]. }
  assert ((0 <= s2)%Q ∧ (s2 <= 750)%Q) as H2.
  { apply (rne_between _ 0 750); [done | done | lra | lra]. }
  assert ((0 <= s3)%Q ∧ (s3 <= 50)%Q) as H3.
  { apply (rne_between _ 0 50); [done | done | |]; rewrite div_15; lra. }
  split_and!; try tauto; unfold middle; fold s1 s2 s3;
    apply (rne_between (40 + s3) 40 90 40 90); try done; lra.
Qed.

Lemma upper_steps a :
  (55 <= a)%Q → (a <= 60)%Q →
  let s1 := rne (a - 55) in
  let s2 := rne (s1 * (95 - 90)) in
  let s3 := rne (s2 / (60 - 55)) in
  ((0 <= s1)%Q ∧ (s1 <= 5)%Q) ∧ ((0 <= s2)%Q ∧ (s2 <= 25)%Q) ∧
  ((0 <= s3)%Q ∧ (s3 <= 5)%Q) ∧ ((90 <= upper a)%Q ∧ (upper a <= 95)%Q).
Proof.
  intros Hlo Hhi s1 s2 s3.
  assert ((0 <= s1)%Q ∧ (s1 <= 5)%Q) as H1.
  { apply (rne_between _ 0 5); [done | done | lra | lra]. }
  assert ((0 <= s2)%Q ∧ (s2 <= 25)%Q) as H2.
  { apply (rne_between _ 0 25); [done | done | lra | lra]. }
  assert ((0 <= s3)%Q ∧ (s3 <= 5)%Q) as H3.
  { apply (rne_between _ 0 5); [done | done | |]; rewrite div_5; lra. }
  split_and!; try tauto; unfold upper; fold s1 s2 s3;
    apply (rne_between (90 + s3) 90 95 90 95); try done; lra.
Qed.

Lemma middle_mono a b : (a <= b)%Q → (middle a <= middle b)%Q.
Proof.
  intros Hab. unfold middle.
  assert (rne (a - 40) <= rne (b - 40))%Q as H1 by (apply rne_mono; lra).
  assert (rne (rne (a - 40) * (90 - 40)) <= rne (rne (b - 40) * (90 - 40)))%Q
    as H2 by (apply rne_mono; lra).
  assert (rne (rne (rne (a - 40) * (90 - 40)) / (55 - 40)) <=
          rne (rne (rne (b - 40) * (90 - 40)) / (55 - 40)))%Q as H3.
  { apply rne_mono. rewrite !div_15. lra. }
  apply rne_mono. lra.
Qed.

Lemma upper_mono a b : (a <= b)%Q → (upper a <= upper b)%Q.
Proof.
  intros Hab. unfold upper.
  assert (rne (a - 55) <= rne (b - 55))%Q as H1 by (apply rne_mono; lra).
  assert (rne (rne (a - 55) * (95 - 90)) <= rne (rne (b - 55) * (95 - 90)))%Q
    as H2 by (apply rne_mono; lra).
  assert (rne (rne (rne (a - 55) * (95 - 90)) / (60 - 55)) <=
          rne (rne (rne (b - 55) * (95 - 90)) / (60 - 55)))%Q as H3.
  { apply rne_mono. rewrite !div_5. lra. }
  apply rne_mono. lra.
Qed.

Lemma scaled_of_mono a b : (a <= b)%Q → (scaled_of a <= scaled_of b)%Q.
Proof.
  intros Hab. unfold scaled_of. q_cases; try lra.
  - destruct (middle_steps b) as (_ & _ & _ & H); lra.
  - destruct (upper_steps b) as (_ & _ & _ & H); lra.
  - by apply middle_mono.
  - destruct (middle_steps a) as (_ & _ & _ & H); [lra | lra |].
    destruct (upper_steps b) as (_ & _ & _ & H'); lra.
  - destruct (middle_steps a) as (_ & _ & _ & H); lra.
  - by apply upper_mono.
  - destruct (upper_steps a) as (_ & _ & _ & H); lra.
Qed.

Lemma scaled_of_range a :
  (0 <= a)%Q → (0 <= scaled_of a)%Q ∧ (scaled_of a <= 98)%Q.
Proof.
  intros Ha. unfold scaled_of. q_cases; try (split; lra).
  - destruct (middle_steps a) as (_ & _ & _ & H); lra.
  - destruct (upper_steps a) as (_ & _ & _ & H); lra.
Qed.

(** On a finite confidence whose percentage does not overflow downwards,
    [scale_confidence] returns, and what it rounds is [scaled_of]. *)
Lemma scale_confidence_finite q :
  (- 2 ^ 1024 < rne (q * 100))%Q →
  scale_confidence (Finite q) = Ok (round (scaled_of (rne (q * 100)))).
Proof.
  intros Hlow. unfold scale_confidence. cbn [mul]. unfold of_Q.
  set (a := rne (q * 100)) in *.
  destruct (Qle_bool (2 ^ 1024) (Qabs a)) eqn:Hbig.
  - apply Qle_bool_iff in Hbig.
    assert (2 ^ 1024 <= a)%Q as Ha.
    { revert Hbig. apply Qabs_case; intros; lra. }
    assert (60 < 2 ^ 1024)%Q by (by vm_compute).
    assert (Qltb a 0 = false) as -> by (apply Qltb_ge; lra).
    cbn. unfold scaled_of.
    rewrite (proj2 (Qleb_gt a 40)), (proj2 (Qleb_gt a 55)),
      (proj2 (Qleb_gt a 60)) by lra.
    done.
  - cbn [leb ltb]. unfold scaled_of.
    destruct (Qleb a 40) eqn:H40; [reflexivity |]. apply Qleb_gt in H40.
    rewrite (proj2 (Qltb_lt 40 a)) by done. cbn [andb].
    destruct (Qleb a 55) eqn:H55.
    { apply Qleb_le in H55.
      destruct (middle_steps a) as (H1 & H2 & H3 & H4); [lra | lra |].
      unfold sub. cbn [opp add]. rewrite (of_Q_small (a + Qopp 40)) by lra.
      change (a + Qopp 40)%Q with (a - 40)%Q.
      cbn [mul]. rewrite of_Q_small by lra.
      cbn [div]. change (is_zero (55 - 40)) with false. cbn match.
      rewrite of_Q_small by (rewrite div_15; lra).
      cbn [mbind result_bind add]. rewrite of_Q_small by lra.
      cbn [round_int]. unfold middle. reflexivity. }
    apply Qleb_gt in H55.
    rewrite (proj2 (Qltb_lt 55 a)) by done. cbn [andb].
    destruct (Qleb a 60) eqn:H60; [| reflexivity].
    apply Qleb_le in H60.
    destruct (upper_steps a) as (H1 & H2 & H3 & H4); [lra | lra |].
    unfold sub. cbn [opp add]. rewrite (of_Q_small (a + Qopp 55)) by lra.
    change (a + Qopp 55)%Q with (a - 55)%Q.
    cbn [mul]. rewrite of_Q_small by lra.
    cbn [div]. change (is_zero (60 - 55)) with false. cbn match.
    rewrite of_Q_small by (rewrite div_5; lra).
    cbn [mbind result_bind add]. rewrite of_Q_small by lra.
    cbn [round_int]. unfold upper. reflexivity.
Qed.


(** When the percentage overflows downwards, [round] raises. *)
Lemma scale_confidence_overflow q :
  (rne (q * 100) <= - 2 ^ 1024)%Q →
  scale_confidence (Finite q) =
    Raise (Exn OverflowError "cannot convert float infinity to integer").
Proof.
  intros Hlow. unfold scale_confidence. cbn [mul]. unfold of_Q.
  set (a := rne (q * 100)) in *.
  pose proof (pow2_pos 1024) as Hpos.
  assert (Qle_bool (2 ^ 1024) (Qabs a) = true) as ->.
  { apply Qle_bool_iff. rewrite Qabs_neg by lra. lra. }
  assert (Qltb a 0 = true) as -> by (apply Qltb_lt; lra).
  reflexivity.
Qed.

Lemma scale_confidence_returns q c :
  scale_confidence (Finite q) = Ok c →
  (- 2 ^ 1024 < rne (q * 100))%Q ∧ c = round (scaled_of (rne (q * 100))).
Proof.
  intros Hc.
  destruct (Qlt_le_dec (- 2 ^ 1024) (rne (q * 100))) as [Hlow | Hlow].
  - split; [done |]. rewrite scale_confidence_finite in Hc by done.
    by injection Hc.
  - by rewrite scale_confidence_overflow in Hc.
Qed.

Lemma percent_mono a b : (a <= b)%Q → (rne (a * 100) <= rne (b * 100))%Q.
Proof. intros Hab. apply rne_mono. lra. Qed.

(** [scale_confidence] is monotonic where it returns. *)
Lemma scale_confidence_mono a b ca cb :
  (a <= b)%Q →
  scale_confidence (Finite a) = Ok ca →
  scale_confidence (Finite b) = Ok cb →
  ca <= cb.
Proof.
  intros Hab Ha Hb.
  apply scale_confidence_returns in Ha as [_ ->].
  apply scale_confidence_returns in Hb as [_ ->].
  by apply round_mono, scaled_of_mono, percent_mono.
Qed.

Lemma scale_confidence_proper a b :
  (a == b)%Q → scale_confidence (Finite a) = scale_confidence (Finite b).
Proof.
  intros Hab.
  assert (rne (a * 100) = rne (b * 100)) as Heq
    by (apply rne_proper; by rewrite Hab).
  destruct (Qlt_le_dec (- 2 ^ 1024) (rne (a * 100))) as [Hlow | Hlow].
  - rewrite !scale_confidence_finite by (by rewrite <- ?Heq). by rewrite Heq.
  - rewrite !scale_confidence_overflow by (by rewrite <- ?Heq). done.
Qed.

(** From 0 on it always returns, a number between 0 and 98. *)
Lemma scale_confidence_nonneg q :
  (0 <= q)%Q →
  ∃ c, scale_confidence (Finite q) = Ok c ∧ 0 <= c <= 98.
Proof.
  intros Hq.
  assert (0 <= rne (q * 100))%Q as Ha by (apply rne_nonneg; lra).
  pose proof (pow2_pos 1024) as Hpos.
  eexists. split; [apply scale_confidence_finite; lra |].
  destruct (scaled_of_range _ Ha) as [Hlo Hhi].
  apply round_mono in Hlo, Hhi.
  change 0%Q with (inject_Z 0) in Hlo. change 98%Q with (inject_Z 98) in Hhi.
  rewrite round_inject_Z in Hlo, Hhi. lia.
Qed.

(** A double is a multiple of its last place. *)
Lemma double_multiple x :
  is_double x →
  (x == inject_Z (round (x / 2 ^ exponent x)) * 2 ^ exponent x)%Q.
Proof. intros [Hx _]. by rewrite <- rne_eq, Hx. Qed.

(** No double lies strictly between two neighbouring multiples of the last
    place. *)
Lemma double_cut x M :
  is_double x →
  (x <= inject_Z M * 2 ^ exponent x)%Q ∨
  (inject_Z (M + 1) * 2 ^ exponent x <= x)%Q.
Proof.
  intros Hx. pose proof (double_multiple x Hx) as Hm.
  set (m := round (x / 2 ^ exponent x)) in *.
  pose proof (pow2_pos (exponent x)) as Hpos.
  destruct (Z_le_gt_dec m M) as [Hle | Hgt].
  - left. rewrite Hm at 1. apply Qmult_le_compat_r; [| lra].
    by rewrite <- Zle_Qle.
  - right. rewrite Hm at 2. apply Qmult_le_compat_r; [| lra].
    rewrite <- Zle_Qle. lia.
Qed.

(** The same around a double [M * 2 ^ (k - 52)] of the binade
    [2 ^ k, 2 ^ (k + 1)). *)
Lemma double_cut_binade x M k :
  is_double x → -1022 <= k →
  (2 ^ k <= inject_Z M * 2 ^ (k - 52))%Q →
  (inject_Z (M + 1) * 2 ^ (k - 52) <= 2 ^ (k + 1))%Q →
  (x <= inject_Z M * 2 ^ (k - 52))%Q ∨
  (inject_Z (M + 1) * 2 ^ (k - 52) <= x)%Q.
Proof.
  intros Hx Hk Hlo Hhi.
  destruct (Qlt_le_dec x (2 ^ k)) as [Hsmall | Hge]; [left; lra |].
  destruct (Qlt_le_dec x (2 ^ (k + 1))) as [Hlt | Hbig]; [| right; lra].
  pose proof (pow2_pos k) as Hpos.
  assert (exponent x = k - 52) as He.
  { rewrite (exponent_binade x k) by (rewrite Qabs_pos; lra). lia. }
  rewrite <- He. by apply double_cut.
Qed.


(** Rounding numbers below 1000 moves them by at most [2 ^ -44]. *)
Lemma rne_small_err x :
  (- 1000 <= x)%Q → (x <= 1000)%Q →
  (x - (1 # 17592186044416) <= rne x)%Q ∧
  (rne x <= x + (1 # 17592186044416))%Q.
Proof.
  intros Hlo Hhi.
  destruct (rne_near_below x 10) as [H1 H2]; [lia | |].
  - apply Qabs_Qlt_condition. change (2 ^ 10)%Q with 1024%Q. split; lra.
  - change (2 ^ (10 - 54))%Q with (1 # 17592186044416)%Q in H1, H2. done.
Qed.

Lemma middle_near a :
  (40 <= a)%Q → (a <= 55)%Q →
  (40 + (a - 40) * (10 # 3) - (6 # 17592186044416) <= middle a)%Q ∧
  (middle a <= 40 + (a - 40) * (10 # 3) + (6 # 17592186044416))%Q.
Proof.
  intros Hlo Hhi.
  destruct (middle_steps a Hlo Hhi) as (H1 & H2 & H3 & _). cbn zeta in *.
  unfold middle.
  set (s1 := rne (a - 40)) in *.
  set (s2 := rne (s1 * (90 - 40))) in *.
  set (s3 := rne (s2 / (55 - 40))) in *.
  destruct (rne_small_err (a - 40)) as [E1 E1']; [lra | lra |].
  destruct (rne_small_err (s1 * (90 - 40))) as [E2 E2']; [lra | lra |].
  destruct (rne_small_err (s2 / (55 - 40))) as [E3 E3'];
    [rewrite div_15; lra | rewrite div_15; lra |].
  destruct (rne_small_err (40 + s3)) as [E4 E4']; [lra | lra |].
  fold s1 in E1, E1'. fold s2 in E2, E2'. fold s3 in E3, E3'.
  rewrite div_15 in E3, E3'.
  split; lra.
Qed.

Lemma upper_near a :
  (55 <= a)%Q → (a <= 60)%Q →
  (90 + (a - 55) - (4 # 17592186044416) <= upper a)%Q ∧
  (upper a <= 90 + (a - 55) + (4 # 17592186044416))%Q.
Proof.
  intros Hlo Hhi.
  destruct (upper_steps a Hlo Hhi) as (H1 & H2 & H3 & _). cbn zeta in *.
  unfold upper.
  set (s1 := rne (a - 55)) in *.
  set (s2 := rne (s1 * (95 - 90))) in *.
  set (s3 := rne (s2 / (60 - 55))) in *.
  destruct (rne_small_err (a - 55)) as [E1 E1']; [lra | lra |].
  destruct (rne_small_err (s1 * (95 - 90))) as [E2 E2']; [lra | lra |].
  destruct (rne_small_err (s2 / (60 - 55))) as [E3 E3'];
    [rewrite div_5; lra | rewrite div_5; lra |].
  destruct (rne_small_err (90 + s3)) as [E4 E4']; [lra | lra |].
  fold s1 in E1, E1'. fold s2 in E2, E2'. fold s3 in E3, E3'.
  rewrite div_5 in E3, E3'.
  split; lra.
Qed.

(** A double above 0.6 has a percentage above 60, a double up to 0.6 a
    percentage up to 60. *)
Lemma percent_cut_60 q :
  is_double q →
  ((q <= 6 # 10)%Q → (rne (q * 100) <= 60)%Q) ∧
  ((6 # 10 < q)%Q → (60 < rne (q * 100))%Q).
Proof.
  intros Hq.
  destruct (double_cut_binade q 5404319552844595 (-1) Hq) as [Hle | Hge];
    [lia | by vm_compute | by vm_compute | |].
  - assert (inject_Z 5404319552844595 * 2 ^ (-1 - 52) < 6 # 10)%Q as Hd
      by (by vm_compute).
    split; [intros _ | intros Hgt; lra].
    assert (rne (q * 100) <=
            rne (inject_Z 5404319552844595 * 2 ^ (-1 - 52) * 100))%Q as H
      by (apply rne_mono; lra).
    assert (rne (inject_Z 5404319552844595 * 2 ^ (-1 - 52) * 100) <= 60)%Q
      by (by vm_compute).
    lra.
  - assert (6 # 10 < inject_Z (5404319552844595 + 1) * 2 ^ (-1 - 52))%Q as Hd
      by (by vm_compute).
    split; [intros Hle; lra | intros _].
    assert (rne (inject_Z (5404319552844595 + 1) * 2 ^ (-1 - 52) * 100) <=
            rne (q * 100))%Q as H by (apply rne_mono; lra).
    assert (60 < rne (inject_Z (5404319552844595 + 1) * 2 ^ (-1 - 52) * 100))%Q
      by (by vm_compute).
    lra.
Qed.


(** Numbers that close enough to each other round to the same integer,
    unless they are about half way between two integers. *)
Lemma round_stable s t d :
  (0 <= d)%Q → (d < 1 # 2)%Q →
  (t - d <= s)%Q → (s <= t + d)%Q →
  (d < Qabs (t - (inject_Z (Qfloor t) + (1 # 2))))%Q →
  round s = round t.
Proof.
  intros Hd0 Hd Hlo Hhi Htie.
  destruct (floor_bounds t) as [Hf1 Hf2]. set (f := Qfloor t) in *.
  assert (t < inject_Z f + (1 # 2) - d ∨ inject_Z f + (1 # 2) + d < t)%Q
    as [Hlow | Hhigh].
  { revert Htie. apply Qabs_case; intros H Htie; [right | left]; lra. }
  - rewrite (round_unique t f), (round_unique s f); [done | lra ..].
  - rewrite (round_unique t (f + 1)), (round_unique s (f + 1));
      [done | rewrite inject_Z_succ; lra ..].
Qed.

(** What [scale_confidence] rounds is within [table_slack] of the table
    value. *)
Lemma scaled_of_table q :
  is_double q → (0 <= q)%Q → (q <= 1)%Q →
  let table := normalize_table (q * 100) in
  (table - table_slack <= scaled_of (rne (q * 100)))%Q ∧
  (scaled_of (rne (q * 100)) <= table + table_slack)%Q.
Proof.
  intros Hq Hq0 Hq1 table. unfold table, table_slack. clear table.
  destruct (percent_cut_60 q Hq) as [Hle60 Hgt60].
  assert (0 <= q * 100)%Q as Ht0 by lra.
  assert (q * 100 <= 100)%Q as Ht1 by lra.
  assert ((q * 100 <= 60 → q <= 6 # 10) ∧ (60 < q * 100 → 6 # 10 < q))%Q
    as [Hq60 Hq60'] by (split; intros; lra).
  set (t := (q * 100)%Q) in *. set (a := rne t) in *.
  destruct (rne_small_err t) as [Ea Ea']; [lra | lra |]. fold a in Ea, Ea'.
  assert (∀ c : Q, rne c = c → ((t <= c)%Q → (a <= c)%Q) ∧
                                 ((c <= t)%Q → (c <= a)%Q)) as Hcut.
  { intros c Hc. split; intros H; apply rne_mono in H; by rewrite Hc in H. }
  destruct (Hcut 40%Q eq_refl) as [H40 H40'].
  destruct (Hcut 55%Q eq_refl) as [H55 H55'].
  destruct (Hcut 60%Q eq_refl) as [H60 H60'].
  unfold scaled_of, normalize_table.
  destruct (Qlt_le_dec t 40) as [T40 | T40];
    [| destruct (Qlt_le_dec t 55) as [T55 | T55];
       [| destruct (Qlt_le_dec 60 t) as [T60 | T60]]].
  - specialize (H40 ltac:(lra)).
    rewrite (proj2 (Qleb_le a 40)), (proj2 (Qleb_le t 40)) by lra. split; lra.
  - specialize (H40' T40). specialize (H55 ltac:(lra)).
    destruct (middle_near a) as [M1 M2]; [lra | lra |].
    q_cases; rewrite ?table_middle_eq; split; lra.
  - specialize (Hgt60 (Hq60' T60)).
    rewrite (proj2 (Qleb_gt a 40)), (proj2 (Qleb_gt a 55)),
      (proj2 (Qleb_gt a 60)), (proj2 (Qleb_gt t 40)), (proj2 (Qleb_gt t 55)),
      (proj2 (Qleb_gt t 60)) by lra.
    split; lra.
  - specialize (H55' T55). specialize (H60 T60). clear Hle60 Hgt60 Hq60 Hq60'.
    destruct (middle_near 55) as [M1 M2]; [lra | lra |].
    destruct (upper_near a) as [U1 U2]; [lra | lra |].
    q_cases; rewrite ?table_middle_eq;
      try (assert (middle a <= middle 55)%Q by (apply middle_mono; lra);
           assert (middle 55 <= middle a)%Q by (apply middle_mono; lra));
      split; lra.
Qed.


Lemma scaled_of_le_95 a : (a <= 60)%Q → (scaled_of a <= 95)%Q.
Proof.
  intros Ha. unfold scaled_of. q_cases; try lra.
  - destruct (middle_steps a) as (_ & _ & _ & H); lra.
  - destruct (upper_steps a) as (_ & _ & _ & H); lra.
Qed.

Lemma round_le x z : (x <= inject_Z z)%Q → round x <= z.
Proof. intros H. apply round_mono in H. by rewrite round_inject_Z in H. Qed.

Lemma round_ge x z : (inject_Z z <= x)%Q → z <= round x.
Proof. intros H. apply round_mono in H. by rewrite round_inject_Z in H. Qed.

(** On an integer from 0 on, the float arithmetic gives what the integer
    arithmetic of the interpreter gives: 0 at 0, and 98 from 1 on. *)
Lemma scale_confidence_int z :
  0 <= z →
  scale_confidence (Finite (inject_Z z)) = Ok (if z =? 0 then 0 else 98).
Proof.
  intros Hz. destruct (Z.eqb_spec z 0) as [-> | Hne]; [reflexivity |].
  assert (100 <= rne (inject_Z z * 100))%Q as Ha.
  { change 100%Q with (rne 100) at 1. apply rne_mono.
    assert (1 <= inject_Z z)%Q; [| lra].
    change 1%Q with (inject_Z 1). rewrite <- Zle_Qle. lia. }
  pose proof (pow2_pos 1024).
  rewrite scale_confidence_finite by lra. unfold scaled_of.
  by rewrite (proj2 (Qleb_gt _ 40)), (proj2 (Qleb_gt _ 55)),
    (proj2 (Qleb_gt _ 60)) by lra.
Qed.

End FloatFacts.

(** ** [scale_confidence] *)

Module ScaleFacts.
Import Py PyFacts B64 B64Facts Genai Derived FloatFacts.

(** C3, as the code has it.  The arithmetic of [scale_confidence] is that
    of binary64 floats, so it follows the table of the specification
    ([actual = raw * 100]; [actual <= 40] gives [actual];
    [40 < actual <= 55] gives [40 + (actual - 40) * 50 / 15];
    [55 < actual <= 60] gives [90 + (actual - 55)]; above 60 gives 98) up to
    rounding errors: on every double in [0,1] it returns an integer in
    [0,100] within [1/2 + 2 ^ -40] of the table value, and this integer is
    the table value rounded unless the table value is within [2 ^ -40] of
    the middle between two integers.  It sends 0.30, 0.45, 0.58 and 0.70 to
    30, 57, 93 and 98, and it is monotonic non-decreasing. *)
Theorem scale_confidence_spec :
  (∀ raw : Q, is_double raw → (0 <= raw)%Q → (raw <= 1)%Q →
     ∃ c, scale_confidence (Finite raw) = Ok c ∧
          0 <= c <= 100 ∧
          let table := normalize_table (raw * 100) in
          (table - (1 # 2) - table_slack <= inject_Z c)%Q ∧
          (inject_Z c <= table + (1 # 2) + table_slack)%Q ∧
          ((table_slack <
              Qabs (table - (inject_Z (Qfloor table) + (1 # 2))))%Q →
           c = round table)) ∧
  scale_confidence (lit (30 # 100)) = Ok 30 ∧
  scale_confidence (lit (45 # 100)) = Ok 57 ∧
  scale_confidence (lit (58 # 100)) = Ok 93 ∧
  scale_confidence (lit (70 # 100)) = Ok 98 ∧
  (∀ a b ca cb, (a <= b)%Q →
     scale_confidence (Finite a) = Ok ca →
     scale_confidence (Finite b) = Ok cb →
     ca <= cb).
Proof.
  split; [| split_and!; [vm_compute; reflexivity .. |]].
  - intros raw Hraw Hlo Hhi.
    destruct (scale_confidence_nonneg raw Hlo) as (c & Hc & Hrange).
    exists c. split; [done |]. split; [lia |].
    apply scale_confidence_returns in Hc as [_ ->].
    destruct (scaled_of_table raw Hraw Hlo Hhi) as [Ht1 Ht2].
    cbn zeta in *. set (table := normalize_table (raw * 100)) in *.
    destruct (round_near (scaled_of (rne (raw * 100)))) as [Hr1 Hr2].
    split_and!; [lra | lra |].
    intros Htie. by apply (round_stable _ _ table_slack).
  - intros a b ca cb. apply scale_confidence_mono.
Qed.

(** The clauses at the double nearest to 0.45, and monotonicity between
    the doubles nearest to 0.30 and 0.45. *)
Lemma scale_confidence_spec_witness :
  (∃ c, scale_confidence (Finite (rne (45 # 100))) = Ok c ∧ 0 <= c <= 100 ∧
        c = round (normalize_table (rne (45 # 100) * 100))) ∧
  30 <= 57.
Proof.
  destruct scale_confidence_spec as (Htable & _ & _ & _ & _ & Hmono).
  split.
  - destruct (Htable (rne (45 # 100))) as (c & Hc & Hrange & _ & _ & Hround);
      [split; by vm_compute | by vm_compute | by vm_compute |].
    exists c. split; [exact Hc |]. split; [exact Hrange |].
    apply Hround. by vm_compute.
  - apply (Hmono (rne (30 # 100)) (rne (45 # 100)));
      [by vm_compute | vm_compute; reflexivity | vm_compute; reflexivity].
Defined.

(** C3 as stated fails: the double nearest to 0.015 has the table value
    1.4999999999999999..., which rounds to 1, but its percentage is
    computed as 1.5 and [scale_confidence] returns 2. *)
Lemma table_value_not_rounded :
  is_double near_tie_confidence ∧
  (0 <= near_tie_confidence)%Q ∧ (near_tie_confidence <= 1)%Q ∧
  (normalize_table (near_tie_confidence * 100) < 3 # 2)%Q ∧
  round (normalize_table (near_tie_confidence * 100)) = 1 ∧
  scale_confidence (Finite near_tie_confidence) = Ok 2.
Proof. split_and!; try split; by vm_compute. Qed.

(** On [SpecFloat]'s binary64 operations the code gives the same four
    sample values; the two renderings of the arithmetic agree on every pair
    of the sample doubles, and the two renderings of [scale_confidence] on
    every sample and on every two-decimal confidence 0.00, 0.01, ...,
    1.00. *)
Lemma scale_confidence_double_samples :
  Binary64.scale_confidence_double (Binary64.percent 30) = Some 30 ∧
  Binary64.scale_confidence_double (Binary64.percent 45) = Some 57 ∧
  Binary64.scale_confidence_double (Binary64.percent 58) = Some 93 ∧
  Binary64.scale_confidence_double (Binary64.percent 70) = Some 98 ∧
  forallb (λ x, forallb (Binary64.same_arithmetic x) Binary64.samples)
    Binary64.samples = true ∧
  forallb Binary64.same_scale Binary64.samples = true ∧
  forallb (λ n, Binary64.same_scale (Binary64.percent (Z.of_nat n)))
    (seq 0 101) = true.
Proof. split_and!; vm_compute; reflexivity. Qed.

End ScaleFacts.

(** ** [conclusion_analysis] *)

Module EngineFacts.
Import Py PyFacts Genai.

Lemma Qleb_inject_Z (c n : Z) : Qleb (inject_Z c) (inject_Z n) = (c <=? n).
Proof. unfold Qleb, Qle_bool. simpl. by rewrite !Z.mul_1_r. Qed.

Lemma get_insert_eq (m : gmap string value) k v d : get (<[k:=v]> m) k d = v.
Proof. unfold get. by rewrite lookup_insert_eq. Qed.

Lemma get_insert_ne (m : gmap string value) k k' v d :
  k ≠ k' → get (<[k:=v]> m) k' d = get m k' d.
Proof. intros. unfold get. by rewrite lookup_insert_ne. Qed.

(** Read a field back from a dictionary display. *)
Ltac get_fields :=
  repeat (rewrite get_insert_eq || rewrite get_insert_ne by done).

Lemma adjust_risk_table (c : Z) :
  adjust_risk (inject_Z c) = risk_label (risk_table c).
Proof.
  unfold adjust_risk, risk_table.
  change 40%Q with (inject_Z 40). change 60%Q with (inject_Z 60).
  change 75%Q with (inject_Z 75). rewrite !Qleb_inject_Z.
  by repeat case_match.
Qed.

Lemma adjust_trajectory_known c t :
  eq_str (adjust_trajectory c t) "Unknown" = false.
Proof.
  unfold adjust_trajectory.
  destruct (eq_str t "Unknown") eqn:Ht; [| done]. by repeat case_match.
Qed.

Lemma adjust_rock_size_known c r :
  eq_str (adjust_rock_size c r) "Unknown" = false.
Proof.
  unfold adjust_rock_size.
  destruct (eq_str r "Unknown") eqn:Hr; [| done]. by repeat case_match.
Qed.

Lemma adjust_trajectory_idem c t :
  adjust_trajectory c (adjust_trajectory c t) = adjust_trajectory c t.
Proof.
  unfold adjust_trajectory at 1. by rewrite adjust_trajectory_known.
Qed.

Lemma adjust_rock_size_idem c r :
  adjust_rock_size c (adjust_rock_size c r) = adjust_rock_size c r.
Proof.
  unfold adjust_rock_size at 1. by rewrite adjust_rock_size_known.
Qed.

(** What the engine returns whenever the confidence is a number. *)
Lemma conclusion_analysis_ok analysis c :
  as_num (get analysis "confidence" (VInt 0)) = Some c →
  conclusion_analysis analysis =
    Ok {[ "riskLevel" := VStr (adjust_risk c);
          "confidence" := get analysis "confidence" (VInt 0);
          "trajectory" :=
            adjust_trajectory c (get analysis "trajectory" (VStr "Unknown"));
          "rockSize" :=
            adjust_rock_size c (get analysis "rockSize" (VStr "Unknown"));
          "recommendations" :=
            VList (VStr <$> adjust_recommendations (adjust_risk c)
              (adjust_rock_size c (get analysis "rockSize" (VStr "Unknown")))
              (adjust_trajectory c (get analysis "trajectory" (VStr "Unknown")))) ]}.
Proof. intros Hc. unfold conclusion_analysis. by rewrite Hc. Qed.

(** C4.  For every calibrated confidence [c] the engine's [riskLevel] is
    the tier of the table: [c <= 40] Low, [40 < c <= 60] Medium,
    [60 < c <= 75] High, [c > 75] VeryHigh (labelled "Very High" by the
    code), the boundaries 40, 60 and 75 falling in the lower tier; it is the
    same for every analysis that carries the confidence [c]. *)
Theorem risk_level_by_confidence (analysis : gmap string value) (c : Z) :
  analysis !! "confidence" = Some (VInt c) →
  ∃ final,
    conclusion_analysis analysis = Ok final ∧
    final !! "riskLevel" = Some (VStr (risk_label (risk_table c))) ∧
    (c <= 40 → risk_table c = Low) ∧
    (40 < c <= 60 → risk_table c = Medium) ∧
    (60 < c <= 75 → risk_table c = High) ∧
    (75 < c → risk_table c = VeryHigh).
Proof.
  intros Hc. eexists. split.
  - apply (conclusion_analysis_ok _ (inject_Z c)). unfold get. by rewrite Hc.
  - rewrite lookup_insert_eq, adjust_risk_table.
    unfold risk_table.
    destruct (Z.leb_spec c 40), (Z.leb_spec c 60), (Z.leb_spec c 75);
      split_and!; intros; (done || lia).
Qed.

(** The boundary 75 is still High. *)
Lemma risk_level_by_confidence_witness :
  ∃ final,
    conclusion_analysis {[ "confidence" := VInt 75 ]} = Ok final ∧
    final !! "riskLevel" = Some (VStr "High").
Proof.
  destruct (risk_level_by_confidence {[ "confidence" := VInt 75 ]} 75)
    as (final & Hfinal & Hrisk & _); [reflexivity |].
  exists final. split; [exact Hfinal | exact Hrisk].
Defined.

(** C7.  The engine is idempotent: whenever the seed's confidence is a
    number (otherwise the engine raises and there is no output), the engine
    returns an analysis on which it returns that same analysis again. *)
Theorem conclusion_analysis_idempotent (analysis : gmap string value) (c : Q) :
  as_num (get analysis "confidence" (VInt 0)) = Some c →
  ∃ final,
    conclusion_analysis analysis = Ok final ∧
    conclusion_analysis final = Ok final.
Proof.
  intros Hc. eexists. split; [by apply conclusion_analysis_ok |].
  rewrite (conclusion_analysis_ok _ c).
  - get_fields. by rewrite adjust_trajectory_idem, adjust_rock_size_idem.
  - by get_fields.
Qed.

(** A seed with a trajectory outside the vocabulary and no rock size. *)
Lemma conclusion_analysis_idempotent_witness :
  ∃ final,
    conclusion_analysis
      {[ "confidence" := VInt 98; "trajectory" := VStr "Drifting" ]} = Ok final ∧
    conclusion_analysis final = Ok final.
Proof.
  apply (conclusion_analysis_idempotent _ (inject_Z 98)). reflexivity.
Defined.

Lemma fromkeys_aux_subseteq seen l : fromkeys_aux seen l ⊆ l.
Proof.
  revert seen. induction l as [| x l IH]; intros seen; cbn; [done |].
  case_bool_decide.
  - by apply list_subseteq_cons.
  - by apply list_subseteq_skip.
Qed.

(** Every text the engine can recommend. *)
Lemma adjust_recommendations_fixed risk rock_size trajectory :
  adjust_recommendations risk rock_size trajectory ⊆
    ["Continue monitoring"; "Schedule inspection"; "Immediate inspection";
     "Evacuate personnel if necessary"; "Reinforce support structures"].
Proof.
  unfold adjust_recommendations, list_fromkeys.
  etrans; [apply fromkeys_aux_subseteq |].
  destruct (in_strs (VStr risk) ["Low"; "Medium"]);
    [destruct (in_strs rock_size _)
    | destruct (in_strs (VStr risk) _); [destruct (eq_str trajectory _) |]];
    cbn; intros x Hx;
    repeat (apply elem_of_cons in Hx as [-> | Hx]);
    try (by apply elem_of_nil in Hx);
    repeat first [apply list_elem_of_here | apply list_elem_of_further].
Qed.

(** C10.  The engine never reads the seed's recommendations: two seeds
    that agree on every other field get the same result, and the
    recommendations of a result are computed from its own risk level, rock
    size and trajectory alone, out of the engine's five fixed texts. *)
Theorem recommendations_ignore_seed (a b : gmap string value) :
  (∀ k, k ≠ "recommendations" → a !! k = b !! k) →
  conclusion_analysis a = conclusion_analysis b ∧
  ∀ final, conclusion_analysis a = Ok final →
    ∃ risk rock_size trajectory,
      final !! "riskLevel" = Some (VStr risk) ∧
      final !! "rockSize" = Some rock_size ∧
      final !! "trajectory" = Some trajectory ∧
      final !! "recommendations" =
        Some (VList (VStr <$> adjust_recommendations risk rock_size trajectory)) ∧
      adjust_recommendations risk rock_size trajectory ⊆
        ["Continue monitoring"; "Schedule inspection"; "Immediate inspection";
         "Evacuate personnel if necessary"; "Reinforce support structures"].
Proof.
  intros Hagree. split.
  - unfold conclusion_analysis, get. by rewrite !Hagree.
  - intros final. unfold conclusion_analysis.
    destruct (as_num _) as [c |]; [| done]. intros [= <-].
    do 3 eexists. split_and!; [by simplify_map_eq .. |].
    apply adjust_recommendations_fixed.
Qed.

(** The fallback seed with and without its error message. *)
Lemma recommendations_ignore_seed_witness :
  conclusion_analysis (seed_analysis (fallback_summary 98 invalid_json)) =
  conclusion_analysis
    (<["recommendations" := VList []]>
       (seed_analysis (fallback_summary 98 invalid_json))).
Proof.
  apply (recommendations_ignore_seed
           (seed_analysis (fallback_summary 98 invalid_json))
           (<["recommendations" := VList []]>
              (seed_analysis (fallback_summary 98 invalid_json)))).
  intros k Hk. by rewrite lookup_insert_ne.
Defined.

End EngineFacts.

(** ** [summarize_with_gemini] and [process_video_and_summarize] *)

Module ReconcilerFacts.
Import Py PyFacts B64 Genai FloatFacts EngineFacts.

(** The loops never lower [highest_conf]. *)
Lemma scan_pred_ge h0 p h : scan_pred h0 p = Ok h → (h0 <= h)%Q.
Proof.
  unfold scan_pred. destruct (p !! "class"); [| done].
  destruct (as_num _) as [c |]; [| by destruct (get p "confidence" (VInt 0))].
  intros [= <-]. destruct (Qltb h0 c) eqn:Hlt; [| lra].
  apply Qltb_lt in Hlt. lra.
Qed.

Lemma scan_preds_ge preds : ∀ h0 h, scan_preds h0 preds = Ok h → (h0 <= h)%Q.
Proof.
  induction preds as [| p preds IH]; intros h0 h; cbn.
  - intros [= <-]. lra.
  - destruct (scan_pred h0 p) as [h1 |] eqn:Hp; [| done]. cbn. intros Hrest.
    apply scan_pred_ge in Hp. apply IH in Hrest. lra.
Qed.

Lemma scan_frames_ge items : ∀ h0 h, scan_frames h0 items = Ok h → (h0 <= h)%Q.
Proof.
  induction items as [| [frame preds] items IH]; intros h0 h; cbn.
  - intros [= <-]. lra.
  - destruct (scan_preds h0 preds) as [h1 |] eqn:Hp; [| done]. cbn.
    intros Hrest. apply scan_preds_ge in Hp. apply IH in Hrest. lra.
Qed.

(** [scale_confidence] returns on what the scan of the detections leaves. *)
Lemma scale_scanned predictions h :
  scan_frames 0 predictions = Ok h →
  ∃ c, scale_confidence (Finite h) = Ok c ∧ 0 <= c <= 98.
Proof.
  intros Hscan. apply scale_confidence_nonneg. by apply scan_frames_ge in Hscan.
Qed.

Lemma scan_pred_ok h0 p :
  detection p →
  ∃ c, as_num (get p "confidence" (VInt 0)) = Some c ∧
       scan_pred h0 p = Ok (if Qltb h0 c then c else h0).
Proof.
  intros [[cl Hcl] (c & Hc & _)]. exists c. split; [done |].
  unfold scan_pred. by rewrite Hcl, Hc.
Qed.

(** The inner loop ends with an upper bound of what it has seen that is
    either the start value or one of the confidences. *)
Lemma scan_preds_ok preds : ∀ h0,
  Forall detection preds →
  ∃ h, scan_preds h0 preds = Ok h ∧
       (h0 <= h)%Q ∧
       Forall (λ c, (c <= h)%Q) (pred_confidences preds) ∧
       (h = h0 ∨ h ∈ pred_confidences preds).
Proof.
  induction preds as [| p preds IH]; intros h0 Hall.
  - exists h0. split_and!; [done | lra | constructor | by left].
  - inversion_clear Hall as [| ? ? Hp Hrest].
    destruct (scan_pred_ok h0 p Hp) as (c & Hc & Hstep).
    destruct (IH (if Qltb h0 c then c else h0) Hrest)
      as (h & Hscan & Hle & Hub & Hmem).
    exists h. cbn [scan_preds]. rewrite Hstep. cbn.
    unfold pred_confidences in *. cbn [omap list_omap]. rewrite Hc.
    destruct (Qltb h0 c) eqn:Hlt;
      [apply Qltb_lt in Hlt | apply Qltb_ge in Hlt].
    + split_and!; [done | lra | constructor; [lra | done] |].
      right. destruct Hmem as [-> |]; [left | by right].
    + split_and!; [done | lra | constructor; [lra | done] |].
      destruct Hmem as [-> |]; [by left | right; by right].
Qed.

Lemma scan_frames_ok predictions : ∀ h0,
  Forall (λ item, Forall detection item.2) predictions →
  ∃ h, scan_frames h0 predictions = Ok h ∧
       (h0 <= h)%Q ∧
       Forall (λ c, (c <= h)%Q) (raw_confidences predictions) ∧
       (h = h0 ∨ h ∈ raw_confidences predictions).
Proof.
  induction predictions as [| [frame preds] items IH]; intros h0 Hall.
  - exists h0. split_and!; [done | lra | constructor | by left].
  - inversion_clear Hall as [| ? ? Hp Hrest]. cbn in Hp.
    destruct (scan_preds_ok preds h0 Hp) as (h1 & Hscan1 & Hle1 & Hub1 & Hmem1).
    destruct (IH h1 Hrest) as (h & Hscan & Hle & Hub & Hmem).
    exists h. cbn [scan_frames]. rewrite Hscan1. cbn.
    unfold raw_confidences in *. cbn [fmap list_fmap concat snd].
    split_and!; [done | lra | |].
    + apply Forall_app. split; [| done].
      eapply Forall_impl; [exact Hub1 |]. intros c Hc; cbn in Hc |- *; lra.
    + rewrite elem_of_app.
      destruct Hmem as [-> |]; [| by auto].
      destruct Hmem1 as [-> |]; auto.
Qed.

Lemma pred_confidences_nonneg preds :
  Forall detection preds → Forall (λ c, (0 <= c)%Q) (pred_confidences preds).
Proof.
  unfold pred_confidences. induction 1 as [| p ps Hd _ IH]; cbn.
  - constructor.
  - destruct Hd as [_ (c & -> & Hc & _)]. by constructor.
Qed.

Lemma detections_nonneg predictions :
  Forall (λ item, Forall detection item.2) predictions →
  Forall (λ c, (0 <= c)%Q) (raw_confidences predictions).
Proof.
  unfold raw_confidences. induction 1 as [| item items Hp _ IH]; cbn.
  - constructor.
  - apply Forall_app. split; [by apply pred_confidences_nonneg | exact IH].
Qed.

Lemma is_highest_intro h confs :
  Forall (λ c, (0 <= c)%Q) confs →
  Forall (λ c, (c <= h)%Q) confs →
  h = 0%Q ∨ h ∈ confs →
  is_highest h confs.
Proof.
  intros Hpos Hub Hmem. destruct confs as [| c0 confs]; cbn.
  - destruct Hmem as [-> | Hin]; [reflexivity | by apply elem_of_nil in Hin].
  - split; [| exact Hub].
    destruct Hmem as [-> | Hin].
    + apply Exists_cons_hd.
      inversion_clear Hpos. inversion_clear Hub. cbn in *. lra.
    + apply Exists_exists. exists h. split; [exact Hin | reflexivity].
Qed.

(** The replies on which the [try] block raises: everything but a
    non-empty JSON object. *)
Lemma try_summarize_fails h c reply :
  scale_confidence (Finite h) = Ok c →
  is_ok (try_summarize h reply) = false ↔
  match reply with
  | ReplyText (VDict d) => size d = 0%nat
  | _ => True
  end.
Proof.
  intros Hc. unfold try_summarize. rewrite Hc.
  destruct reply as [msg | []]; cbn; try done;
    try (repeat case_match; done).
  case_bool_decide; cbn; split; (done || congruence).
Qed.

(** Whatever the reply, the summary carries the scaled highest confidence. *)
Lemma summarize_confidence predictions reply h c :
  scan_frames 0 predictions = Ok h →
  scale_confidence (Finite h) = Ok c →
  ∃ summary,
    summarize_with_gemini predictions reply = Ok summary ∧
    summary !! "confidence" = Some (VInt c).
Proof.
  intros Hscan Hc. unfold summarize_with_gemini. rewrite Hscan. cbn.
  destruct (try_summarize h reply) as [summary | e] eqn:Htry.
  - exists summary. split; [done |].
    destruct reply as [msg | v]; [done |]. unfold try_summarize in Htry.
    rewrite Hc in Htry. destruct (truthy v); [| done]. cbn in Htry.
    destruct v; try done. injection Htry as <-. apply lookup_insert_eq.
  - rewrite Hc. cbn. eexists. split; [done |]. unfold fallback_summary.
    rewrite lookup_insert_ne by done. apply lookup_insert_eq.
Qed.

(** C2.  Whatever the advisory reply (a raised error, text that is not
    JSON, JSON of any shape, with or without a confidence of its own) and
    whatever the detections, [scale_confidence] returns on [h], the highest
    raw detection confidence (0 when there are no detections), and the
    final analysis carries what it returns as its confidence. *)
Theorem final_confidence_is_scaled_highest
    (predictions : list (string * list (gmap string value)))
    (reply : gemini_reply) :
  Forall (λ item, Forall detection item.2) predictions →
  ∃ h c final,
    is_highest h (raw_confidences predictions) ∧
    scale_confidence (Finite h) = Ok c ∧
    process_video_and_summarize (Ok predictions) reply =
      Ok {[ "success" := VBool true; "analysis" := VDict final ]} ∧
    final !! "confidence" = Some (VInt c).
Proof.
  intros Hdet.
  destruct (scan_frames_ok predictions 0%Q Hdet) as (h & Hscan & _ & Hub & Hmem).
  destruct (scale_scanned predictions h Hscan) as (c & Hc & _).
  destruct (summarize_confidence predictions reply h c Hscan Hc)
    as (summary & Hsum & Hconf).
  exists h, c. eexists. split_and!.
  - apply is_highest_intro; [by apply detections_nonneg | done | done].
  - exact Hc.
  - cbn. rewrite Hsum. cbn.
    rewrite (conclusion_analysis_ok _ (inject_Z c)).
    + reflexivity.
    + unfold seed_analysis. get_fields. unfold get. by rewrite Hconf.
  - rewrite lookup_insert_ne by done. rewrite lookup_insert_eq.
    unfold seed_analysis. get_fields. unfold get. by rewrite Hconf.
Qed.

(** One detection of confidence 0.80 and a reply that claims confidence 3. *)
Lemma final_confidence_is_scaled_highest_witness :
  ∃ h c final,
    is_highest h (raw_confidences sample_predictions) ∧
    scale_confidence (Finite h) = Ok c ∧
    process_video_and_summarize (Ok sample_predictions) sample_reply =
      Ok {[ "success" := VBool true; "analysis" := VDict final ]} ∧
    final !! "confidence" = Some (VInt c).
Proof.
  apply (final_confidence_is_scaled_highest sample_predictions sample_reply).
  constructor; [cbn | constructor].
  constructor; [| constructor].
  split; [by eexists | exists (8 # 10)%Q].
  split_and!; [reflexivity | discriminate | discriminate].
Defined.

(** C6, as the code has it.  When the [try] block of
    [summarize_with_gemini] raises (the collaborator failed, or its text is
    not a non-empty JSON object), the substituted summary and the seed built
    from it have riskLevel, rockSize and trajectory equal to "Unknown", and
    their recommendations hold one entry: the failure message. *)
Theorem fallback_seed_fields
    (predictions : list (string * list (gmap string value)))
    (reply : gemini_reply) (h : Q) (e : exn) :
  scan_frames 0 predictions = Ok h →
  try_summarize h reply = Raise e →
  ∃ c,
    scale_confidence (Finite h) = Ok c ∧
    summarize_with_gemini predictions reply = Ok (fallback_summary c e) ∧
    let seed := seed_analysis (fallback_summary c e) in
    seed !! "riskLevel" = Some (VStr "Unknown") ∧
    seed !! "rockSize" = Some (VStr "Unknown") ∧
    seed !! "trajectory" = Some (VStr "Unknown") ∧
    seed !! "recommendations" =
      Some (VList [VStr ("❌ Gemini failed: " +:+ exn_str e)]).
Proof.
  intros Hscan Htry.
  destruct (scale_scanned predictions h Hscan) as (c & Hc & _).
  exists c. split_and!; [exact Hc | |].
  - unfold summarize_with_gemini. rewrite Hscan. cbn. by rewrite Htry, Hc.
  - cbn. unfold seed_analysis, fallback_summary, get. by simplify_map_eq.
Qed.

(** A reply that is not JSON, after one detection of confidence 0.80. *)
Lemma fallback_seed_fields_witness :
  summarize_with_gemini sample_predictions (ReplyText VNone) =
    Ok (fallback_summary 98 invalid_json) ∧
  seed_analysis (fallback_summary 98 invalid_json) !! "recommendations" =
    Some (VList [VStr "❌ Gemini failed: Gemini returned invalid JSON"]).
Proof.
  destruct (fallback_seed_fields sample_predictions (ReplyText VNone)
              (8 # 10) invalid_json) as (c & Hc & Hsum & _ & _ & _ & Hrec);
    [reflexivity | reflexivity |].
  vm_compute in Hc. injection Hc as <-.
  split; [exact Hsum | exact Hrec].
Defined.

(** C6 as stated fails: with no detections and a reply that is not JSON,
    the seed's recommendations are not the empty list. *)
Lemma fallback_recommendations_not_empty :
  summarize_with_gemini [] (ReplyText VNone) =
    Ok (fallback_summary 0 invalid_json) ∧
  seed_analysis (fallback_summary 0 invalid_json) !! "recommendations" =
    Some (VList [VStr "❌ Gemini failed: Gemini returned invalid JSON"]) ∧
  seed_analysis (fallback_summary 0 invalid_json) !! "recommendations" ≠
    Some (VList []).
Proof. split_and!; [vm_compute; reflexivity | reflexivity | discriminate]. Qed.

End ReconcilerFacts.

(** ** The reading loop *)

Module SamplerFacts.
Import Py PyFacts OuterSurface.

Section sampler.
Context {Frame : Type}.
Implicit Types (rest fs : list Frame) (stride fc : Z) (sc : nat).

(** Whatever is submitted, the loop submits it for the same frames and
    numbers them consecutively. *)
Lemma read_loop_imap stride rest : ∀ fc sc fs0 fs,
  read_loop (λ _ frame, frame) stride rest fc sc fs0 = Ok fs →
  ∃ out, fs = (fs0 ++ out)%list ∧
    ∀ T (submit : nat → Frame → T) futures,
      read_loop submit stride rest fc sc futures =
        Ok (futures ++ imap (λ k, submit (sc + k)%nat) out)%list.
Proof.
  induction rest as [| frame rest IH]; intros fc sc fs0 fs; cbn.
  - intros [= <-]. exists []. split; [by rewrite app_nil_r |].
    intros. by rewrite app_nil_r.
  - unfold mod_. destruct (stride =? 0); [done |]. cbn.
    destruct (fc mod stride =? 0); intros Hloop.
    + destruct (IH _ _ _ _ Hloop) as (out & -> & Hout).
      exists (frame :: out). split; [by rewrite <- app_assoc |].
      intros T submit futures. rewrite Hout, <- app_assoc. cbn.
      rewrite Nat.add_0_r. do 3 f_equal. apply imap_ext. intros; cbn.
      f_equal. lia.
    + destruct (IH _ _ _ _ Hloop) as (out & -> & Hout).
      exists out. split; [done |]. intros. apply Hout.
Qed.

(** With a positive stride the loop never divides by zero and picks the
    frame that is [gap] reads ahead and every [stride]-th one after it. *)
Lemma read_loop_stride stride rest : 0 < stride →
  ∀ fc sc fs0 (gap : nat),
    0 <= fc → (fc + Z.of_nat gap) mod stride = 0 → Z.of_nat gap < stride →
    ∃ out,
      read_loop (λ _ frame, frame) stride rest fc sc fs0 = Ok (fs0 ++ out)%list ∧
      ∀ k, out !! k = rest !! (gap + k * Z.to_nat stride)%nat.
Proof.
  intros Hpos. induction rest as [| frame rest IH]; intros fc sc fs0 gap Hfc Hmod Hgap.
  - exists []. cbn. split; [by rewrite app_nil_r | done].
  - cbn. unfold mod_. destruct (Z.eqb_spec stride 0) as [| _]; [lia |]. cbn.
    destruct (Z.eqb_spec (fc mod stride) 0) as [Hm | Hm].
    + assert (gap = 0%nat) as ->.
      { rewrite Z.add_mod, Hm, Z.add_0_l, Z.mod_mod, Z.mod_small in Hmod by lia.
        lia. }
      destruct (IH (fc + 1) (S sc) (fs0 ++ [frame])%list (Z.to_nat stride - 1)%nat)
        as (out & Hloop & Hout); [lia | | lia |].
      { replace (fc + 1 + Z.of_nat (Z.to_nat stride - 1)) with (fc + 1 * stride) by lia.
        rewrite Z.mod_add by lia. by rewrite Z.add_0_r in Hmod. }
      exists (frame :: out). rewrite Hloop, <- app_assoc. split; [done |].
      intros [| k]; [done |].
      change ((frame :: out) !! S k) with (out !! k). rewrite Hout.
      symmetry. rewrite lookup_cons_ne_0 by lia. f_equal. lia.
    + destruct gap as [| gap]; [by rewrite Z.add_0_r in Hmod |].
      destruct (IH (fc + 1) sc fs0 gap) as (out & Hloop & Hout); [lia | | lia |].
      { rewrite <- Hmod. f_equal. lia. }
      exists out. split; [done |]. intros k. by rewrite Hout.
Qed.

End sampler.

Lemma int_floor q : (0 <= q)%Q → int q = Qfloor q.
Proof.
  destruct q as [n d]. unfold Qle, int, Qfloor. cbn. intros Hn.
  apply Z.quot_div_nonneg; lia.
Qed.

Lemma int_zero q : (q == 0)%Q → int q = 0.
Proof.
  destruct q as [n d]. unfold Qeq, int. cbn. intros Hn.
  replace n with 0 by lia. apply Z.quot_0_l. lia.
Qed.

End SamplerFacts.

(** ** Tasks and the collecting loop *)

Module DispatchFacts.
Import Py PyFacts OuterSurface SamplerFacts.

Lemma bind_Ok {A B} (m : result A) (k : A → result B) b :
  m ≫= k = Ok b → ∃ a, m = Ok a ∧ k a = Ok b.
Proof. destruct m as [a | e]; [eauto | done]. Qed.

Lemma dict_set_fresh {V} (d : list (string * V)) k v :
  k ∉ d.*1 → dict_set d k v = (d ++ [(k, v)])%list.
Proof.
  induction d as [| [k' v'] d IH]; cbn; [done |].
  rewrite not_elem_of_cons. intros [Hne Hnotin].
  rewrite bool_decide_eq_false_2 by done. by rewrite IH.
Qed.

Lemma frame_key_inj : Inj (=) (=) frame_key.
Proof.
  intros i j Hij. unfold frame_key in Hij.
  by apply (inj (String.app "frame_")), (inj pretty) in Hij.
Qed.

(** When every task returned and no key repeats, the collecting loop
    appends one entry per task, in the order of completion. *)
Lemma collect_ok results : ∀ acc,
  NoDup (acc.*1 ++ (entry <$> results).*1) →
  collect (Ok <$> results) acc = Ok (acc ++ (entry <$> results))%list.
Proof.
  induction results as [| [frame_id predictions] results IH]; intros acc Hnodup.
  - cbn. by rewrite app_nil_r.
  - cbn in Hnodup |- *.
    apply NoDup_app in Hnodup as Hparts. destruct Hparts as (_ & Hfresh & _).
    rewrite dict_set_fresh.
    + rewrite IH; [by rewrite <- app_assoc |].
      rewrite fmap_app, <- app_assoc. exact Hnodup.
    + intros Hin. apply (Hfresh _ Hin). left.
Qed.

(** A task that ended with an exception makes the collecting loop end
    with the exception of such a task. *)
Lemma collect_raise completed : ∀ acc e0,
  Raise e0 ∈ completed →
  ∃ e, collect completed acc = Raise e ∧ Raise e ∈ completed.
Proof.
  induction completed as [| future completed IH]; intros acc e0 Hin.
  - by apply elem_of_nil in Hin.
  - destruct future as [[frame_id predictions] | e].
    + apply elem_of_cons in Hin as [[=] | Hin].
      destruct (IH (dict_set acc (frame_key frame_id) predictions) e0 Hin)
        as (e & Hcollect & He).
      exists e. split; [exact Hcollect | by right].
    + exists e. split; [done | left].
Qed.

Section completion.
Context {T : Type}.
Implicit Types (l : list T) (order : list nat).

Lemma as_completed_all_aux l1 l2 :
  omap (λ i, (l1 ++ l2) !! i) (seq (length l1) (length l2)) = l2.
Proof.
  revert l1. induction l2 as [| x l2 IH]; intros l1; cbn; [done |].
  rewrite lookup_app_r, Nat.sub_diag by lia. cbn. f_equal.
  specialize (IH (l1 ++ [x])%list).
  rewrite <- app_assoc, length_app, Nat.add_1_r in IH. exact IH.
Qed.

Lemma as_completed_perm order l :
  order ≡ₚ seq 0 (length l) → as_completed order l ≡ₚ l.
Proof.
  intros Hperm. unfold as_completed. rewrite Hperm.
  pose proof (as_completed_all_aux [] l) as Hall. cbn in Hall. by rewrite Hall.
Qed.

Lemma elem_of_as_completed order l i x :
  i ∈ order → l !! i = Some x → x ∈ as_completed order l.
Proof. intros Hi Hx. apply list_elem_of_omap. eauto. Qed.

Lemma as_completed_elem order l x :
  x ∈ as_completed order l → ∃ i, l !! i = Some x.
Proof. intros (i & _ & Hi)%list_elem_of_omap. eauto. Qed.

Lemma as_completed_fmap {U} (f : T → U) order l :
  as_completed order (f <$> l) = f <$> as_completed order l.
Proof.
  unfold as_completed. induction order as [| i order IH]; cbn; [done |].
  rewrite list_lookup_fmap, IH. by destruct (l !! i).
Qed.

End completion.

(** Tasks numbered by their position complete under their own number. *)
Lemma as_completed_ids {V} order (results : list (nat * V)) :
  results.*1 = seq 0 (length results) →
  Forall (λ i, (i < length results)%nat) order →
  (as_completed order results).*1 = order.
Proof.
  intros Hids. unfold as_completed. induction 1 as [| i order Hi _ IH]; cbn; [done |].
  assert (results.*1 !! i = Some i) as Hlook.
  { rewrite Hids. by apply lookup_seq. }
  rewrite list_lookup_fmap in Hlook.
  destruct (results !! i) as [[id v] |]; [| done].
  cbn in Hlook |- *. injection Hlook as ->. by rewrite IH.
Qed.

Section tasks.
Context {Frame : Type} (run_workflow : nat → Frame → result value).
Context (conf_threshold : Q).

Lemma process_frame_raise frame_id frame e :
  run_workflow frame_id frame = Raise e →
  process_frame run_workflow conf_threshold frame_id frame = Raise e.
Proof. intros H. unfold process_frame. by rewrite H. Qed.

Lemma process_frame_id frame_id frame r :
  process_frame run_workflow conf_threshold frame_id frame = Ok r →
  r.1 = frame_id.
Proof.
  unfold process_frame. intros H.
  repeat (apply bind_Ok in H as (? & _ & H)). by injection H as <-.
Qed.

(** When every task returns, the tasks' results carry the numbers
    0, 1, ..., n-1 in submission order. *)
Lemma results_ids (fs : list Frame) results :
  imap (process_frame run_workflow conf_threshold) fs = Ok <$> results →
  length results = length fs ∧ results.*1 = seq 0 (length results).
Proof.
  intros Himap.
  assert (length results = length fs) as Hlen.
  { apply (f_equal length) in Himap.
    by rewrite length_imap, length_fmap in Himap. }
  split; [done |]. apply list_eq. intros i.
  rewrite list_lookup_fmap.
  apply (f_equal (.!! i)) in Himap.
  rewrite list_lookup_imap, list_lookup_fmap in Himap.
  destruct (results !! i) as [r |] eqn:Hr; cbn.
  - destruct (fs !! i) as [f |]; [| done]. cbn in Himap.
    injection Himap as Hf. apply process_frame_id in Hf.
    apply lookup_lt_Some in Hr. rewrite lookup_seq_lt by done. by rewrite Hf.
  - apply lookup_ge_None in Hr. symmetry. apply lookup_ge_None.
    by rewrite length_seq.
Qed.

End tasks.

End DispatchFacts.

(** ** The pipeline of [process_video] *)

Module PipelineFacts.
Import Py PyFacts OuterSurface SamplerFacts DispatchFacts.

(** The futures that the reading loop leaves behind. *)
Lemma read_loop_futures {Frame} (run_workflow : nat → Frame → result value)
    (conf_threshold interval_sec : Q) (video : Video Frame) fs :
  sample_frames interval_sec video = Ok fs →
  ∃ stride,
    frame_interval interval_sec video = Ok stride ∧
    read_loop (process_frame run_workflow conf_threshold)
      stride (frames video) 0 0%nat [] =
      Ok (imap (process_frame run_workflow conf_threshold) fs).
Proof.
  unfold sample_frames.
  destruct (frame_interval interval_sec video) as [stride |]; [| done].
  cbn. intros Hfs. exists stride. split; [done |].
  destruct (read_loop_imap _ _ _ _ _ _ Hfs) as (out & -> & Hout).
  by rewrite Hout.
Qed.

(** The stride when the product is not negative: the floor of the rounded
    product. *)
Lemma frame_interval_floor {Frame} (interval_sec : Q) (video : Video Frame)
    stride :
  frame_interval interval_sec video = Ok stride →
  (0 <= fps video * interval_sec)%Q →
  stride = Qfloor (B64.rne (fps video * interval_sec)).
Proof.
  unfold frame_interval. cbn [B64.mul]. unfold B64.of_Q.
  destruct (Qle_bool _ _); [done |]. cbn. intros [= <-] Hnonneg.
  by apply int_floor, B64Facts.rne_nonneg.
Qed.

(** Rounding the product moves its floor up by one at most. *)
Lemma floor_of_rounded (p : Q) :
  (0 <= p)%Q → (p + 1 <= inject_Z (2 ^ 53))%Q →
  Qfloor p <= Qfloor (B64.rne p) <= Qfloor p + 1.
Proof.
  intros Hp Hsmall. destruct (floor_bounds p) as [Hf1 Hf2].
  set (f := Qfloor p) in *.
  assert (0 <= f) as Hf0.
  { unfold f. rewrite <- (Qfloor_Z 0). by apply Qfloor_resp_le. }
  assert (f + 1 <= 2 ^ 53) as Hfmax.
  { rewrite Zle_Qle, inject_Z_succ. lra. }
  assert (inject_Z f <= B64.rne p)%Q as Hlo.
  { rewrite <- (B64Facts.rne_inject_Z f) by lia. by apply B64Facts.rne_mono. }
  assert (B64.rne p <= inject_Z (f + 1))%Q as Hhi.
  { rewrite <- (B64Facts.rne_inject_Z (f + 1)) by lia.
    apply B64Facts.rne_mono. rewrite inject_Z_succ. lra. }
  split.
  - rewrite <- (Qfloor_Z f). by apply Qfloor_resp_le.
  - rewrite <- (Qfloor_Z (f + 1)). by apply Qfloor_resp_le.
Qed.

(** C9, as the code has it.  The stride is [int(fps * interval_sec)]: the
    product as a float, that is rounded to the nearest double, and then
    truncated, which for a non-negative product is the floor of the rounded
    product: the floor of the exact product, or one more when the product
    rounds up to an integer; it is not the product rounded to the nearest
    integer.  Whenever that stride is at least 1, the sampler returns
    without dividing by zero, its frame number [k] (counting from 0) is the
    decoded frame number [k * stride], and whatever is submitted is
    submitted for these frames under the numbers 0, 1, 2, ... *)
Theorem sampling_by_truncated_stride {Frame} (interval_sec : Q)
    (video : Video Frame) (stride : Z) :
  frame_interval interval_sec video = Ok stride →
  (0 <= fps video * interval_sec)%Q →
  0 < stride →
  stride = Qfloor (B64.rne (fps video * interval_sec)) ∧
  ((fps video * interval_sec + 1 <= inject_Z (2 ^ 53))%Q →
   Qfloor (fps video * interval_sec) <= stride <=
     Qfloor (fps video * interval_sec) + 1) ∧
  ∃ fs,
    sample_frames interval_sec video = Ok fs ∧
    (∀ k, fs !! k = frames video !! (k * Z.to_nat stride)%nat) ∧
    ∀ T (submit : nat → Frame → T),
      read_loop submit stride (frames video) 0 0%nat [] = Ok (imap submit fs).
Proof.
  intros Hstride Hnonneg Hpos.
  pose proof (frame_interval_floor _ _ _ Hstride Hnonneg) as Hfloor.
  split; [exact Hfloor |]. split.
  { intros Hsmall. rewrite Hfloor. by apply floor_of_rounded. }
  destruct (read_loop_stride stride (frames video) Hpos 0 0%nat [] 0%nat)
    as (fs & Hfs & Hpick); [lia | by rewrite Z.mod_0_l by lia | lia |].
  exists fs. split_and!.
  - unfold sample_frames. by rewrite Hstride.
  - exact Hpick.
  - intros T submit.
    destruct (read_loop_imap _ _ _ _ _ _ Hfs) as (out & [= <-] & Hout).
    by rewrite Hout.
Qed.

(** Four frames at 1 frame per second, sampled every 2 seconds. *)
Lemma sampling_by_truncated_stride_witness :
  ∃ fs,
    sample_frames 2 four_frames = Ok fs ∧
    (∀ k, fs !! k = frames four_frames !! (k * 2)%nat).
Proof.
  destruct (sampling_by_truncated_stride 2 four_frames 2)
    as (_ & _ & fs & Hfs & Hpick & _);
    [vm_compute; reflexivity | discriminate | reflexivity |].
  exists fs. split; [exact Hfs | exact Hpick].
Defined.

(** C9 as stated fails: at 29.97 frames per second and a 2 second interval
    the stride is 59, where rounding 59.94 gives 60; the decoded frames 0,
    59 and 118 are sampled. *)
Lemma stride_is_not_rounded :
  frame_interval 2 ntsc = Ok 59 ∧
  stride_spec (fps ntsc) 2 = 60 ∧
  sample_frames 2 ntsc = Ok [0; 59; 118]%nat.
Proof. split_and!; vm_compute; reflexivity. Qed.

(** The rounding of the product shows in the stride: at 25 frames per
    second, an interval of 1.16 s gives 28 (the product of the doubles is
    just below 29, and so is the double nearest to it), and an interval of
    0.12 s gives 3 (the product of the doubles is just below 3 and rounds
    to 3). *)
Lemma stride_of_rounded_product :
  frame_interval interval_116 pal = Ok 28 ∧
  (fps pal * interval_116 < 29)%Q ∧
  frame_interval interval_012 pal = Ok 3 ∧
  Qfloor (fps pal * interval_012) = 2.
Proof. split_and!; vm_compute; reflexivity. Qed.

(** C5, what the code does instead.  When the frame rate is reported as
    zero the stride is 0, not 1, and on a video with at least one frame
    [process_video] ends with [ZeroDivisionError] at the first
    [frame_count % frame_interval]: no frame is sampled. *)
Theorem zero_frame_rate_raises {Frame}
    (run_workflow : nat → Frame → result value)
    (conf_threshold interval_sec : Q) (video : Video Frame)
    (order : list nat) (frame : Frame) (rest : list Frame) :
  opened video = true →
  (fps video == 0)%Q →
  frames video = frame :: rest →
  frame_interval interval_sec video = Ok 0 ∧
  process_video run_workflow conf_threshold interval_sec video order =
    Raise (Exn ZeroDivisionError "integer modulo by zero").
Proof.
  intros Hopen Hfps Hframes.
  assert (frame_interval interval_sec video = Ok 0) as Hzero.
  { unfold frame_interval. cbn [B64.mul]. unfold B64.of_Q.
    rewrite (B64Facts.rne_proper (fps video * interval_sec) 0)
      by (rewrite Hfps; ring).
    reflexivity. }
  split; [exact Hzero |].
  unfold process_video. by rewrite Hopen, Hzero, Hframes.
Qed.

(** Four frames from a container that reports no frame rate. *)
Lemma zero_frame_rate_raises_witness :
  process_video no_detections (4 # 10) 2 no_frame_rate [] =
    Raise (Exn ZeroDivisionError "integer modulo by zero").
Proof.
  apply (zero_frame_rate_raises no_detections (4 # 10) 2 no_frame_rate
           [] 10%nat [11; 12; 13]%nat); reflexivity.
Defined.

(** C1, as the code has it.  A failing gateway call is not isolated: for
    every order in which the futures are collected, if the call for one
    sampled frame raises, then
    [process_video] raises too, with the exception of a task that failed,
    and returns no predictions at all. *)
Theorem failed_task_aborts_batch {Frame}
    (run_workflow : nat → Frame → result value)
    (conf_threshold interval_sec : Q) (video : Video Frame)
    (order : list nat) (fs : list Frame) (i : nat) (frame : Frame) (e : exn) :
  opened video = true →
  sample_frames interval_sec video = Ok fs →
  order ≡ₚ seq 0 (length fs) →
  fs !! i = Some frame →
  run_workflow i frame = Raise e →
  ∃ e' j frame',
    process_video run_workflow conf_threshold interval_sec video order =
      Raise e' ∧
    fs !! j = Some frame' ∧
    process_frame run_workflow conf_threshold j frame' = Raise e'.
Proof.
  intros Hopen Hfs Hperm Hi Hfail.
  destruct (read_loop_futures run_workflow conf_threshold _ _ _ Hfs)
    as (stride & Hstride & Hloop).
  unfold process_video. rewrite Hopen, Hstride. cbn. rewrite Hloop. cbn.
  destruct (collect_raise
              (as_completed order
                 (imap (process_frame run_workflow conf_threshold) fs)) [] e)
    as (e' & Hcollect & He').
  { apply (elem_of_as_completed _ _ i).
    - rewrite Hperm. apply elem_of_seq. apply lookup_lt_Some in Hi. lia.
    - rewrite list_lookup_imap, Hi. cbn. f_equal.
      by apply process_frame_raise. }
  apply as_completed_elem in He' as (j & Hj).
  rewrite list_lookup_imap in Hj.
  destruct (fs !! j) as [frame' |] eqn:Hframe'; [| done].
  injection Hj as Hj. by exists e', j, frame'.
Qed.

(** Two sampled frames, the call for the second fails, and its future is
    collected first. *)
Lemma failed_task_aborts_batch_witness :
  ∃ e' j frame',
    process_video (fails_on 1) (4 # 10) 2 four_frames [1; 0]%nat = Raise e' ∧
    [10; 12]%nat !! j = Some frame' ∧
    process_frame (fails_on 1) (4 # 10) j frame' = Raise e'.
Proof.
  apply (failed_task_aborts_batch (fails_on 1) (4 # 10) 2 four_frames
           [1; 0]%nat [10; 12]%nat 1%nat 12%nat
           (Exn CollaboratorError "connection timed out"));
    try (vm_compute; reflexivity).
  apply Permutation_swap.
Defined.

(** C1 as stated fails: two frames are sampled, the call for frame 1
    fails, and the batch ends with that exception instead of returning
    predictions with an empty list for frame 1. *)
Lemma failed_call_is_not_isolated :
  sample_frames 2 four_frames = Ok [10; 12]%nat ∧
  fails_on 1 1%nat 12%nat =
    Raise (Exn CollaboratorError "connection timed out") ∧
  process_video (fails_on 1) (4 # 10) 2 four_frames [0; 1]%nat =
    Raise (Exn CollaboratorError "connection timed out") ∧
  is_ok (process_video (fails_on 1) (4 # 10) 2 four_frames [0; 1]%nat) = false.
Proof. split_and!; vm_compute; reflexivity. Qed.

(** C8, as the code has it.  When all [n] tasks return, then for every
    order in which [as_completed] hands out the futures the predictions
    hold one entry per frame, under the keys [frame_0] ... [frame_(n-1)],
    each key once, with the detections of its own frame; the same entries
    come out of every order, but they are stored, and so iterated, in the
    order in which the futures were handed out, which need not be the order
    of the frames. *)
Theorem predictions_keyed_by_frame {Frame}
    (run_workflow : nat → Frame → result value)
    (conf_threshold interval_sec : Q) (video : Video Frame)
    (order : list nat) (fs : list Frame)
    (results : list (nat * list (gmap string value))) :
  opened video = true →
  sample_frames interval_sec video = Ok fs →
  imap (process_frame run_workflow conf_threshold) fs = Ok <$> results →
  order ≡ₚ seq 0 (length fs) →
  ∃ all_predictions,
    process_video run_workflow conf_threshold interval_sec video order =
      Ok all_predictions ∧
    all_predictions = entry <$> as_completed order results ∧
    all_predictions.*1 = frame_key <$> order ∧
    all_predictions ≡ₚ entry <$> results ∧
    (entry <$> results).*1 = frame_key <$> seq 0 (length fs) ∧
    NoDup all_predictions.*1.
Proof.
  intros Hopen Hfs Hresults Hperm.
  destruct (results_ids _ _ _ _ Hresults) as [Hlen Hids].
  assert ((as_completed order results).*1 = order) as Horder.
  { apply as_completed_ids; [done |]. apply Forall_forall. intros i Hi.
    rewrite Hperm in Hi. apply elem_of_seq in Hi. lia. }
  assert (∀ rs : list (nat * list (gmap string value)),
            (entry <$> rs).*1 = frame_key <$> rs.*1) as Hkeys.
  { intros rs. by rewrite <- !list_fmap_compose. }
  assert (NoDup (frame_key <$> order)) as Hnodup.
  { apply (NoDup_fmap_2 _). rewrite Hperm. apply NoDup_seq. }
  destruct (read_loop_futures run_workflow conf_threshold _ _ _ Hfs)
    as (stride & Hstride & Hloop).
  eexists. split_and!; [| reflexivity | | | |].
  - unfold process_video. rewrite Hopen, Hstride. cbn.
    rewrite Hloop, Hresults. cbn.
    rewrite as_completed_fmap. rewrite collect_ok; [done |].
    cbn. by rewrite Hkeys, Horder.
  - by rewrite Hkeys, Horder.
  - apply fmap_Permutation, as_completed_perm. by rewrite Hlen.
  - by rewrite Hkeys, Hids, Hlen.
  - by rewrite Hkeys, Horder.
Qed.

(** Two sampled frames without detections; the second is handed out
    first. *)
Lemma predictions_keyed_by_frame_witness :
  ∃ all_predictions,
    process_video no_detections (4 # 10) 2 four_frames [1; 0]%nat =
      Ok all_predictions ∧
    all_predictions.*1 = ["frame_1"; "frame_0"] ∧
    all_predictions ≡ₚ [("frame_0", []); ("frame_1", [])].
Proof.
  destruct (predictions_keyed_by_frame no_detections (4 # 10) 2 four_frames
              [1; 0]%nat [10; 12]%nat [(0%nat, []); (1%nat, [])])
    as (d & Hd & _ & Hkeys & Hperm & _); try (vm_compute; reflexivity).
  { apply Permutation_swap. }
  exists d. split_and!; [exact Hd | exact Hkeys | exact Hperm].
Defined.

(** C8 as stated fails: when the future of frame 1 is handed out before
    that of frame 0 (it has finished and the other has not when the
    collecting loop starts, say), the predictions list [frame_1] before
    [frame_0]. *)
Lemma iteration_not_by_frame_index :
  process_video no_detections (4 # 10) 2 four_frames [1; 0]%nat =
    Ok [("frame_1", []); ("frame_0", [])] ∧
  process_video no_detections (4 # 10) 2 four_frames [0; 1]%nat =
    Ok [("frame_0", []); ("frame_1", [])].
Proof. split; vm_compute; reflexivity. Qed.

End PipelineFacts.

(** * Further properties of the code *)

(** ** [process_frame]: the confidence filter *)

Module FilterFacts.
Import Py PyFacts OuterSurface Derived DispatchFacts.

Lemma confidence_of_delete_points (pred : gmap string value) :
  confidence_of (delete "points" pred) = confidence_of pred.
Proof. unfold confidence_of, get. by rewrite lookup_delete_ne. Qed.

Lemma passes_numeric conf_threshold pred c :
  confidence_of pred = Some c →
  passes conf_threshold pred ↔ (conf_threshold <= c)%Q.
Proof. intros Hc. unfold passes. by rewrite Hc. Qed.

(** On dictionaries with numeric confidences the loop appends the passing
    ones, in order, without their "points". *)
Lemma clean_loop_dicts conf_threshold (preds : list (gmap string value)) :
  ∀ cleaned,
    Forall (λ pred, is_Some (confidence_of pred)) preds →
    clean_loop conf_threshold (VDict <$> preds) cleaned =
      Ok (cleaned ++ (delete "points" <$> filter (passes conf_threshold) preds)).
Proof.
  induction preds as [| pred preds IH]; intros cleaned Hnum.
  - cbn. by rewrite app_nil_r.
  - inversion_clear Hnum as [| ? ? [c Hc] Hrest].
    pose proof (passes_numeric conf_threshold pred c Hc) as Hpass.
    rewrite filter_cons. cbn. fold (confidence_of pred). rewrite Hc.
    destruct (Qleb conf_threshold c) eqn:Hle;
      [apply Qleb_le in Hle | apply Qleb_gt in Hle].
    + rewrite decide_True by by apply Hpass. rewrite IH by done.
      by rewrite <- app_assoc.
    + rewrite decide_False; [by apply IH |].
      rewrite Hpass. by apply Qlt_not_le.
Qed.

(** Whatever the loop is given, what it returns beyond its start value
    passed the threshold and has no "points". *)
Lemma clean_loop_passes conf_threshold items : ∀ cleaned out,
  clean_loop conf_threshold items cleaned = Ok out →
  Forall (λ pred, passes conf_threshold pred ∧ pred !! "points" = None) cleaned →
  Forall (λ pred, passes conf_threshold pred ∧ pred !! "points" = None) out.
Proof.
  induction items as [| item items IH]; intros cleaned out; cbn.
  - by intros [= <-].
  - intros Hloop Hcleaned. apply bind_Ok in Hloop as (d & Hd & Hloop).
    fold (confidence_of d) in Hloop.
    destruct (confidence_of d) as [c |] eqn:Hc; [| done].
    destruct (Qleb conf_threshold c) eqn:Hle; [| by eapply IH].
    apply (IH _ _ Hloop). apply Forall_app. split; [done |].
    constructor; [| done]. split; [| apply lookup_delete_eq].
    apply (passes_numeric _ _ c); [by rewrite confidence_of_delete_points |].
    by apply Qleb_le.
Qed.

(** One item that is not a dictionary with a numeric confidence makes the
    loop raise, wherever it stands. *)
Lemma clean_loop_raises conf_threshold items : ∀ cleaned,
  Exists (λ item, ∀ d, item = VDict d → confidence_of d = None) items →
  is_ok (clean_loop conf_threshold items cleaned) = false.
Proof.
  intros cleaned Hbad. revert cleaned.
  induction Hbad as [item items Hitem | item items _ IH]; intros cleaned; cbn.
  - destruct item; try done. cbn. fold (confidence_of d).
    by rewrite (Hitem d eq_refl).
  - destruct item; try done. cbn.
    destruct (as_num _); [| done]. by destruct (Qleb _ _).
Qed.

Section frame.
Context {Frame : Type} (run_workflow : nat → Frame → result value).
Context (conf_threshold : Q).

(** X1.  On a well-shaped answer, [process_frame] returns the frame's own
    number and exactly the predictions whose confidence (0 when the key is
    absent) is at least the threshold, in the answer's order, each without
    its "points" entry and otherwise unchanged. *)
Theorem process_frame_filters (frame_id : nat) (frame : Frame)
    (first : gmap string value) (others : list value)
    (model_predictions : gmap string value)
    (preds : list (gmap string value)) :
  run_workflow frame_id frame = Ok (VList (VDict first :: others)) →
  first !! "model_predictions" = Some (VDict model_predictions) →
  model_predictions !! "predictions" = Some (VList (VDict <$> preds)) →
  Forall (λ pred, is_Some (confidence_of pred)) preds →
  process_frame run_workflow conf_threshold frame_id frame =
    Ok (frame_id, delete "points" <$> filter (passes conf_threshold) preds).
Proof.
  intros Hanswer Hfirst Hpreds Hnum. unfold process_frame.
  rewrite Hanswer. cbn. rewrite Hfirst. cbn. rewrite Hpreds. cbn.
  by rewrite clean_loop_dicts.
Qed.

(** X2.  There is no partial result for a frame: on an answer of the
    expected shape, one prediction that is not a dictionary, or whose
    confidence is not a number, makes [process_frame] raise, wherever it
    stands in the list. *)
Theorem bad_prediction_fails_frame (frame_id : nat) (frame : Frame)
    (first : gmap string value) (others : list value)
    (model_predictions : gmap string value) (items : list value) :
  run_workflow frame_id frame = Ok (VList (VDict first :: others)) →
  first !! "model_predictions" = Some (VDict model_predictions) →
  model_predictions !! "predictions" = Some (VList items) →
  Exists (λ item, ∀ d, item = VDict d → confidence_of d = None) items →
  is_ok (process_frame run_workflow conf_threshold frame_id frame) = false.
Proof.
  intros Hanswer Hfirst Hpreds Hbad. unfold process_frame.
  rewrite Hanswer. cbn. rewrite Hfirst. cbn. rewrite Hpreds. cbn.
  pose proof (clean_loop_raises conf_threshold items [] Hbad) as Hloop.
  by destruct (clean_loop conf_threshold items []).
Qed.

Lemma process_frame_passes frame_id frame r :
  process_frame run_workflow conf_threshold frame_id frame = Ok r →
  Forall (λ pred, passes conf_threshold pred ∧ pred !! "points" = None) r.2.
Proof.
  unfold process_frame. intros H.
  do 5 (apply bind_Ok in H as (? & _ & H)).
  apply bind_Ok in H as (cleaned & Hloop & [= <-]). cbn.
  by apply (clean_loop_passes _ _ _ _ Hloop).
Qed.

End frame.

Lemma read_loop_elements {Frame T} (submit : nat → Frame → T) stride rest :
  ∀ fc sc futures out,
    read_loop submit stride rest fc sc futures = Ok out →
    ∀ x, x ∈ out → x ∈ futures ∨ ∃ i frame, x = submit i frame.
Proof.
  induction rest as [| frame rest IH]; intros fc sc futures out; cbn.
  - intros [= <-]. auto.
  - intros Hloop x Hx. apply bind_Ok in Hloop as (m & _ & Hloop).
    destruct (m =? 0).
    + destruct (IH _ _ _ _ Hloop x Hx) as [Hin | ?]; [| by right].
      apply elem_of_app in Hin as [? | ->%list_elem_of_singleton]; eauto.
    + eauto.
Qed.

Lemma dict_set_Forall {V} (P : V → Prop) (d : list (string * V)) k v :
  Forall (λ item, P item.2) d → P v →
  Forall (λ item, P item.2) (dict_set d k v).
Proof.
  intros Hd Hv. induction Hd as [| [k' v'] d Hhead Htail IH]; cbn.
  - by constructor.
  - case_bool_decide; by constructor.
Qed.

Lemma collect_Forall (P : list (gmap string value) → Prop) completed :
  ∀ all_predictions out,
    collect completed all_predictions = Ok out →
    (∀ r, Ok r ∈ completed → P r.2) →
    Forall (λ item, P item.2) all_predictions →
    Forall (λ item, P item.2) out.
Proof.
  induction completed as [| future completed IH]; intros acc out; cbn.
  - by intros [= <-].
  - intros Hcollect Hall Hacc.
    destruct future as [[frame_id predictions] | e]; [| done]. cbn in Hcollect.
    apply (IH _ _ Hcollect).
    + intros r Hr. apply Hall. by right.
    + apply dict_set_Forall; [done |]. apply (Hall (frame_id, predictions)). left.
Qed.

(** X3.  Whatever the order in which the futures are collected, every
    prediction in what [process_video] returns has a confidence of at least
    the threshold and no "points" entry. *)
Theorem published_predictions_pass {Frame}
    (run_workflow : nat → Frame → result value)
    (conf_threshold interval_sec : Q) (video : Video Frame)
    (order : list nat)
    (all_predictions : list (string * list (gmap string value))) :
  process_video run_workflow conf_threshold interval_sec video order =
    Ok all_predictions →
  Forall (λ item,
    Forall (λ pred, passes conf_threshold pred ∧ pred !! "points" = None)
      item.2) all_predictions.
Proof.
  unfold process_video. destruct (negb (opened video)); [done |].
  intros Hrun. apply bind_Ok in Hrun as (stride & _ & Hrun).
  apply bind_Ok in Hrun as (futures & Hread & Hcollect).
  apply (collect_Forall _ _ _ _ Hcollect); [| constructor].
  intros r Hr. apply as_completed_elem in Hr as (i & Hi).
  apply list_elem_of_lookup_2 in Hi.
  destruct (read_loop_elements _ _ _ _ _ _ _ Hread _ Hi)
    as [Hnil | (k & frame & Hk)].
  - by apply elem_of_nil in Hnil.
  - symmetry in Hk. by apply process_frame_passes in Hk.
Qed.

(** Two detections, of confidence 0.8 and 0.1, against a threshold of 0.4. *)
Lemma process_frame_filters_witness :
  process_frame (finds [rock (8 # 10); rock (1 # 10)]) (4 # 10) 0 10%nat =
    Ok (0%nat, [delete "points" (rock_pred (8 # 10))]).
Proof.
  eapply (process_frame_filters (finds [rock (8 # 10); rock (1 # 10)]) (4 # 10)
            0 10%nat _ [] _ [rock_pred (8 # 10); rock_pred (1 # 10)]).
  - reflexivity.
  - reflexivity.
  - reflexivity.
  - repeat constructor; by eexists.
Defined.

(** A detection whose confidence is a string, after a valid one. *)
Lemma bad_prediction_fails_frame_witness :
  is_ok (process_frame
           (finds [rock (8 # 10); VDict {[ "confidence" := VStr "high" ]}])
           (4 # 10) 0 10%nat) = false.
Proof.
  eapply (bad_prediction_fails_frame _ (4 # 10) 0 10%nat _ [] _
            [rock (8 # 10); VDict {[ "confidence" := VStr "high" ]}]).
  - reflexivity.
  - reflexivity.
  - reflexivity.
  - apply Exists_cons_tl, Exists_cons_hd. by intros d [= <-].
Defined.

(** Two sampled frames with the same two detections each. *)
Lemma published_predictions_pass_witness :
  Forall (λ item,
    Forall (λ pred, passes (4 # 10) pred ∧ pred !! "points" = None) item.2)
    [("frame_1", [delete "points" (rock_pred (8 # 10))]);
     ("frame_0", [delete "points" (rock_pred (8 # 10))])].
Proof.
  apply (published_predictions_pass (finds [rock (8 # 10); rock (1 # 10)])
           (4 # 10) 2 four_frames [1; 0]%nat).
  vm_compute. reflexivity.
Defined.

End FilterFacts.

(** ** The reading loop: when it fails, how many frames it picks *)

Module SamplerMore.
Import Py PyFacts OuterSurface SamplerFacts.

Lemma read_loop_nonzero {Frame T} (submit : nat → Frame → T) stride rest :
  stride ≠ 0 →
  ∀ fc sc futures, is_ok (read_loop submit stride rest fc sc futures) = true.
Proof.
  intros Hstride. induction rest as [| frame rest IH]; intros fc sc futures; cbn.
  - done.
  - unfold mod_. destruct (Z.eqb_spec stride 0) as [| _]; [done |]. cbn.
    destruct (_ =? 0); apply IH.
Qed.

(** A list that holds every [s]-th element of another has the rounded-up
    quotient of the lengths as its length. *)
Lemma length_every_nth {A} (picked l : list A) (s : nat) :
  (0 < s)%nat →
  (∀ k, picked !! k = l !! (k * s)%nat) →
  Z.of_nat (length picked) = (Z.of_nat (length l) + Z.of_nat s - 1) / Z.of_nat s.
Proof.
  intros Hs Hpick.
  assert (length l ≤ length picked * s)%nat as Hupper.
  { apply lookup_ge_None. rewrite <- Hpick. by apply lookup_ge_None. }
  assert (length picked = 0 ∨ (length picked - 1) * s < length l)%nat as Hlower.
  { destruct (length picked) as [| m] eqn:Hlen; [by left | right].
    apply lookup_lt_is_Some. rewrite <- Hpick. apply lookup_lt_is_Some. lia. }
  apply (Z.div_unique_pos _ _ _
    (Z.of_nat (length l) + Z.of_nat s - 1 - Z.of_nat (length picked) * Z.of_nat s));
    nia.
Qed.

(** X4.  The reading loop fails in one case only: a stride of 0 on a video
    with at least one frame.  With no frame nothing is divided, and a
    non-zero stride never raises. *)
Theorem sampling_fails_iff {Frame T} (submit : nat → Frame → T)
    (stride : Z) (video : Video Frame) :
  is_ok (read_loop submit stride (frames video) 0 0%nat []) = false ↔
  stride = 0 ∧ frames video ≠ [].
Proof.
  destruct (Z.eq_dec stride 0) as [-> | Hnz].
  - destruct (frames video) as [| frame rest]; cbn.
    + split; [done | by intros [_ ?]].
    + by split.
  - rewrite read_loop_nonzero by done. split; [done | by intros [? _]].
Qed.

(** X5.  With a stride of at least 1, the number of sampled frames is the
    number of decoded frames divided by the stride, rounded up. *)
Theorem sampled_frame_count {Frame} (interval_sec : Q) (video : Video Frame)
    (stride : Z) :
  frame_interval interval_sec video = Ok stride →
  0 < stride →
  ∃ fs,
    sample_frames interval_sec video = Ok fs ∧
    Z.of_nat (length fs) =
      (Z.of_nat (length (frames video)) + stride - 1) / stride.
Proof.
  intros Hstride Hpos.
  destruct (read_loop_stride stride (frames video) Hpos 0 0%nat [] 0%nat)
    as (fs & Hfs & Hpick);
    [lia | by rewrite Z.mod_0_l by lia | lia |].
  exists fs. split; [unfold sample_frames; by rewrite Hstride |].
  rewrite (length_every_nth fs (frames video) (Z.to_nat stride));
    [| lia | done].
  by rewrite Z2Nat.id by lia.
Qed.

(** 120 frames with a stride of 59: three sampled frames. *)
Lemma sampled_frame_count_witness :
  ∃ fs, sample_frames 2 ntsc = Ok fs ∧ Z.of_nat (length fs) = 3.
Proof.
  apply (sampled_frame_count 2 ntsc 59); [vm_compute; reflexivity | lia].
Defined.

End SamplerMore.

(** ** [conclusion_analysis]: the verdict as a table *)

Module VerdictFacts.
Import Py PyFacts Genai Derived EngineFacts.

Lemma Qltb_inject_Z (n c : Z) : Qltb (inject_Z n) (inject_Z c) = negb (c <=? n).
Proof. unfold Qltb. by rewrite <- Qleb_inject_Z. Qed.

Lemma eq_str_true v lit : eq_str v lit = true ↔ v = VStr lit.
Proof.
  destruct v; cbn; try (split; [done | by intros [=]]).
  rewrite bool_decide_eq_true. split; [by intros -> | by intros [=]].
Qed.

(** The recommendations, branch by branch. *)
Lemma recommendations_by_confidence (c : Q) rock_size trajectory :
  adjust_recommendations (adjust_risk c) rock_size trajectory =
    if Qleb c 60 then
      if in_strs rock_size ["Medium"; "Large"]
      then ["Continue monitoring"; "Schedule inspection"]
      else ["Continue monitoring"]
    else
      if eq_str trajectory "Unstable"
      then ["Immediate inspection"; "Evacuate personnel if necessary";
            "Reinforce support structures"]
      else ["Immediate inspection"; "Evacuate personnel if necessary"].
Proof.
  unfold adjust_recommendations, adjust_risk.
  destruct (Qleb c 40) eqn:H40; [apply Qleb_le in H40 | apply Qleb_gt in H40];
  destruct (Qleb c 60) eqn:H60; [apply Qleb_le in H60 | apply Qleb_gt in H60 | |];
  try (exfalso; lra);
  [ | | destruct (Qleb c 75)];
  destruct (in_strs rock_size _), (eq_str trajectory _); reflexivity.
Qed.

(** X6.  Whenever the engine returns, its recommendations are between one
    and three texts, no two of them equal. *)
Theorem recommendations_distinct (analysis final : gmap string value) :
  conclusion_analysis analysis = Ok final →
  ∃ recommendations,
    final !! "recommendations" = Some (VList (VStr <$> recommendations)) ∧
    NoDup recommendations ∧
    (1 <= length recommendations <= 3)%nat.
Proof.
  unfold conclusion_analysis. destruct (as_num _) as [c |]; [| done].
  intros [= <-]. eexists. split; [by simplify_map_eq |].
  rewrite recommendations_by_confidence.
  repeat case_match; cbn;
    (split; [by apply (bool_decide_unpack _) | lia]).
Qed.

Lemma recommendations_distinct_witness :
  ∃ recommendations,
    default_verdict 98 !! "recommendations" =
      Some (VList (VStr <$> recommendations)) ∧
    NoDup recommendations ∧
    (1 <= length recommendations <= 3)%nat.
Proof.
  apply (recommendations_distinct {[ "confidence" := VInt 98 ]}). reflexivity.
Defined.

(** The engine's formulas on "Unknown" hints, row by row. *)
Lemma default_verdict_eq (c : Z) :
  ({[ "riskLevel" := VStr (adjust_risk (inject_Z c));
      "confidence" := VInt c;
      "trajectory" := adjust_trajectory (inject_Z c) (VStr "Unknown");
      "rockSize" := adjust_rock_size (inject_Z c) (VStr "Unknown");
      "recommendations" :=
        VList (VStr <$> adjust_recommendations (adjust_risk (inject_Z c))
          (adjust_rock_size (inject_Z c) (VStr "Unknown"))
          (adjust_trajectory (inject_Z c) (VStr "Unknown"))) ]}
   : gmap string value) = default_verdict c.
Proof.
  rewrite recommendations_by_confidence.
  unfold adjust_risk, adjust_trajectory, adjust_rock_size, default_verdict.
  change 40%Q with (inject_Z 40). change 50%Q with (inject_Z 50).
  change 60%Q with (inject_Z 60). change 70%Q with (inject_Z 70).
  change 75%Q with (inject_Z 75).
  rewrite !Qleb_inject_Z, !Qltb_inject_Z.
  destruct (Z.leb_spec c 40), (Z.leb_spec c 50), (Z.leb_spec c 60),
    (Z.leb_spec c 70), (Z.leb_spec c 75); try lia; reflexivity.
Qed.

(** X7.  Without hints (trajectory and rock size absent or "Unknown") the
    verdict is a function of the integer confidence alone, with six rows:
    up to 40, 41-50, 51-60, 61-70, 71-75 and above 75. *)
Theorem verdict_without_hints (analysis : gmap string value) (c : Z) :
  analysis !! "confidence" = Some (VInt c) →
  get analysis "trajectory" (VStr "Unknown") = VStr "Unknown" →
  get analysis "rockSize" (VStr "Unknown") = VStr "Unknown" →
  conclusion_analysis analysis = Ok (default_verdict c).
Proof.
  intros Hc Htraj Hrock.
  rewrite (conclusion_analysis_ok _ (inject_Z c)) by (unfold get; by rewrite Hc).
  rewrite Htraj, Hrock. unfold get at 1. rewrite Hc. cbn [default].
  by rewrite default_verdict_eq.
Qed.

(** The fallback's seed at confidence 57. *)
Lemma verdict_without_hints_witness :
  conclusion_analysis
    {[ "confidence" := VInt 57; "trajectory" := VStr "Unknown" ]} =
    Ok (verdict "Medium" 57 "Moderate" "Medium"
          ["Continue monitoring"; "Schedule inspection"]).
Proof.
  apply (verdict_without_hints
           {[ "confidence" := VInt 57; "trajectory" := VStr "Unknown" ]} 57);
    reflexivity.
Defined.

Lemma conclusion_analysis_dom (analysis final : gmap string value) :
  conclusion_analysis analysis = Ok final → dom final = analysis_keys.
Proof.
  unfold conclusion_analysis. destruct (as_num _); [| done]. intros [= <-].
  rewrite !dom_insert_L, dom_singleton_L. unfold analysis_keys.
  by rewrite !(assoc_L (∪)).
Qed.

(** X8.  The engine reads three keys of the seed and nothing else: seeds
    that agree on confidence, rockSize and trajectory get the same result
    (the seed's riskLevel and any further key are ignored), and a result has
    exactly the five keys of an analysis. *)
Theorem verdict_reads_three_keys (a b : gmap string value) :
  a !! "confidence" = b !! "confidence" →
  a !! "rockSize" = b !! "rockSize" →
  a !! "trajectory" = b !! "trajectory" →
  conclusion_analysis a = conclusion_analysis b ∧
  ∀ final, conclusion_analysis a = Ok final → dom final = analysis_keys.
Proof.
  intros Hconf Hrock Htraj. split.
  - unfold conclusion_analysis, get. by rewrite Hconf, Hrock, Htraj.
  - intros final. apply conclusion_analysis_dom.
Qed.

(** A seed with a risk level and a stray key, against the bare seed. *)
Lemma verdict_reads_three_keys_witness :
  conclusion_analysis
    {[ "confidence" := VInt 57; "riskLevel" := VStr "Low";
       "note" := VStr "ignore me" ]} =
  conclusion_analysis {[ "confidence" := VInt 57 ]}.
Proof.
  apply (verdict_reads_three_keys
           {[ "confidence" := VInt 57; "riskLevel" := VStr "Low";
              "note" := VStr "ignore me" ]}
           {[ "confidence" := VInt 57 ]}); reflexivity.
Defined.

(** X9.  What triggers each recommendation, for an integer confidence [c]:
    monitoring up to 60; inspection and evacuation above 60; reinforcement
    above 60 with a final trajectory "Unstable"; scheduling an inspection up
    to 60 with a final rock size "Medium" or "Large". *)
Theorem recommendation_triggers (analysis : gmap string value) (c : Z) :
  analysis !! "confidence" = Some (VInt c) →
  ∃ final recommendations trajectory rock_size,
    conclusion_analysis analysis = Ok final ∧
    final !! "recommendations" = Some (VList (VStr <$> recommendations)) ∧
    final !! "trajectory" = Some trajectory ∧
    final !! "rockSize" = Some rock_size ∧
    ("Continue monitoring" ∈ recommendations ↔ c <= 60) ∧
    ("Immediate inspection" ∈ recommendations ↔ 60 < c) ∧
    ("Evacuate personnel if necessary" ∈ recommendations ↔ 60 < c) ∧
    ("Reinforce support structures" ∈ recommendations ↔
       60 < c ∧ trajectory = VStr "Unstable") ∧
    ("Schedule inspection" ∈ recommendations ↔
       c <= 60 ∧ (rock_size = VStr "Medium" ∨ rock_size = VStr "Large")).
Proof.
  intros Hc. do 4 eexists.
  split; [apply (conclusion_analysis_ok _ (inject_Z c));
          unfold get; by rewrite Hc |].
  split; [by simplify_map_eq |].
  split; [by simplify_map_eq |].
  split; [by simplify_map_eq |].
  rewrite recommendations_by_confidence.
  change 60%Q with (inject_Z 60). rewrite Qleb_inject_Z.
  set (trajectory := adjust_trajectory _ _).
  set (rock_size := adjust_rock_size _ _).
  assert (in_strs rock_size ["Medium"; "Large"] = true ↔
          rock_size = VStr "Medium" ∨ rock_size = VStr "Large") as Hrock.
  { unfold in_strs. cbn. rewrite orb_false_r, orb_true_iff.
    by rewrite !eq_str_true. }
  pose proof (eq_str_true trajectory "Unstable") as Htraj.
  destruct (Z.leb_spec c 60);
    destruct (in_strs rock_size _); destruct (eq_str trajectory _);
    rewrite ?elem_of_cons, ?elem_of_nil;
    split_and!; split; intros; destruct_or?; destruct_and?;
    try done; try lia; try (by intuition congruence); auto 10.
Qed.

(** A confidence of 98, no hints. *)
Lemma recommendation_triggers_witness :
  ∃ final recommendations trajectory rock_size,
    conclusion_analysis {[ "confidence" := VInt 98 ]} = Ok final ∧
    final !! "recommendations" = Some (VList (VStr <$> recommendations)) ∧
    final !! "trajectory" = Some trajectory ∧
    final !! "rockSize" = Some rock_size ∧
    ("Continue monitoring" ∈ recommendations ↔ 98 <= 60) ∧
    ("Immediate inspection" ∈ recommendations ↔ 60 < 98) ∧
    ("Evacuate personnel if necessary" ∈ recommendations ↔ 60 < 98) ∧
    ("Reinforce support structures" ∈ recommendations ↔
       60 < 98 ∧ trajectory = VStr "Unstable") ∧
    ("Schedule inspection" ∈ recommendations ↔
       98 <= 60 ∧ (rock_size = VStr "Medium" ∨ rock_size = VStr "Large")).
Proof.
  apply (recommendation_triggers {[ "confidence" := VInt 98 ]} 98). reflexivity.
Defined.

End VerdictFacts.

(** ** [scale_confidence]: its values, and the risk tier by raw confidence *)

Module ScaleMore.
Import Py PyFacts B64 B64Facts Genai Derived FloatFacts EngineFacts.

(** X10.  On every float, [scale_confidence] raises exactly when the
    percentage [conf * 100] is minus infinity (the confidence is minus
    infinity, or a finite number such as -1e307 whose percentage
    overflows); whenever it returns, it returns at most 95 or exactly 98
    (never 96, 97, 99 or 100), and 98 exactly when the confidence is not at
    most 0.60: above it, or a NaN. *)
Theorem scale_confidence_values (conf : float) :
  is_float conf →
  (is_ok (scale_confidence conf) = false ↔
   mul conf (Finite 100) = Infinite true) ∧
  ∀ c, scale_confidence conf = Ok c →
       (c <= 95 ∨ c = 98) ∧ (c = 98 ↔ above_60 conf).
Proof.
  intros Hfloat. destruct conf as [q | [] |]; cbn [is_float above_60] in *.
  - split.
    + cbn [mul]. unfold of_Q.
      destruct (Qlt_le_dec (- 2 ^ 1024) (rne (q * 100))) as [Hlow | Hlow].
      * rewrite scale_confidence_finite by done. cbn [is_ok].
        split; [done |].
        destruct (Qle_bool (2 ^ 1024) (Qabs (rne (q * 100)))) eqn:Hbig;
          [| done].
        intros [= Hneg]. apply Qltb_lt in Hneg. apply Qle_bool_iff in Hbig.
        rewrite Qabs_neg in Hbig by lra. lra.
      * rewrite scale_confidence_overflow by done. cbn [is_ok].
        split; [intros _ | done].
        pose proof (pow2_pos 1024) as Hpos.
        rewrite (proj2 (Qle_bool_iff _ _)) by (rewrite Qabs_neg; lra).
        by rewrite (proj2 (Qltb_lt _ 0)) by lra.
    + intros c Hc. apply scale_confidence_returns in Hc as [_ ->].
      destruct (percent_cut_60 q Hfloat) as [Hle Hgt].
      destruct (Qlt_le_dec (6 # 10) q) as [Hq | Hq].
      * specialize (Hgt Hq). unfold scaled_of.
        rewrite (proj2 (Qleb_gt _ 40)), (proj2 (Qleb_gt _ 55)),
          (proj2 (Qleb_gt _ 60)) by lra.
        split; [by right | done].
      * specialize (Hle Hq).
        pose proof (round_le _ 95 (scaled_of_le_95 _ Hle)) as H95.
        split; [by left |]. split; [lia | lra].
  - split; [by vm_compute |]. intros c Hc. vm_compute in Hc. discriminate.
  - split; [by vm_compute |]. intros c Hc. vm_compute in Hc.
    injection Hc as <-. split; [by right | done].
  - split; [by vm_compute |]. intros c Hc. vm_compute in Hc.
    injection Hc as <-. split; [by right | done].
Qed.

(** The double nearest to 0.45 goes to 57, and the one nearest to -1e307
    makes [round] raise. *)
Lemma scale_confidence_values_witness :
  ((57 <= 95 ∨ 57 = 98) ∧ (57 = 98 ↔ above_60 (lit (45 # 100)))) ∧
  is_ok (scale_confidence (lit (- inject_Z (10 ^ 307)))) = false.
Proof.
  split.
  - destruct (scale_confidence_values (lit (45 # 100))) as [_ Hvalue];
      [vm_compute; split; reflexivity |].
    apply (Hvalue 57). vm_compute. reflexivity.
  - destruct (scale_confidence_values (lit (- inject_Z (10 ^ 307))))
      as [[_ Hraise] _]; [vm_compute; split; reflexivity |].
    apply Hraise. vm_compute. reflexivity.
Defined.

(** The integer that [scale_confidence] returns on a finite confidence from
    0 on, around a double [M * 2 ^ (k - 52)] and its successor. *)
Lemma scale_confidence_cut h c M k lo :
  is_double h → (0 <= h)%Q →
  scale_confidence (Finite h) = Ok c →
  -1022 <= k →
  (2 ^ k <= inject_Z M * 2 ^ (k - 52))%Q →
  (inject_Z (M + 1) * 2 ^ (k - 52) <= 2 ^ (k + 1))%Q →
  scale_confidence (Finite (inject_Z M * 2 ^ (k - 52))) = Ok lo →
  scale_confidence (Finite (inject_Z (M + 1) * 2 ^ (k - 52))) = Ok (lo + 1) →
  c <= lo ↔ (h <= inject_Z M * 2 ^ (k - 52))%Q.
Proof.
  intros Hh Hh0 Hc Hk Hlo Hhi Hbelow Habove.
  destruct (double_cut_binade h M k Hh Hk Hlo Hhi) as [Hle | Hge].
  - split; [done | intros _].
    by apply (scale_confidence_mono _ _ _ _ Hle Hc Hbelow).
  - pose proof (scale_confidence_mono _ _ _ _ Hge Habove Hc) as Hmono.
    assert (inject_Z M * 2 ^ (k - 52) < inject_Z (M + 1) * 2 ^ (k - 52))%Q.
    { apply Qmult_lt_compat_r; [apply pow2_pos |]. rewrite <- Zlt_Qlt. lia. }
    split; [lia | lra].
Qed.

(** The risk tier that the engine derives from a calibrated confidence, in
    terms of the raw one. *)
Lemma adjust_risk_by_raw (h : Q) (c : Z) :
  is_double h → (0 <= h)%Q →
  scale_confidence (Finite h) = Ok c →
  adjust_risk (inject_Z c) = risk_label (risk_by_raw h).
Proof.
  intros Hh Hh0 Hc. rewrite adjust_risk_table. f_equal.
  assert (c <= 40 ↔ (h <= low_max)%Q) as H40.
  { rewrite (scale_confidence_cut h c 7232781001557016 (-2) 40 Hh Hh0 Hc);
      [| lia | by vm_compute | by vm_compute
       | vm_compute; reflexivity | vm_compute; reflexivity].
    assert (inject_Z 7232781001557016 * 2 ^ (-2 - 52) == low_max)%Q as ->
      by (by vm_compute).
    done. }
  assert (c <= 60 ↔ (h <= medium_max)%Q) as H60.
  { rewrite (scale_confidence_cut h c 8313644912125935 (-2) 60 Hh Hh0 Hc);
      [| lia | by vm_compute | by vm_compute
       | vm_compute; reflexivity | vm_compute; reflexivity].
    assert (inject_Z 8313644912125935 * 2 ^ (-2 - 52) == medium_max)%Q as ->
      by (by vm_compute).
    done. }
  assert (c <= 75 ↔ (h <= high_max)%Q) as H75.
  { rewrite (scale_confidence_cut h c 4562146422526312 (-1) 75 Hh Hh0 Hc);
      [| lia | by vm_compute | by vm_compute
       | vm_compute; reflexivity | vm_compute; reflexivity].
    assert (inject_Z 4562146422526312 * 2 ^ (-1 - 52) == high_max)%Q as ->
      by (by vm_compute).
    done. }
  unfold risk_table, risk_by_raw.
  destruct (Z.leb_spec c 40), (Z.leb_spec c 60), (Z.leb_spec c 75);
    destruct (Qleb h low_max) eqn:E1;
    destruct (Qleb h medium_max) eqn:E2;
    destruct (Qleb h high_max) eqn:E3;
    try reflexivity; exfalso;
    rewrite ?Qleb_le, ?Qleb_gt in *;
    try lia; intuition (lia || lra).
Qed.

End ScaleMore.

(** ** [process_video_and_summarize] and [predict_video] *)

Module ReconcilerMore.
Import Py PyFacts B64 Genai Derived Main.
Import FloatFacts EngineFacts ReconcilerFacts VerdictFacts ScaleMore.

Lemma conclusion_analysis_agree (a b : gmap string value) :
  get a "confidence" (VInt 0) = get b "confidence" (VInt 0) →
  get a "rockSize" (VStr "Unknown") = get b "rockSize" (VStr "Unknown") →
  get a "trajectory" (VStr "Unknown") = get b "trajectory" (VStr "Unknown") →
  conclusion_analysis a = conclusion_analysis b.
Proof. intros Hc Hr Ht. unfold conclusion_analysis. by rewrite Hc, Hr, Ht. Qed.

Lemma get_singleton_eq (k : string) (v d : value) :
  get ({[ k := v ]} : gmap string value) k d = v.
Proof. unfold get. by rewrite lookup_singleton_eq. Qed.

Lemma seed_analysis_get summary :
  get (seed_analysis summary) "confidence" (VInt 0) =
    get summary "confidence" (VInt 0) ∧
  get (seed_analysis summary) "rockSize" (VStr "Unknown") =
    get summary "rockSize" (VStr "Unknown") ∧
  get (seed_analysis summary) "trajectory" (VStr "Unknown") =
    get summary "trajectory" (VStr "Unknown").
Proof. unfold seed_analysis. split_and!; by get_fields. Qed.

(** What the summary contributes to the seed: the scaled highest confidence
    and, from a reply that is a JSON object, the reply's two hints. *)
Lemma summary_fields predictions reply h c summary :
  scan_frames 0 predictions = Ok h →
  scale_confidence (Finite h) = Ok c →
  summarize_with_gemini predictions reply = Ok summary →
  get summary "confidence" (VInt 0) = VInt c ∧
  let hint key :=
    match reply with
    | ReplyText (VDict d) => get d key (VStr "Unknown")
    | _ => VStr "Unknown"
    end in
  get summary "rockSize" (VStr "Unknown") = hint "rockSize" ∧
  get summary "trajectory" (VStr "Unknown") = hint "trajectory".
Proof.
  intros Hscan Hc. unfold summarize_with_gemini. rewrite Hscan.
  cbn [mbind result_bind]. unfold try_summarize. rewrite Hc.
  destruct reply as [msg | v]; cbn.
  { intros [= <-]. unfold fallback_summary, get. by simplify_map_eq. }
  destruct (truthy v) eqn:Htruthy; cbn.
  - destruct v; cbn; intros [= <-];
      unfold fallback_summary, get; by simplify_map_eq.
  - intros [= <-].
    destruct v; try (unfold fallback_summary, get; by simplify_map_eq).
    cbn in Htruthy. apply negb_false_iff, bool_decide_eq_true in Htruthy.
    apply map_size_empty_iff in Htruthy as ->.
    unfold fallback_summary, get. by simplify_map_eq.
Qed.

(** The answer of the pipeline once the detections have been scanned. *)
Lemma pipeline_answer predictions reply h :
  scan_frames 0 predictions = Ok h →
  ∃ summary final,
    summarize_with_gemini predictions reply = Ok summary ∧
    conclusion_analysis (seed_analysis summary) = Ok final ∧
    process_video_and_summarize (Ok predictions) reply =
      Ok {[ "success" := VBool true; "analysis" := VDict final ]}.
Proof.
  intros Hscan.
  destruct (scale_scanned predictions h Hscan) as (c & Hc & _).
  destruct (summarize_confidence predictions reply h c Hscan Hc)
    as (summary & Hsum & Hconf).
  exists summary. eexists. split; [exact Hsum |].
  assert (as_num (get (seed_analysis summary) "confidence" (VInt 0)) =
          Some (inject_Z c)) as Hnum.
  { destruct (seed_analysis_get summary) as (-> & _). unfold get.
    by rewrite Hconf. }
  split; [by apply conclusion_analysis_ok |].
  cbn. rewrite Hsum. cbn. by rewrite (conclusion_analysis_ok _ _ Hnum).
Qed.

(** The final analysis in terms of the scanned confidence and the hints. *)
Lemma pipeline_fields predictions reply h c :
  scan_frames 0 predictions = Ok h →
  scale_confidence (Finite h) = Ok c →
  ∃ final,
    process_video_and_summarize (Ok predictions) reply =
      Ok {[ "success" := VBool true; "analysis" := VDict final ]} ∧
    let hint key :=
      match reply with
      | ReplyText (VDict d) => get d key (VStr "Unknown")
      | _ => VStr "Unknown"
      end in
    conclusion_analysis
      {[ "confidence" := VInt c;
         "rockSize" := hint "rockSize";
         "trajectory" := hint "trajectory" ]} = Ok final.
Proof.
  intros Hscan Hscale.
  destruct (pipeline_answer predictions reply h Hscan)
    as (summary & final & Hsum & Hfinal & Hrun).
  exists final. split; [exact Hrun |]. cbn. rewrite <- Hfinal.
  destruct (summary_fields _ _ _ _ _ Hscan Hscale Hsum) as (Hc & Hr & Ht).
  destruct (seed_analysis_get summary) as (Hc' & Hr' & Ht').
  apply conclusion_analysis_agree; get_fields;
    [by rewrite Hc', Hc | by rewrite Hr', Hr | by rewrite Ht', Ht].
Qed.

Lemma scanned_is_highest predictions :
  Forall (λ item, Forall detection item.2) predictions →
  ∃ h c, scan_frames 0 predictions = Ok h ∧
         scale_confidence (Finite h) = Ok c ∧
         is_highest h (raw_confidences predictions) ∧
         (h = 0%Q ∨ h ∈ raw_confidences predictions).
Proof.
  intros Hdet.
  destruct (scan_frames_ok predictions 0%Q Hdet) as (h & Hscan & _ & Hub & Hmem).
  destruct (scale_scanned predictions h Hscan) as (c & Hc & _).
  exists h, c. split_and!; [exact Hscan | exact Hc | | exact Hmem].
  apply is_highest_intro; [by apply detections_nonneg | done | done].
Qed.

(** X11.  The final risk level in terms of the highest raw confidence [h],
    for detections whose confidences are doubles and whatever the advisory
    reply: Low up to 0.40149999999999997 (the double just below the one
    nearest to 0.4015), Medium up to 0.46149999999999997, High up to the
    double nearest to 0.5065, and Very High above it. *)
Theorem risk_by_raw_confidence
    (predictions : list (string * list (gmap string value)))
    (reply : gemini_reply) :
  Forall (λ item, Forall detection item.2) predictions →
  Forall is_double (raw_confidences predictions) →
  ∃ h final,
    is_highest h (raw_confidences predictions) ∧
    process_video_and_summarize (Ok predictions) reply =
      Ok {[ "success" := VBool true; "analysis" := VDict final ]} ∧
    final !! "riskLevel" = Some (VStr (risk_label (risk_by_raw h))).
Proof.
  intros Hdet Hdoubles.
  destruct (scanned_is_highest _ Hdet) as (h & c & Hscan & Hc & Hhigh & Hmem).
  destruct (pipeline_fields predictions reply h c Hscan Hc)
    as (final & Hrun & Hfinal).
  exists h, final. split_and!; [done | done |].
  cbn in Hfinal.
  rewrite (conclusion_analysis_ok _ (inject_Z c)) in Hfinal by by get_fields.
  injection Hfinal as <-. rewrite lookup_insert_eq.
  rewrite (adjust_risk_by_raw h c); [done | | | exact Hc].
  - destruct Hmem as [-> | Hin]; [split; by vm_compute |].
    rewrite Forall_forall in Hdoubles. by apply Hdoubles.
  - by apply scan_frames_ge in Hscan.
Qed.

(** One detection of confidence 0.5: High. *)
Lemma risk_by_raw_confidence_witness :
  ∃ h final,
    is_highest h (raw_confidences [("frame_0", [rock_pred (1 # 2)])]) ∧
    process_video_and_summarize (Ok [("frame_0", [rock_pred (1 # 2)])])
      sample_reply =
      Ok {[ "success" := VBool true; "analysis" := VDict final ]} ∧
    final !! "riskLevel" = Some (VStr (risk_label (risk_by_raw h))).
Proof.
  apply (risk_by_raw_confidence [("frame_0", [rock_pred (1 # 2)])]
           sample_reply).
  - constructor; [cbn | constructor].
    constructor; [| constructor].
    split; [by eexists | exists (1 # 2)%Q].
    split_and!; [reflexivity | discriminate | discriminate].
  - constructor; [| constructor]. split; by vm_compute.
Defined.

Lemma raw_confidences_perm predictions1 predictions2 :
  predictions1 ≡ₚ predictions2 →
  raw_confidences predictions1 ≡ₚ raw_confidences predictions2.
Proof.
  unfold raw_confidences. induction 1 as [| x l1 l2 _ IH | x y l | l1 l2 l3 _ IH1 _ IH2]; cbn.
  - done.
  - by rewrite IH.
  - rewrite !app_assoc. f_equiv. apply Permutation_app_comm.
  - by rewrite IH1.
Qed.

Lemma is_highest_perm h1 h2 confs1 confs2 :
  confs1 ≡ₚ confs2 → is_highest h1 confs1 → is_highest h2 confs2 →
  (h1 == h2)%Q.
Proof.
  intros Hperm H1 H2.
  assert (∀ ha hb (la lb : list Q), la ≡ₚ lb →
            Exists (λ c, (c == ha)%Q) la → Forall (λ c, (c <= hb)%Q) lb →
            (ha <= hb)%Q) as Hle.
  { intros ha hb la lb Hp (c & Hc & Heq)%Exists_exists Hub.
    rewrite Hp in Hc. rewrite Forall_forall in Hub.
    specialize (Hub c Hc). cbn in Hub. lra. }
  destruct confs1 as [| c1 confs1], confs2 as [| c2 confs2].
  - cbn in H1, H2. lra.
  - by apply Permutation_nil_cons in Hperm.
  - symmetry in Hperm. by apply Permutation_nil_cons in Hperm.
  - destruct H1 as [Hex1 Hub1], H2 as [Hex2 Hub2].
    apply Qle_antisym; [by eapply Hle | eapply Hle; [symmetry | ..]; done].
Qed.

Lemma summarize_scale predictions1 predictions2 reply h1 h2 :
  scan_frames 0 predictions1 = Ok h1 →
  scan_frames 0 predictions2 = Ok h2 →
  scale_confidence (Finite h1) = scale_confidence (Finite h2) →
  summarize_with_gemini predictions1 reply =
    summarize_with_gemini predictions2 reply.
Proof.
  intros Hs1 Hs2 Hscale. unfold summarize_with_gemini.
  rewrite Hs1, Hs2. cbn.
  unfold try_summarize, fallback_summary. by rewrite Hscale.
Qed.

(** X12.  The answer does not depend on the order in which the frames
    appear in the predictions: for well-formed detections and the same
    advisory reply, permuted predictions give the same answer. *)
Theorem answer_ignores_frame_order
    (predictions1 predictions2 : list (string * list (gmap string value)))
    (reply : gemini_reply) :
  Forall (λ item, Forall detection item.2) predictions1 →
  predictions1 ≡ₚ predictions2 →
  process_video_and_summarize (Ok predictions1) reply =
    process_video_and_summarize (Ok predictions2) reply.
Proof.
  intros Hdet1 Hperm.
  assert (Forall (λ item, Forall detection item.2) predictions2) as Hdet2
    by by rewrite <- Hperm.
  destruct (scanned_is_highest _ Hdet1) as (h1 & c1 & Hs1 & _ & Hh1 & _).
  destruct (scanned_is_highest _ Hdet2) as (h2 & c2 & Hs2 & _ & Hh2 & _).
  cbn. rewrite (summarize_scale _ _ reply _ _ Hs1 Hs2); [done |].
  apply scale_confidence_proper.
  by apply (is_highest_perm _ _ _ _ (raw_confidences_perm _ _ Hperm)).
Qed.

(** Two frames in either order. *)
Lemma answer_ignores_frame_order_witness :
  process_video_and_summarize
    (Ok [("frame_1", []); ("frame_0", [rock_pred (8 # 10)])]) sample_reply =
  process_video_and_summarize
    (Ok [("frame_0", [rock_pred (8 # 10)]); ("frame_1", [])]) sample_reply.
Proof.
  apply answer_ignores_frame_order.
  - constructor; [constructor |]. constructor; [| constructor].
    constructor; [| constructor].
    split; [by eexists | exists (8 # 10)%Q].
    split_and!; [reflexivity | discriminate | discriminate].
  - apply Permutation_swap.
Defined.

(** X13.  Of an advisory reply that is a JSON object only the trajectory
    and the rock size can reach the answer: two such replies that agree on
    these two keys give the same answer, whatever risk level, confidence,
    recommendations or other keys they carry. *)
Theorem advisory_reaches_two_hints
    (predictions : list (string * list (gmap string value)))
    (d1 d2 : gmap string value) :
  d1 !! "trajectory" = d2 !! "trajectory" →
  d1 !! "rockSize" = d2 !! "rockSize" →
  process_video_and_summarize (Ok predictions) (ReplyText (VDict d1)) =
    process_video_and_summarize (Ok predictions) (ReplyText (VDict d2)).
Proof.
  intros Htraj Hrock.
  destruct (scan_frames 0 predictions) as [h | e] eqn:Hscan.
  - destruct (scale_scanned predictions h Hscan) as (c & Hc & _).
    destruct (pipeline_fields predictions (ReplyText (VDict d1)) h c Hscan Hc)
      as (final1 & -> & Hfinal1).
    destruct (pipeline_fields predictions (ReplyText (VDict d2)) h c Hscan Hc)
      as (final2 & -> & Hfinal2).
    cbn in Hfinal1, Hfinal2. unfold get in Hfinal1.
    rewrite Htraj, Hrock in Hfinal1. fold (get d2 "rockSize" (VStr "Unknown")) in Hfinal1.
    fold (get d2 "trajectory" (VStr "Unknown")) in Hfinal1.
    rewrite Hfinal1 in Hfinal2. by injection Hfinal2 as ->.
  - cbn. unfold summarize_with_gemini. by rewrite Hscan.
Qed.

Lemma advisory_reaches_two_hints_witness :
  process_video_and_summarize (Ok sample_predictions) sample_reply =
    process_video_and_summarize (Ok sample_predictions)
      (ReplyText (VDict {[ "rockSize" := VStr "Small";
                           "recommendations" := VList [VStr "Ignore it"] ]})).
Proof. apply advisory_reaches_two_hints; reflexivity. Defined.

(** X14.  A trajectory or rock size given by the advisory reply reaches the
    answer as it is, whatever value it is, unless it is the string
    "Unknown". *)
Theorem advisory_hints_pass_through
    (predictions : list (string * list (gmap string value)))
    (d : gmap string value) (key : string) (hint : value) :
  Forall (λ item, Forall detection item.2) predictions →
  key = "trajectory" ∨ key = "rockSize" →
  d !! key = Some hint →
  eq_str hint "Unknown" = false →
  ∃ final,
    process_video_and_summarize (Ok predictions) (ReplyText (VDict d)) =
      Ok {[ "success" := VBool true; "analysis" := VDict final ]} ∧
    final !! key = Some hint.
Proof.
  intros Hdet Hkey Hd Hknown.
  destruct (scanned_is_highest _ Hdet) as (h & c & Hscan & Hc & _).
  destruct (pipeline_fields predictions (ReplyText (VDict d)) h c Hscan Hc)
    as (final & Hrun & Hfinal).
  exists final. split; [exact Hrun |]. cbn in Hfinal.
  rewrite (conclusion_analysis_ok _ (inject_Z c)) in Hfinal by by get_fields.
  injection Hfinal as <-. get_fields. rewrite get_singleton_eq.
  destruct Hkey as [-> | ->].
  - do 2 rewrite lookup_insert_ne by done. rewrite lookup_insert_eq.
    unfold get. rewrite Hd. cbn. unfold adjust_trajectory. by rewrite Hknown.
  - do 3 rewrite lookup_insert_ne by done. rewrite lookup_insert_eq.
    unfold get. rewrite Hd. cbn. unfold adjust_rock_size. by rewrite Hknown.
Qed.

(** A rock size outside the vocabulary. *)
Lemma advisory_hints_pass_through_witness :
  ∃ final,
    process_video_and_summarize (Ok sample_predictions)
      (ReplyText (VDict {[ "rockSize" := VStr "boulder" ]})) =
      Ok {[ "success" := VBool true; "analysis" := VDict final ]} ∧
    final !! "rockSize" = Some (VStr "boulder").
Proof.
  apply (advisory_hints_pass_through sample_predictions
           {[ "rockSize" := VStr "boulder" ]} "rockSize" (VStr "boulder"));
    [| by right | reflexivity | reflexivity].
  constructor; [cbn | constructor].
  constructor; [| constructor].
  split; [by eexists | exists (8 # 10)%Q].
  split_and!; [reflexivity | discriminate | discriminate].
Defined.

(** X15.  When the advisory step fails (the collaborator raised, or its
    text is anything but a non-empty JSON object), the answer is the verdict
    without hints for what [scale_confidence] returns on the highest raw
    confidence. *)
Theorem failed_advisory_gives_default_verdict
    (predictions : list (string * list (gmap string value)))
    (reply : gemini_reply) :
  Forall (λ item, Forall detection item.2) predictions →
  match reply with
  | ReplyText (VDict d) => size d = 0%nat
  | _ => True
  end →
  ∃ h c,
    is_highest h (raw_confidences predictions) ∧
    scale_confidence (Finite h) = Ok c ∧
    process_video_and_summarize (Ok predictions) reply =
      Ok {[ "success" := VBool true;
            "analysis" := VDict (default_verdict c) ]}.
Proof.
  intros Hdet Hfail.
  destruct (scanned_is_highest _ Hdet) as (h & c & Hscan & Hc & Hhigh & _).
  destruct (pipeline_fields predictions reply h c Hscan Hc)
    as (final & Hrun & Hfinal).
  exists h, c. split; [exact Hhigh |]. split; [exact Hc |]. cbn in Hfinal.
  assert (∀ key, match reply with
                 | ReplyText (VDict d) => get d key (VStr "Unknown")
                 | _ => VStr "Unknown"
                 end = VStr "Unknown") as Hhint.
  { intros key. destruct reply as [| []]; try done.
    apply map_size_empty_iff in Hfail as ->. done. }
  rewrite !Hhint in Hfinal.
  rewrite (conclusion_analysis_ok _ (inject_Z c)) in Hfinal by by get_fields.
  injection Hfinal as <-. rewrite Hrun. get_fields.
  rewrite get_singleton_eq. by rewrite default_verdict_eq.
Qed.

(** A reply that is not JSON, after one detection of confidence 0.80. *)
Lemma failed_advisory_gives_default_verdict_witness :
  ∃ h c,
    is_highest h (raw_confidences sample_predictions) ∧
    scale_confidence (Finite h) = Ok c ∧
    process_video_and_summarize (Ok sample_predictions) (ReplyText VNone) =
      Ok {[ "success" := VBool true;
            "analysis" := VDict (default_verdict c) ]}.
Proof.
  apply (failed_advisory_gives_default_verdict sample_predictions
           (ReplyText VNone)); [| exact I].
  constructor; [cbn | constructor].
  constructor; [| constructor].
  split; [by eexists | exists (8 # 10)%Q].
  split_and!; [reflexivity | discriminate | discriminate].
Defined.

End ReconcilerMore.

(** ** [predict_video] *)

Module MainFacts.
Import Py PyFacts B64 Genai Derived Main.
Import EngineFacts ReconcilerFacts VerdictFacts ReconcilerMore.

Lemma scan_preds_app preds1 preds2 : ∀ h0,
  scan_preds h0 (preds1 ++ preds2) =
    h ← scan_preds h0 preds1; scan_preds h preds2.
Proof.
  induction preds1 as [| p preds1 IH]; intros h0; cbn; [done |].
  destruct (scan_pred h0 p); cbn; [apply IH | done].
Qed.

Lemma scan_frames_app items1 items2 : ∀ h0,
  scan_frames h0 (items1 ++ items2) =
    h ← scan_frames h0 items1; scan_frames h items2.
Proof.
  induction items1 as [| [frame preds] items1 IH]; intros h0; cbn; [done |].
  destruct (scan_preds h0 preds); cbn; [apply IH | done].
Qed.


(** X17.  One detection without a "class" makes the whole answer a
    failure, whatever comes before or after it and whatever the advisory
    reply: the scan of the detections is outside the [try] block. *)
Theorem missing_class_fails_answer
    (before after : list (string * list (gmap string value)))
    (frame : string) (preds_before preds_after : list (gmap string value))
    (pred : gmap string value) (reply : gemini_reply) :
  Forall (λ item, Forall detection item.2) before →
  Forall detection preds_before →
  pred !! "class" = None →
  predict_video
    (Ok (before ++ (frame, preds_before ++ pred :: preds_after) :: after))
    reply =
    {[ "success" := VBool false;
       "error" := VStr "❌ Video processing failed: 'class'" ]}.
Proof.
  intros Hbefore Hpreds Hclass.
  destruct (scan_frames_ok before 0%Q Hbefore) as (h1 & Hscan1 & _).
  destruct (scan_preds_ok preds_before h1 Hpreds) as (h2 & Hscan2 & _).
  unfold predict_video, process_video_and_summarize, summarize_with_gemini.
  rewrite scan_frames_app, Hscan1. cbn.
  rewrite scan_preds_app, Hscan2. cbn.
  unfold scan_pred. by rewrite Hclass.
Qed.

(** A detection without a class after a complete one. *)
Lemma missing_class_fails_answer_witness :
  predict_video
    (Ok [("frame_0", [rock_pred (8 # 10); {[ "confidence" := VFloat (9 # 10) ]}])])
    sample_reply =
    {[ "success" := VBool false;
       "error" := VStr "❌ Video processing failed: 'class'" ]}.
Proof.
  apply (missing_class_fails_answer [] [] "frame_0" [rock_pred (8 # 10)] []
           {[ "confidence" := VFloat (9 # 10) ]} sample_reply).
  - constructor.
  - constructor; [| constructor].
    split; [by eexists | exists (8 # 10)%Q].
    split_and!; [reflexivity | discriminate | discriminate].
  - reflexivity.
Defined.

End MainFacts.

(** ** Chatbot.py: [trim_history] and [extract_all_json] *)

Module ChatbotFacts.
Import Py Chatbot.

Lemma slice_from_last {A} (l : list A) (k : Z) :
  0 < k →
  slice_from l (- k) = drop (Z.to_nat (Z.of_nat (length l) - k)) l.
Proof.
  intros Hk. unfold slice_from.
  destruct (Z.ltb_spec (- k) 0); [| lia]. f_equal. lia.
Qed.

(** X18.  With a bound of at least 2, [trim_history] returns the history
    itself when it fits, and otherwise its first message followed by its
    last [max_len - 1] messages: the result has [min(len, max_len)]
    messages, starts with the same message, and trimming it again changes
    nothing. *)
Theorem trim_history_bounds {A} (msgs : list A) (max_len : Z) :
  2 <= max_len →
  ∃ out,
    trim_history msgs max_len = Ok out ∧
    Z.of_nat (length out) = Z.min (Z.of_nat (length msgs)) max_len ∧
    out !! 0%nat = msgs !! 0%nat ∧
    (max_len < Z.of_nat (length msgs) →
       drop 1 out =
         drop (Z.to_nat (Z.of_nat (length msgs) - (max_len - 1))) msgs) ∧
    trim_history out max_len = Ok out.
Proof.
  intros Hmax. unfold trim_history at 1.
  destruct (Z.leb_spec (Z.of_nat (length msgs)) max_len) as [Hfit | Hlong].
  - exists msgs. split_and!; [done | lia | done | lia |].
    unfold trim_history. by rewrite (proj2 (Z.leb_le _ _) Hfit).
  - destruct msgs as [| first msgs]; [cbn in Hlong; lia |].
    eexists. split; [reflexivity |].
    rewrite slice_from_last by lia.
    assert (Z.of_nat (length ([first] ++
              drop (Z.to_nat (Z.of_nat (length (first :: msgs)) - (max_len - 1)))
                (first :: msgs))) = max_len) as Hlen.
    { cbn [app length] in Hlong |- *. rewrite length_drop. cbn [length]. lia. }
    split_and!; [lia | done | done |].
    unfold trim_history. by rewrite (proj2 (Z.leb_le _ _)) by lia.
Qed.

(** Twelve messages against the bound of 10. *)
Lemma trim_history_bounds_witness :
  ∃ out,
    trim_history (seq 0 12) MAX_MESSAGES = Ok out ∧
    Z.of_nat (length out) = Z.min (Z.of_nat (length (seq 0 12))) MAX_MESSAGES ∧
    out !! 0%nat = seq 0 12 !! 0%nat ∧
    (MAX_MESSAGES < Z.of_nat (length (seq 0 12)) →
       drop 1 out =
         drop (Z.to_nat (Z.of_nat (length (seq 0 12)) - (MAX_MESSAGES - 1)))
           (seq 0 12)) ∧
    trim_history out MAX_MESSAGES = Ok out.
Proof. apply (trim_history_bounds (seq 0 12) MAX_MESSAGES). done. Defined.

Lemma trim_history_snoc {A} (msgs : list A) (msg : A) (max_len : Z) :
  2 <= max_len →
  msgs ≠ [] →
  Z.of_nat (length msgs) <= max_len →
  ∃ kept,
    trim_history (msgs ++ [msg]) max_len = Ok (kept ++ [msg]) ∧
    kept ≠ [] ∧
    kept !! 0%nat = msgs !! 0%nat ∧
    Z.of_nat (length kept) + 1 <= max_len ∧
    (3 <= max_len → last kept = last msgs).
Proof.
  intros Hmax Hne Hfit. unfold trim_history.
  rewrite length_app. cbn [length].
  destruct (Z.leb_spec (Z.of_nat (length msgs + 1)) max_len) as [Hfit' | Hlong].
  { exists msgs. split_and!; [done | done | done | lia | done]. }
  destruct msgs as [| first msgs]; [done |]. cbn [app lookup list_lookup].
  exists (first :: drop 1 msgs).
  change (first :: msgs ++ [msg]) with ((first :: msgs) ++ [msg]).
  rewrite slice_from_last by lia.
  rewrite length_app. cbn [length] in Hfit, Hlong |- *.
  replace (Z.to_nat (Z.of_nat (S (length msgs) + 1) - (max_len - 1)))
    with 2%nat by lia.
  rewrite drop_app_le by (cbn; lia).
  split_and!; [done | done | done | cbn [length]; rewrite length_drop; lia |].
  intros Hthree. destruct msgs as [| second [| third msgs]]; [cbn in *; lia .. |].
  cbn [drop]. by rewrite !last_cons_cons.
Qed.

(** X19.  Appending one message to a non-empty history within the bound
    (at least 2) and trimming keeps the history within the bound, keeps its
    first message, and keeps the new message as the last one. *)
Theorem trim_history_after_append {A} (msgs : list A) (msg : A) (max_len : Z) :
  2 <= max_len →
  msgs ≠ [] →
  Z.of_nat (length msgs) <= max_len →
  ∃ out,
    trim_history (msgs ++ [msg]) max_len = Ok out ∧
    Z.of_nat (length out) <= max_len ∧
    out !! 0%nat = msgs !! 0%nat ∧
    last out = Some msg.
Proof.
  intros Hmax Hne Hfit.
  destruct (trim_history_snoc msgs msg max_len Hmax Hne Hfit)
    as (kept & Htrim & Hkept & Hfirst & Hlen & _).
  exists (kept ++ [msg]). split_and!; [done | | | apply last_snoc].
  - rewrite length_app. cbn [length]. lia.
  - rewrite <- Hfirst. by destruct kept.
Qed.

Lemma trim_history_after_append_witness :
  ∃ out,
    trim_history (seq 0 10 ++ [99%nat]) MAX_MESSAGES = Ok out ∧
    Z.of_nat (length out) <= MAX_MESSAGES ∧
    out !! 0%nat = seq 0 10 !! 0%nat ∧
    last out = Some 99%nat.
Proof. apply (trim_history_after_append (seq 0 10) 99%nat MAX_MESSAGES); done. Defined.

(** X20.  With a bound of 1 the slice [msgs[-0:]] is the whole list: a
    history of two or more messages comes back one message longer, its
    first message doubled. *)
Theorem trim_history_bound_one {A} (msgs : list A) :
  (2 <= length msgs)%nat →
  ∃ first,
    msgs !! 0%nat = Some first ∧
    trim_history msgs 1 = Ok (first :: msgs).
Proof.
  intros Hlen. destruct msgs as [| first msgs]; [cbn in Hlen; lia |].
  exists first. split; [done |]. unfold trim_history.
  destruct (Z.leb_spec (Z.of_nat (length (first :: msgs))) 1) as [Hle | _];
    [cbn in Hlen, Hle; lia |].
  cbn [lookup list_lookup]. unfold slice_from. cbn [Z.sub Z.opp Z.ltb Z.compare].
  by rewrite Z.min_l by lia.
Qed.

Lemma trim_history_bound_one_witness :
  ∃ first,
    [1; 2; 3]%nat !! 0%nat = Some first ∧
    trim_history [1; 2; 3]%nat 1 = Ok (first :: [1; 2; 3]%nat).
Proof. apply (trim_history_bound_one [1; 2; 3]%nat). cbn. lia. Defined.

Section extract.
Variable json_loads : list ascii → option value.

Lemma slice_pending (before after : list ascii) (ch : ascii) (first : nat) :
  (first ≤ length before)%nat →
  slice (before ++ ch :: after) first (length before + 1) =
    drop first before ++ [ch].
Proof.
  intros Hfirst. unfold slice.
  rewrite drop_app_le by done.
  replace (drop first before ++ ch :: after)
    with ((drop first before ++ [ch]) ++ after) by (by rewrite <- app_assoc).
  apply take_app_length'. rewrite length_app, length_drop. cbn. lia.
Qed.

(** The loop by positions agrees with the loop that carries the text of
    the pending candidate. *)
Lemma extract_loop_scan (rest before : list ascii) (start : option nat)
    (depth : Z) (results : list value) :
  (∀ first, start = Some first → (first ≤ length before)%nat) →
  extract_loop json_loads (before ++ rest) rest (length before) start depth
    results =
  results ++ scan json_loads rest ((λ first, drop first before) <$> start) depth.
Proof.
  revert before start depth results.
  induction rest as [| ch rest IH]; intros before start depth results Hstart.
  { cbn. by rewrite app_nil_r. }
  assert (∀ start' depth' results',
    (∀ first, start' = Some first → (first ≤ length (before ++ [ch]))%nat) →
    extract_loop json_loads (before ++ ch :: rest) rest (S (length before))
      start' depth' results' =
    results' ++ scan json_loads rest
      ((λ first, drop first (before ++ [ch])) <$> start') depth') as IH'.
  { intros start' depth' results' Hstart'.
    specialize (IH (before ++ [ch]) start' depth' results' Hstart').
    rewrite <- app_assoc, length_app in IH. cbn [app length] in IH.
    by rewrite Nat.add_1_r in IH. }
  assert (∀ first, start = Some first →
            (first ≤ length (before ++ [ch]))%nat) as Hstart'.
  { intros first Hfirst. rewrite length_app. specialize (Hstart first Hfirst). lia. }
  assert ((λ first, drop first (before ++ [ch])) <$> start =
          (λ text, text ++ [ch]) <$> ((λ first, drop first before) <$> start))
    as Hpending.
  { destruct start as [first |]; [| done]. cbn.
    by rewrite drop_app_le by (by apply Hstart). }
  cbn [extract_loop scan].
  destruct (Ascii.eqb ch "{"%char).
  - destruct (depth =? 0).
    + rewrite IH'; [| intros first [= <-]; rewrite length_app; lia].
      cbn. by rewrite drop_app_length.
    + rewrite IH' by done. by rewrite Hpending.
  - destruct (Ascii.eqb ch "}"%char).
    + destruct start as [first |]; cbn [fmap option_fmap option_map].
      * destruct (depth - 1 =? 0).
        -- rewrite slice_pending by (by apply Hstart).
           rewrite IH' by done. cbn [fmap option_fmap option_map].
           destruct (json_loads _); cbn [option_list]; by rewrite <- ?app_assoc.
        -- rewrite IH' by done. cbn.
           by rewrite drop_app_le by (by apply Hstart).
      * by rewrite IH'.
    + rewrite IH' by done. by rewrite Hpending.
Qed.

Lemma extract_all_json_scan (text : list ascii) :
  extract_all_json json_loads text = scan json_loads text None 0.
Proof.
  unfold extract_all_json.
  by apply (extract_loop_scan text [] None 0 []).
Qed.

Lemma scan_brace_free (gap rest : list ascii) (pending : option (list ascii))
    (depth : Z) :
  brace_free gap →
  scan json_loads (gap ++ rest) pending depth =
    scan json_loads rest ((λ text, text ++ gap) <$> pending) depth.
Proof.
  intros Hgap. revert pending.
  induction Hgap as [| ch gap [Hopen Hclose] _ IH]; intros pending.
  { destruct pending; cbn; by rewrite ?app_nil_r. }
  cbn [app scan].
  rewrite (proj2 (Ascii.eqb_neq _ _) Hopen), (proj2 (Ascii.eqb_neq _ _) Hclose).
  rewrite IH. destruct pending; cbn; by rewrite <- ?app_assoc.
Qed.

Lemma scan_balanced (body rest text : list ascii) (depth : Z) :
  balanced body →
  1 <= depth →
  scan json_loads (body ++ rest) (Some text) depth =
    scan json_loads rest (Some (text ++ body)) depth.
Proof.
  intros Hbody. revert rest text depth.
  induction Hbody as [| ch body Hopen Hclose _ IH | inner body _ IHinner _ IH];
    intros rest text depth Hdepth.
  - cbn. by rewrite app_nil_r.
  - cbn [app scan].
    rewrite (proj2 (Ascii.eqb_neq _ _) Hopen), (proj2 (Ascii.eqb_neq _ _) Hclose).
    cbn. rewrite IH by done. by rewrite <- app_assoc.
  - cbn [app scan]. rewrite Ascii.eqb_refl.
    destruct (Z.eqb_spec depth 0) as [-> | _]; [lia |]. cbn.
    rewrite <- app_assoc. rewrite IHinner by lia.
    cbn [app scan].
    change (Ascii.eqb "}"%char "{"%char) with false. cbn match.
    rewrite Ascii.eqb_refl.
    destruct (Z.eqb_spec (depth + 1 - 1) 0) as [Hzero | _]; [lia |].
    replace (depth + 1 - 1) with depth by lia.
    rewrite IH by done. by rewrite <- !app_assoc.
Qed.

(** X21.  After a text without braces, a brace group with balanced content
    is handed to [json.loads] as one candidate, braces included (nested
    groups are not candidates of their own); its value, if it parses, comes
    first, and the text behind the group is scanned like a text of its
    own. *)
Theorem extract_all_json_group (gap body rest : list ascii) :
  brace_free gap →
  balanced body →
  extract_all_json json_loads (gap ++ "{"%char :: body ++ "}"%char :: rest) =
    option_list (json_loads ("{"%char :: body ++ ["}"%char])) ++
    extract_all_json json_loads rest.
Proof.
  intros Hgap Hbody. rewrite !extract_all_json_scan.
  rewrite scan_brace_free by done.
  cbn [fmap option_fmap option_map scan].
  rewrite Ascii.eqb_refl. cbn.
  rewrite scan_balanced by done.
  cbn [scan]. change (Ascii.eqb "}"%char "{"%char) with false. cbn match.
  by rewrite Ascii.eqb_refl.
Qed.

(** X22.  A closing brace met outside any group leaves the depth at -1, and
    a brace group without nested braces that follows it is not a candidate:
    the text is scanned as if that group were not there. *)
Theorem stray_brace_hides_group (gap mid body rest : list ascii) :
  brace_free gap →
  brace_free mid →
  brace_free body →
  extract_all_json json_loads
    (gap ++ "}"%char :: mid ++ "{"%char :: body ++ "}"%char :: rest) =
  extract_all_json json_loads (gap ++ "}"%char :: rest).
Proof.
  intros Hgap Hmid Hbody. rewrite !extract_all_json_scan.
  rewrite !scan_brace_free by done.
  cbn [fmap option_fmap option_map scan].
  change (Ascii.eqb "}"%char "{"%char) with false. cbn match.
  rewrite Ascii.eqb_refl.
  rewrite scan_brace_free by done.
  cbn [fmap option_fmap option_map scan].
  rewrite Ascii.eqb_refl. cbn.
  rewrite scan_brace_free by done.
  cbn [fmap option_fmap option_map scan].
  change (Ascii.eqb "}"%char "{"%char) with false. cbn match.
  by rewrite Ascii.eqb_refl.
Qed.

(** X23.  An opening brace that is never closed swallows the rest of the
    text: nothing behind it is extracted, however many complete groups
    follow. *)
Theorem unclosed_brace_swallows (gap rest : list ascii) :
  brace_free gap →
  balanced rest →
  extract_all_json json_loads (gap ++ "{"%char :: rest) = [].
Proof.
  intros Hgap Hrest. rewrite extract_all_json_scan.
  rewrite scan_brace_free by done.
  cbn [fmap option_fmap option_map scan].
  rewrite Ascii.eqb_refl. cbn.
  rewrite <- (app_nil_r rest). by rewrite scan_balanced.
Qed.

End extract.

Lemma extract_all_json_group_witness :
  extract_all_json loads_text
    (String.list_ascii_of_string "ok " ++
     "{"%char :: String.list_ascii_of_string "a{b}c" ++
     "}"%char :: String.list_ascii_of_string " {d}") =
  option_list
    (loads_text ("{"%char :: String.list_ascii_of_string "a{b}c" ++ ["}"%char])) ++
  extract_all_json loads_text (String.list_ascii_of_string " {d}").
Proof.
  apply (extract_all_json_group loads_text).
  - by repeat constructor.
  - apply balanced_char; [done .. |].
    apply (balanced_group ["b"%char] ["c"%char]); by repeat constructor.
Defined.

Lemma stray_brace_hides_group_witness :
  extract_all_json loads_text
    (String.list_ascii_of_string "x" ++
     "}"%char :: String.list_ascii_of_string " " ++
     "{"%char :: String.list_ascii_of_string "a" ++
     "}"%char :: String.list_ascii_of_string " {{b}}") =
  extract_all_json loads_text
    (String.list_ascii_of_string "x" ++
     "}"%char :: String.list_ascii_of_string " {{b}}").
Proof.
  apply (stray_brace_hides_group loads_text); by repeat constructor.
Defined.

Lemma unclosed_brace_swallows_witness :
  extract_all_json loads_text
    (String.list_ascii_of_string "x" ++
     "{"%char :: String.list_ascii_of_string " {a} {b}") = [].
Proof.
  apply (unclosed_brace_swallows loads_text); [by repeat constructor |].
  apply balanced_char; [done .. |].
  apply (balanced_group ["a"%char] (String.list_ascii_of_string " {b}"));
    [by repeat constructor |].
  apply balanced_char; [done .. |].
  apply (balanced_group ["b"%char] []); by repeat constructor.
Defined.

Section query.
Variable json_loads : list ascii → option value.
Variable str_lower : string → string.


(** The history that one query leaves behind, whatever its outcome. *)
Lemma process_user_query_history (messages : list message) (user_query : string)
    (answer : chat_reply) :
  messages ≠ [] →
  (length messages ≤ 10)%nat →
  let history := (process_user_query json_loads str_lower messages user_query answer).1 in
  history ≠ [] ∧
  history !! 0%nat = messages !! 0%nat ∧
  (length history ≤ 10)%nat.
Proof.
  intros Hne Hlen. unfold process_user_query.
  destruct (trim_history_snoc messages (Message "user" (VStr user_query))
              MAX_MESSAGES) as (kept & -> & Hkept & Hfirst & Hbound & _);
    [done | done | unfold MAX_MESSAGES; lia |].
  assert (kept ++ [Message "user" (VStr user_query)] ≠ []) as Hne'.
  { by destruct kept. }
  assert ((kept ++ [Message "user" (VStr user_query)]) !! 0%nat =
          messages !! 0%nat) as Hfirst'.
  { rewrite <- Hfirst. by destruct kept. }
  assert (length (kept ++ [Message "user" (VStr user_query)]) ≤ 10)%nat
    as Hlen'.
  { rewrite length_app. cbn [length]. unfold MAX_MESSAGES in Hbound. lia. }
  destruct answer as [e | e | raw]; [done | done |].
  destruct (select_output _ _ _) as [final_output | e]; [| done].
  cbn zeta.
  match goal with |- context [trim_history (_ ++ [?msg]) _] =>
    destruct (trim_history_snoc (kept ++ [Message "user" (VStr user_query)])
                msg MAX_MESSAGES)
      as (kept' & -> & Hkept' & Hfirst'' & Hbound' & _);
      [done | done | unfold MAX_MESSAGES; lia |]
  end.
  cbn [fst]. split_and!.
  - by destruct kept'.
  - rewrite <- Hfirst', <- Hfirst''. by destruct kept'.
  - rewrite length_app. cbn [length]. unfold MAX_MESSAGES in Hbound'. lia.
Qed.

(** A query that the chat session answers with a text from which the
    steps are read without an error. *)
Lemma process_user_query_text (messages : list message) (user_query raw : string)
    (final_output : value) :
  messages ≠ [] →
  (length messages ≤ 10)%nat →
  select_output str_lower
    (extract_all_json json_loads (String.list_ascii_of_string raw)) VNone =
    Ok final_output →
  let reply := if truthy final_output then final_output else VStr raw in
  ∃ older,
    process_user_query json_loads str_lower messages user_query (SendText raw) =
      (older ++ [Message "user" (VStr user_query); Message "model" reply],
       Ok (VDict {[ "final" := reply ]})).
Proof.
  intros Hne Hlen Hsteps reply. unfold process_user_query.
  destruct (trim_history_snoc messages (Message "user" (VStr user_query))
              MAX_MESSAGES) as (kept & -> & Hkept & Hfirst & Hbound & _);
    [done | done | unfold MAX_MESSAGES; lia |].
  rewrite Hsteps. cbn zeta. fold reply.
  destruct (trim_history_snoc (kept ++ [Message "user" (VStr user_query)])
              (Message "model" reply) MAX_MESSAGES)
    as (kept' & -> & _ & _ & _ & Hlast).
  - done.
  - by destruct kept.
  - rewrite length_app. cbn [length]. lia.
  - rewrite last_snoc in Hlast.
    apply last_Some in Hlast as [older ->]; [| done].
    exists older. by rewrite <- app_assoc.
Qed.

Lemma select_output_skips (steps : list value) (final_output : value) :
  Forall (λ step, ∃ stype, step_type str_lower step = Ok stype ∧ stype ≠ "output")
    steps →
  select_output str_lower steps final_output = Ok final_output.
Proof.
  induction 1 as [| step steps (stype & Htype & Hother) _ IH]; [done |].
  cbn [select_output]. rewrite Htype. cbn.
  by rewrite bool_decide_eq_false_2.
Qed.

Lemma select_output_returns (steps : list value) (final_output : value) :
  Forall (λ step, is_ok (step_type str_lower step)) steps →
  is_ok (select_output str_lower steps final_output).
Proof.
  intros Hsteps. revert final_output.
  induction Hsteps as [| step steps Hstep _ IH]; intros final_output; [done |].
  cbn [select_output].
  destruct (step_type str_lower step) as [stype |] eqn:Htype; [| done]. cbn.
  case_bool_decide; [| done].
  unfold step_type in Htype.
  destruct (as_dict step) as [d |]; [| done]. cbn. apply IH.
Qed.

Lemma select_output_app (before after : list value) (final_output : value) :
  select_output str_lower (before ++ after) final_output =
    select_output str_lower before final_output ≫= select_output str_lower after.
Proof.
  revert final_output.
  induction before as [| step before IH]; intros final_output; [done |].
  cbn [app select_output].
  destruct (step_type str_lower step) as [stype |]; [| done]. cbn.
  case_bool_decide; [| done].
  destruct (as_dict step) as [d |]; [| done]. cbn. apply IH.
Qed.

(** X24.  Over any run of queries, whatever the chat session answers, a
    non-empty history of at most 10 messages keeps its first message (the
    system prompt) in first place and never grows beyond 10 messages. *)
Theorem history_keeps_prompt (messages : list message)
    (queries : list (string * chat_reply)) :
  messages ≠ [] →
  (length messages ≤ 10)%nat →
  serve json_loads str_lower messages queries !! 0%nat = messages !! 0%nat ∧
  (length (serve json_loads str_lower messages queries) ≤ 10)%nat.
Proof.
  revert messages.
  induction queries as [| [user_query answer] queries IH];
    intros messages Hne Hlen; [done |].
  destruct (process_user_query_history messages user_query answer Hne Hlen)
    as (Hne' & Hfirst & Hlen').
  destruct (IH _ Hne' Hlen') as [Hfirst' Hbound].
  unfold serve in *. cbn [foldl fst snd].
  split; [by rewrite Hfirst', Hfirst | done].
Qed.

(** X25.  A reply text without braces holds no step: it is returned as the
    final answer word for word, and the history ends with the query and
    that text. *)
Theorem plain_reply_returned (messages : list message) (user_query raw : string) :
  messages ≠ [] →
  (length messages ≤ 10)%nat →
  brace_free (String.list_ascii_of_string raw) →
  ∃ older,
    process_user_query json_loads str_lower messages user_query (SendText raw) =
      (older ++ [Message "user" (VStr user_query); Message "model" (VStr raw)],
       Ok (VDict {[ "final" := VStr raw ]})).
Proof.
  intros Hne Hlen Hplain.
  apply (process_user_query_text messages user_query raw VNone Hne Hlen).
  rewrite extract_all_json_scan.
  rewrite <- (app_nil_r (String.list_ascii_of_string raw)).
  by rewrite scan_brace_free.
Qed.

(** X26.  Among steps whose types can all be read, the last one of type
    "output" decides: the loop ends with its "content" if that is truthy
    and with its "output" (None if absent) otherwise, whatever earlier
    output steps held. *)
Theorem last_output_step_decides (before after : list value)
    (d : gmap string value) (final_output : value) :
  Forall (λ step, is_ok (step_type str_lower step)) before →
  step_type str_lower (VDict d) = Ok "output" →
  Forall (λ step, ∃ stype, step_type str_lower step = Ok stype ∧ stype ≠ "output")
    after →
  select_output str_lower (before ++ VDict d :: after) final_output =
    Ok (if truthy (get d "content" VNone) then get d "content" VNone
        else get d "output" VNone).
Proof.
  intros Hbefore Hstep Hafter. rewrite select_output_app.
  pose proof (select_output_returns before final_output Hbefore) as Hok.
  destruct (select_output str_lower before final_output) as [earlier |];
    [| done].
  cbn [mbind result_bind select_output]. rewrite Hstep. cbn.
  by apply select_output_skips.
Qed.

(** X27.  A step whose "step" entry is truthy but not a string (a number,
    a list, an object) makes the query fail with AttributeError once the
    steps before it have been read: the query is already in the history,
    and no reply is stored. *)
Theorem step_type_not_text_raises (messages : list message)
    (user_query raw : string) (before after : list value)
    (d : gmap string value) (stype : value) :
  messages ≠ [] →
  (length messages ≤ 10)%nat →
  extract_all_json json_loads (String.list_ascii_of_string raw) =
    before ++ VDict d :: after →
  Forall (λ step, is_ok (step_type str_lower step)) before →
  d !! "step" = Some stype →
  truthy stype = true →
  (∀ s, stype ≠ VStr s) →
  ∃ older e,
    process_user_query json_loads str_lower messages user_query (SendText raw) =
      (older ++ [Message "user" (VStr user_query)], Raise e) ∧
    exn_kind_of e = AttributeError.
Proof.
  intros Hne Hlen Hsteps Hbefore Hstype Htruthy Hother.
  unfold process_user_query.
  destruct (trim_history_snoc messages (Message "user" (VStr user_query))
              MAX_MESSAGES) as (kept & -> & _);
    [done | done | unfold MAX_MESSAGES; lia |].
  rewrite Hsteps, select_output_app.
  pose proof (select_output_returns before VNone Hbefore) as Hok.
  destruct (select_output str_lower before VNone) as [earlier |]; [| done].
  cbn [mbind result_bind select_output].
  unfold step_type. cbn [as_dict mbind result_bind].
  unfold get. rewrite Hstype. change (default VNone (Some stype)) with stype.
  rewrite Htruthy.
  destruct stype as [| | | | s | |];
    try (eexists kept, _; split; [reflexivity | reflexivity]).
  by destruct (Hother s).
Qed.

(** X28.  When sending the query fails, the answer carries the error text
    as its final message with no steps, and the query stays in the history
    as its last message, without a reply after it. *)
Theorem failed_send_keeps_query (messages : list message)
    (user_query e : string) :
  messages ≠ [] →
  (length messages ≤ 10)%nat →
  ∃ older answer,
    process_user_query json_loads str_lower messages user_query (SendRaised e) =
      (older ++ [Message "user" (VStr user_query)], Ok (VDict answer)) ∧
    older !! 0%nat = messages !! 0%nat ∧
    answer !! "final" = Some (VStr ("❌ Gemini API error: " +:+ e)) ∧
    answer !! "steps" = Some (VList []) ∧
    answer !! "raw" = Some (VStr "").
Proof.
  intros Hne Hlen. unfold process_user_query.
  destruct (trim_history_snoc messages (Message "user" (VStr user_query))
              MAX_MESSAGES) as (kept & -> & _ & Hfirst & _);
    [done | done | unfold MAX_MESSAGES; lia |].
  eexists kept, _. split; [reflexivity |]. split; [done |].
  by split_and!.
Qed.

End query.

(** Two queries from the seeded history, the second one failing. *)
Lemma history_keeps_prompt_witness :
  serve loads_text id (seed_messages "prompt")
    [("hi", SendText "hello"); ("more", SendRaised "unavailable")] !! 0%nat =
    seed_messages "prompt" !! 0%nat ∧
  (length (serve loads_text id (seed_messages "prompt")
             [("hi", SendText "hello"); ("more", SendRaised "unavailable")])
     ≤ 10)%nat.
Proof.
  apply (history_keeps_prompt loads_text id (seed_messages "prompt")
           [("hi", SendText "hello"); ("more", SendRaised "unavailable")]).
  - discriminate.
  - cbn. lia.
Defined.

Lemma plain_reply_returned_witness :
  ∃ older,
    process_user_query loads_text id (seed_messages "prompt") "hi"
      (SendText "hello") =
      (older ++ [Message "user" (VStr "hi"); Message "model" (VStr "hello")],
       Ok (VDict {[ "final" := VStr "hello" ]})).
Proof.
  apply (plain_reply_returned loads_text id (seed_messages "prompt") "hi"
           "hello").
  - discriminate.
  - cbn. lia.
  - by repeat constructor.
Defined.

(** An output step with a content after an output step with another. *)
Lemma last_output_step_decides_witness :
  select_output id
    ([VDict {[ "step" := VStr "output"; "content" := VStr "first" ]}] ++
     VDict {[ "step" := VStr "output"; "content" := VStr "second" ]} ::
     [VDict {[ "step" := VStr "plan" ]}]) VNone =
  Ok (if truthy (get {[ "step" := VStr "output"; "content" := VStr "second" ]}
                   "content" VNone)
      then get {[ "step" := VStr "output"; "content" := VStr "second" ]}
             "content" VNone
      else get {[ "step" := VStr "output"; "content" := VStr "second" ]}
             "output" VNone).
Proof.
  apply (last_output_step_decides id
           [VDict {[ "step" := VStr "output"; "content" := VStr "first" ]}]
           [VDict {[ "step" := VStr "plan" ]}]
           {[ "step" := VStr "output"; "content" := VStr "second" ]} VNone).
  - by repeat constructor.
  - reflexivity.
  - repeat constructor. exists "plan". by split.
Defined.

Lemma step_type_not_text_raises_witness :
  ∃ older e,
    process_user_query loads_numbered id (seed_messages "prompt") "hi"
      (SendText "{a}") =
      (older ++ [Message "user" (VStr "hi")], Raise e) ∧
    exn_kind_of e = AttributeError.
Proof.
  apply (step_type_not_text_raises loads_numbered id (seed_messages "prompt")
           "hi" "{a}" [] [] {[ "step" := VInt 3 ]} (VInt 3)).
  - discriminate.
  - cbn. lia.
  - reflexivity.
  - constructor.
  - reflexivity.
  - reflexivity.
  - discriminate.
Defined.

Lemma failed_send_keeps_query_witness :
  ∃ older answer,
    process_user_query loads_text id (seed_messages "prompt") "hi"
      (SendRaised "unavailable") =
      (older ++ [Message "user" (VStr "hi")], Ok (VDict answer)) ∧
    older !! 0%nat = seed_messages "prompt" !! 0%nat ∧
    answer !! "final" = Some (VStr ("❌ Gemini API error: " +:+ "unavailable")) ∧
    answer !! "steps" = Some (VList []) ∧
    answer !! "raw" = Some (VStr "").
Proof.
  apply (failed_send_keeps_query loads_text id (seed_messages "prompt") "hi"
           "unavailable").
  - discriminate.
  - cbn. lia.
Defined.

End ChatbotFacts.
